(** * Cross-source story clustering and synthesis pipeline

    A shallow embedding of the news aggregation backend:
    - [services/normalize.js]        (Module [Normalize])
    - [services/articleGrouper.js]   (Modules [Similarity], [Grouper])
    - [services/llmSummarizer.js]    (Module [Summarizer])
    - [routes/newsAggregate.js]      (Module [Aggregate])
    - [services/gdeltClient.js]      (Module [Gdelt], the query it sends)
    - [server.js]                    (Module [Cache], the response cache)
    - [routes/newsAggregate.js]      (Module [Handler], the reading of the
                                      [query] and [category] parameters)

    JavaScript strings are modelled as lists of 8-bit characters; the case
    maps act on the letters A-Z / a-z only, which is what JavaScript does on
    ASCII text, and the statements that depend on them are made for ASCII
    text.  Similarity scores are modelled
    as exact rationals: a score is a quotient of two small integers plus the
    decimal constants 0.1 and 0.05, capped at 1.  The properties of the
    clustering loop are proved for whatever values the scores take, and the
    sample runs involve no bonus, so that their scores are the quotients
    themselves. *)

From Stdlib Require Import Ascii String DecimalString.
From Stdlib Require Import List Bool Arith ZArith QArith Qround Lia.
From Stdlib Require Import Permutation.
From Stdlib Require Sorted DecimalFacts DecimalNat Finite.
Import ListNotations.
Close Scope Q_scope.

Set Implicit Arguments.

(** ** JavaScript strings *)

Module Js.

Definition jsstring := list ascii.

Definition lit (s : string) : jsstring := list_ascii_of_string s.

Definition str_eq_dec : forall a b : jsstring, {a = b} + {a <> b} :=
  list_eq_dec ascii_dec.

Definition str_eqb (a b : jsstring) : bool :=
  if str_eq_dec a b then true else false.

Definition code (c : ascii) : nat := nat_of_ascii c.

Definition isUpper (c : ascii) : bool := (65 <=? code c) && (code c <=? 90).
Definition isLower (c : ascii) : bool := (97 <=? code c) && (code c <=? 122).
Definition isAlpha (c : ascii) : bool := isUpper c || isLower c.
Definition isDigit (c : ascii) : bool := (48 <=? code c) && (code c <=? 57).

(** [\w] *)
Definition isWordChar (c : ascii) : bool :=
  isAlpha c || isDigit c || (code c =? 95).

(** [\s]: tab, line feed, vertical tab, form feed, carriage return, space,
    no-break space. *)
Definition isSpace (c : ascii) : bool :=
  ((9 <=? code c) && (code c <=? 13)) || (code c =? 32) || (code c =? 160).

(** The characters [.] of a regular expression does not match. *)
Definition isLineTerminator (c : ascii) : bool :=
  (code c =? 10) || (code c =? 13).

Definition lowerChar (c : ascii) : ascii :=
  if isUpper c then ascii_of_nat (code c + 32) else c.

Definition upperChar (c : ascii) : ascii :=
  if isLower c then ascii_of_nat (code c - 32) else c.

Definition toLowerCase (s : jsstring) : jsstring := map lowerChar s.
Definition toUpperCase (s : jsstring) : jsstring := map upperChar s.

Fixpoint dropWhile (p : ascii -> bool) (s : jsstring) : jsstring :=
  match s with
  | [] => []
  | c :: s' => if p c then dropWhile p s' else s
  end.

Definition trimStart (s : jsstring) : jsstring := dropWhile isSpace s.
Definition trimEnd (s : jsstring) : jsstring := rev (dropWhile isSpace (rev s)).
Definition trim (s : jsstring) : jsstring := trimEnd (trimStart s).

(** [s.substring(0, n)] *)
Definition substring0 (n : nat) (s : jsstring) : jsstring := firstn n s.

(** [s.slice(1)] *)
Definition slice1 (s : jsstring) : jsstring := skipn 1 s.

(** [s.charAt(0).toUpperCase() + s.slice(1)] *)
Definition capitalize (s : jsstring) : jsstring :=
  toUpperCase (firstn 1 s) ++ slice1 s.

(** [s.lastIndexOf(' ')], [-1] when there is no space. *)
Fixpoint lastIndexOfFrom (c : ascii) (i : Z) (found : Z) (s : jsstring) : Z :=
  match s with
  | [] => found
  | d :: s' =>
      lastIndexOfFrom c (i + 1) (if ascii_dec d c then i else found) s'
  end.

Definition lastIndexOf (c : ascii) (s : jsstring) : Z :=
  lastIndexOfFrom c 0 (-1) s.

Fixpoint isPrefix (p s : jsstring) : bool :=
  match p, s with
  | [], _ => true
  | _ :: _, [] => false
  | a :: p', b :: s' => if ascii_dec a b then isPrefix p' s' else false
  end.

(** [s.includes(p)] *)
Fixpoint includes (s p : jsstring) : bool :=
  isPrefix p s ||
  match s with
  | [] => false
  | _ :: s' => includes s' p
  end.

(** [s.split(/\s+/)]: the pieces between maximal runs of white space; a
    run at either end of the string leaves an empty piece there. *)
Fixpoint splitWsFrom (inRun : bool) (cur : jsstring) (s : jsstring)
  : list jsstring :=
  match s with
  | [] => [rev cur]
  | c :: s' =>
      if isSpace c
      then if inRun then splitWsFrom true cur s'
           else rev cur :: splitWsFrom true [] s'
      else splitWsFrom false (c :: cur) s'
  end.

Definition splitWs (s : jsstring) : list jsstring := splitWsFrom false [] s.

(** [s.split(/[.!?]/)[0]] *)
Definition isStop (c : ascii) : bool :=
  (code c =? 46) || (code c =? 33) || (code c =? 63).

Fixpoint takeWhile (p : ascii -> bool) (s : jsstring) : jsstring :=
  match s with
  | [] => []
  | c :: s' => if p c then c :: takeWhile p s' else []
  end.

Definition firstSentenceOf (s : jsstring) : jsstring :=
  takeWhile (fun c => negb (isStop c)) s.

(** [arr.join(sep)] *)
Fixpoint join (sep : jsstring) (l : list jsstring) : jsstring :=
  match l with
  | [] => []
  | [x] => x
  | x :: rest => x ++ sep ++ join sep rest
  end.

(** [String(n)] for a non-negative integer. *)
Definition ofNat (n : nat) : jsstring :=
  lit (NilEmpty.string_of_uint (Nat.to_uint n)).

(** A string is truthy when it is not empty. *)
Definition truthy (s : jsstring) : bool :=
  match s with [] => false | _ => true end.

(** [a || b] on strings. *)
Definition orElse (a b : jsstring) : jsstring := if truthy a then a else b.

(** [a || b] where [a] can be [undefined]. *)
Definition optOr (a : option jsstring) (b : jsstring) : jsstring :=
  match a with
  | Some s => orElse s b
  | None => b
  end.

Definition optTruthy (a : option jsstring) : bool :=
  match a with
  | Some s => truthy s
  | None => false
  end.

(** Stable sort with a comparator, as [Array.prototype.sort]: [x] goes
    before [y] when [cmp x y < 0], and elements that compare equal keep
    their order. *)
Section Sort.
Variable T : Type.
Variable cmp : T -> T -> Z.

Fixpoint insertSorted (x : T) (l : list T) : list T :=
  match l with
  | [] => [x]
  | y :: l' => if (cmp x y <=? 0)%Z then x :: l else y :: insertSorted x l'
  end.

Fixpoint sort (l : list T) : list T :=
  match l with
  | [] => []
  | x :: l' => insertSorted x (sort l')
  end.
End Sort.

(** [new Set(array)]: the distinct elements, in order of first occurrence. *)
Fixpoint dedupeInto (seen : list jsstring) (l : list jsstring) : list jsstring :=
  match l with
  | [] => rev seen
  | x :: l' =>
      if existsb (str_eqb x) seen then dedupeInto seen l'
      else dedupeInto (x :: seen) l'
  end.

Definition mkSet (l : list jsstring) : list jsstring := dedupeInto [] l.

(** [set.has(x)] *)
Definition has (set : list jsstring) (x : jsstring) : bool :=
  existsb (str_eqb x) set.

(** A JavaScript number that is an integer or [NaN] (the result of
    [parseInt], and what [Math.min] / [Math.max] make of it). *)
Inductive jsint : Type :=
| Int (z : Z)
| NaN.

Definition mathMin (a b : jsint) : jsint :=
  match a, b with
  | Int x, Int y => Int (Z.min x y)
  | _, _ => NaN
  end.

Definition mathMax (a b : jsint) : jsint :=
  match a, b with
  | Int x, Int y => Int (Z.max x y)
  | _, _ => NaN
  end.

Definition jsAdd (a b : jsint) : jsint :=
  match a, b with
  | Int x, Int y => Int (x + y)
  | _, _ => NaN
  end.

Definition jsSub (a b : jsint) : jsint :=
  match a, b with
  | Int x, Int y => Int (x - y)
  | _, _ => NaN
  end.

Definition jsMul (a b : jsint) : jsint :=
  match a, b with
  | Int x, Int y => Int (x * y)
  | _, _ => NaN
  end.

(** [parseInt(s, 10)]: leading white space, an optional sign, then the
    longest run of decimal digits; [NaN] when that run is empty. *)
Definition digitsValue (ds : jsstring) : Z :=
  fold_left (fun acc c => (acc * 10 + Z.of_nat (code c - 48))%Z) ds 0%Z.

Fixpoint takeDigits (s : jsstring) : jsstring :=
  match s with
  | [] => []
  | c :: s' => if isDigit c then c :: takeDigits s' else []
  end.

Definition parseInt (s : jsstring) : jsint :=
  let s1 := dropWhile isSpace s in
  let (negative, s2) :=
    match s1 with
    | c :: rest =>
        if code c =? 45 then (true, rest)
        else if code c =? 43 then (false, rest)
        else (false, s1)
    | [] => (false, s1)
    end in
  match takeDigits s2 with
  | [] => NaN
  | ds => Int (if negative then - digitsValue ds else digitsValue ds)
  end.

(** [ToIntegerOrInfinity], as applied to the arguments of [slice]. *)
Definition toInteger (a : jsint) : Z :=
  match a with
  | Int z => z
  | NaN => 0%Z
  end.

(** [arr.slice(start, end)] *)
Definition sliceArr (T : Type) (l : list T) (start stop : jsint) : list T :=
  let n := Z.of_nat (length l) in
  let rel (z : Z) := if (z <? 0)%Z then Z.max (n + z) 0 else Z.min z n in
  let k := rel (toInteger start) in
  let final := rel (toInteger stop) in
  firstn (Z.to_nat (Z.max (final - k) 0)) (skipn (Z.to_nat k) l).

End Js.

Import Js.

(** ** The platform

    [new Date(string).getTime()], [new URL(string).hostname] and the MD5
    digest of [crypto] are built into the runtime.  They are taken as
    parameters: a date string either parses to a number of milliseconds or
    gives an invalid date, a URL string either parses to a URL with a host
    name or makes the constructor throw, the digest is a string of
    hexadecimal digits. *)

Record Platform : Type := {
  dateParse : jsstring -> option Z;
  urlHostname : jsstring -> option jsstring;
  md5Hex : jsstring -> jsstring
}.

(** ** The normalized article ([services/normalize.js], typedef) *)

Record NormalizedArticle : Type := {
  id : jsstring;
  source : jsstring;
  title : jsstring;
  description : jsstring;
  content : jsstring;
  url : jsstring;
  imageUrl : jsstring;
  publishedAt : jsstring;
  author : jsstring;
  language : jsstring
}.

(** ** Similarity of two articles ([services/articleGrouper.js]) *)

Module Similarity.

Definition space : ascii := " "%char.

(** [.replace(/[^\w\s]/g, ' ')] *)
Definition stripPunctuation (s : jsstring) : jsstring :=
  map (fun c => if isWordChar c || isSpace c then c else space) s.

(** [.replace(/\s+/g, ' ')] *)
Fixpoint collapseWsFrom (inRun : bool) (s : jsstring) : jsstring :=
  match s with
  | [] => []
  | c :: s' =>
      if isSpace c
      then if inRun then collapseWsFrom true s'
           else space :: collapseWsFrom true s'
      else c :: collapseWsFrom false s'
  end.

Definition collapseWs (s : jsstring) : jsstring := collapseWsFrom false s.

Definition normalizeText (text : jsstring) : jsstring :=
  if truthy text
  then trim (collapseWs (stripPunctuation (toLowerCase text)))
  else [].

(** [wordCounts[word] = (wordCounts[word] || 0) + 1]; the object keeps its
    keys in order of insertion. *)
Fixpoint countWord (word : jsstring) (wordCounts : list (jsstring * nat))
  : list (jsstring * nat) :=
  match wordCounts with
  | [] => [(word, 1)]
  | (w, n) :: rest =>
      if str_eqb w word then (w, n + 1) :: rest
      else (w, n) :: countWord word rest
  end.

(** Property keys that are array indices (canonical decimal numerals below
    [2^32 - 1]) are enumerated first, in ascending numeric order. *)
Definition digitValue (c : ascii) : N := N.of_nat (code c - 48).

Definition numeral (w : jsstring) : N :=
  fold_left (fun acc c => (acc * 10 + digitValue c)%N) w 0%N.

Definition isArrayIndex (w : jsstring) : bool :=
  match w with
  | [] => false
  | c :: rest =>
      forallb isDigit w
      && (negb (code c =? 48) || match rest with [] => true | _ => false end)
      && (length w <=? 10)
      && (numeral w <=? 4294967294)%N
  end.

(** [Object.entries(wordCounts)] *)
Definition entries (wordCounts : list (jsstring * nat)) : list (jsstring * nat) :=
  Js.sort (fun a b => (Z.of_N (numeral (fst a)) - Z.of_N (numeral (fst b)))%Z)
          (filter (fun e => isArrayIndex (fst e)) wordCounts)
  ++ filter (fun e => negb (isArrayIndex (fst e))) wordCounts.

(** Words that name an inherited property of the counting object
    ([constructor], [__proto__]) are counted like any other word here. *)
Definition extractKeyTerms (text : jsstring) (maxTerms : nat) : list jsstring :=
  let normalized := normalizeText text in
  let words := filter (fun word => 3 <? length word) (splitWs normalized) in
  let wordCounts := fold_left (fun wc word => countWord word wc) words [] in
  map fst
    (firstn maxTerms
       (Js.sort (fun a b => (Z.of_nat (snd b) - Z.of_nat (snd a))%Z)
                (entries wordCounts))).

Definition jaccardSimilarity (set1 set2 : list jsstring) : Q :=
  match set1, set2 with
  | [], [] => 1%Q
  | [], _ => 0%Q
  | _, [] => 0%Q
  | _, _ =>
      let intersection := mkSet (filter (has set2) set1) in
      let union := mkSet (set1 ++ set2) in
      (Z.of_nat (length intersection) # Pos.of_nat (length union))%Q
  end.

(** [Math.min(1, x)] *)
Definition min1 (x : Q) : Q := if Qle_bool 1 x then 1%Q else x.

Section WithPlatform.
Variable P : Platform.

Definition timeBonus (article1 article2 : NormalizedArticle) : Q :=
  if truthy (publishedAt article1) && truthy (publishedAt article2)
  then match dateParse P (publishedAt article1),
             dateParse P (publishedAt article2) with
       | Some date1, Some date2 =>
           let daysDiff := ((Z.abs (date1 - date2) # 1) / (86400000 # 1))%Q in
           if Qle_bool daysDiff 7 then (1 # 10)%Q else 0%Q
       | _, _ => 0%Q
       end
  else 0%Q.

Definition urlBonus (article1 article2 : NormalizedArticle) : Q :=
  match urlHostname P (url article1) with
  | Some host1 =>
      match urlHostname P (url article2) with
      | Some host2 => if str_eqb host1 host2 then (5 # 100)%Q else 0%Q
      | None => 0%Q
      end
  | None => 0%Q
  end.

Definition articleText (article : NormalizedArticle) : jsstring :=
  title article ++ [space] ++ orElse (description article) [].

Definition calculateSimilarity (article1 article2 : NormalizedArticle) : Q :=
  let text1 := articleText article1 in
  let text2 := articleText article2 in
  let terms1 := mkSet (extractKeyTerms text1 10) in
  let terms2 := mkSet (extractKeyTerms text2 10) in
  let textSimilarity := jaccardSimilarity terms1 terms2 in
  min1 (textSimilarity + timeBonus article1 article2 + urlBonus article1 article2)%Q.

End WithPlatform.

End Similarity.

(** ** Greedy clustering ([services/articleGrouper.js]) *)

Module Grouper.

Record ArticleGroup : Type := {
  groupId : jsstring;
  articles : list NormalizedArticle
}.

(** [bestGroup.articles.push(article)] on the group at position [b]. *)
Fixpoint pushArticle (b : nat) (article : NormalizedArticle)
  (groups : list ArticleGroup) : list ArticleGroup :=
  match groups, b with
  | [], _ => []
  | g :: rest, O =>
      {| groupId := groupId g; articles := articles g ++ [article] |} :: rest
  | g :: rest, S b' => g :: pushArticle b' article rest
  end.

(** [{ groupId: `group-${groups.length + 1}`, articles: [article] }] *)
Definition newGroup (groups : list ArticleGroup) (article : NormalizedArticle)
  : ArticleGroup :=
  {| groupId := lit "group-" ++ ofNat (length groups + 1);
     articles := [article] |}.

Section WithPlatform.
Variable P : Platform.

(** The inner loop over the existing groups.  [bestGroup] is the position
    of the group held by the variable of that name, [None] for [null].
    Reading the representative of a group without articles would throw;
    that is the result [None]. *)
Fixpoint scanGroups (similarityThreshold : Q) (article : NormalizedArticle)
  (groups : list ArticleGroup) (position : nat)
  (bestGroup : option nat) (bestSimilarity : Q) : option (option nat) :=
  match groups with
  | [] => Some bestGroup
  | group :: rest =>
      match articles group with
      | [] => None
      | representative :: _ =>
          let similarity := Similarity.calculateSimilarity P article representative in
          if Qle_bool similarityThreshold similarity
             && negb (Qle_bool similarity bestSimilarity)
          then scanGroups similarityThreshold article rest (S position)
                          (Some position) similarity
          else scanGroups similarityThreshold article rest (S position)
                          bestGroup bestSimilarity
      end
  end.

(** One iteration of the outer loop, on article [i]. *)
Definition groupStep (similarityThreshold : Q) (i : nat)
  (article : NormalizedArticle) (state : list ArticleGroup * list nat)
  : option (list ArticleGroup * list nat) :=
  let (groups, used) := state in
  if existsb (Nat.eqb i) used then Some state
  else
    match scanGroups similarityThreshold article groups 0 None 0%Q with
    | None => None
    | Some (Some bestGroup) =>
        Some (pushArticle bestGroup article groups, i :: used)
    | Some None =>
        Some (groups ++ [newGroup groups article], i :: used)
    end.

Fixpoint groupLoop (similarityThreshold : Q) (i : nat)
  (articles : list NormalizedArticle) (state : list ArticleGroup * list nat)
  : option (list ArticleGroup * list nat) :=
  match articles with
  | [] => Some state
  | article :: rest =>
      match groupStep similarityThreshold i article state with
      | None => None
      | Some state' => groupLoop similarityThreshold (S i) rest state'
      end
  end.

(** [groups.sort((a, b) => b.articles.length - a.articles.length)] *)
Definition bySizeDescending (a b : ArticleGroup) : Z :=
  (Z.of_nat (length (articles b)) - Z.of_nat (length (articles a)))%Z.

Definition groupSimilarArticles (articles : list NormalizedArticle)
  (similarityThreshold : Q) : option (list ArticleGroup) :=
  match articles with
  | [] => Some []
  | _ =>
      match groupLoop similarityThreshold 0 articles ([], []) with
      | None => None
      | Some (groups, _) => Some (Js.sort bySizeDescending groups)
      end
  end.

End WithPlatform.

End Grouper.

(** ** Regular expressions

    The regular expressions of the summarizer use character classes,
    case-insensitive literals, sequence, alternation, greedy repetition of a
    character class and the end anchor.  [matchAt] is the backtracking
    matcher of the language: alternatives are tried left to right, a
    repetition takes as many characters as it can and gives them back one at
    a time.  It returns what is left of the input after the match. *)

Module Regex.

Inductive regex : Type :=
| RClass (p : ascii -> bool)
| RLit (s : jsstring)
| RSeq (r1 r2 : regex)
| RAlt (r1 r2 : regex)
| RRep (p : ascii -> bool) (lo : nat) (hi : option nat)
| REos.

Fixpoint stripPrefixCI (l s : jsstring) : option jsstring :=
  match l, s with
  | [], _ => Some s
  | _ :: _, [] => None
  | a :: l', b :: s' =>
      if ascii_dec (lowerChar a) (lowerChar b) then stripPrefixCI l' s'
      else None
  end.

Definition mayRepeat (hi : option nat) : bool :=
  match hi with
  | Some O => false
  | _ => true
  end.

Fixpoint repeatGreedy (p : ascii -> bool) (lo : nat) (hi : option nat)
  (s : jsstring) (k : jsstring -> option jsstring) : option jsstring :=
  let stop := match lo with O => k s | S _ => None end in
  match s with
  | [] => stop
  | c :: s' =>
      if p c && mayRepeat hi
      then match repeatGreedy p (pred lo) (option_map pred hi) s' k with
           | Some rest => Some rest
           | None => stop
           end
      else stop
  end.

Fixpoint matchAt (r : regex) (s : jsstring) (k : jsstring -> option jsstring)
  : option jsstring :=
  match r with
  | RClass p =>
      match s with
      | c :: s' => if p c then k s' else None
      | [] => None
      end
  | RLit l =>
      match stripPrefixCI l s with
      | Some s' => k s'
      | None => None
      end
  | RSeq r1 r2 => matchAt r1 s (fun s' => matchAt r2 s' k)
  | RAlt r1 r2 =>
      match matchAt r1 s k with
      | Some rest => Some rest
      | None => matchAt r2 s k
      end
  | RRep p lo hi => repeatGreedy p lo hi s k
  | REos =>
      match s with
      | [] => k []
      | _ :: _ => None
      end
  end.

(** A pattern anchored with [^]: the rest of the input after the match. *)
Definition matchStart (r : regex) (s : jsstring) : option jsstring :=
  matchAt r s (fun rest => Some rest).

(** The leftmost match: the text before it, the match, the text after. *)
Fixpoint searchFrom (r : regex) (before : jsstring) (s : jsstring)
  : option (jsstring * jsstring * jsstring) :=
  match matchStart r s with
  | Some rest => Some (rev before, firstn (length s - length rest) s, rest)
  | None =>
      match s with
      | [] => None
      | c :: s' => searchFrom r (c :: before) s'
      end
  end.

Definition search (r : regex) (s : jsstring)
  : option (jsstring * jsstring * jsstring) :=
  searchFrom r [] s.

(** [s.replace(/^r/, '')] *)
Definition removeStart (r : regex) (s : jsstring) : jsstring :=
  match matchStart r s with
  | Some rest => rest
  | None => s
  end.

(** [s.replace(/r/, '')] *)
Definition removeFirst (r : regex) (s : jsstring) : jsstring :=
  match search r s with
  | Some (before, _, after) => before ++ after
  | None => s
  end.

(** [/^r/.test(s)] *)
Definition testStart (r : regex) (s : jsstring) : bool :=
  match matchStart r s with
  | Some _ => true
  | None => false
  end.

Definition never : regex := RClass (fun _ => false).

(** [(w1|w2|...)] *)
Fixpoint oneOf (words : list string) : regex :=
  match words with
  | [] => never
  | [w] => RLit (lit w)
  | w :: rest => RAlt (RLit (lit w)) (oneOf rest)
  end.

Fixpoint seq (rs : list regex) : regex :=
  match rs with
  | [] => RRep (fun _ => false) 0 (Some 0)
  | [r] => r
  | r :: rest => RSeq r (seq rest)
  end.

Definition star (p : ascii -> bool) : regex := RRep p 0 None.
Definition plus (p : ascii -> bool) : regex := RRep p 1 None.
Definition upTo (n : nat) (p : ascii -> bool) : regex := RRep p 0 (Some n).

(** [.] *)
Definition dot (c : ascii) : bool := negb (isLineTerminator c).

End Regex.

(** ** Titles and summaries ([services/llmSummarizer.js]) *)

Module Summarizer.
Import Regex.

Local Open Scope string_scope.
Local Open Scope nat_scope.
Local Open Scope list_scope.

(** The check for generic titles, as written in [summarizeArticleGroup] and
    again in the aggregation route. *)
Definition genericPatterns : list jsstring :=
  map lit ["news story"; "story 1"; "story 2"; "story 3"; "latest news";
           "news coverage"; "story from"].

(** [/^story\s+\d+$/i] *)
Definition storyNumber : regex :=
  seq [RLit (lit "story"); plus isSpace; plus isDigit; REos].

(** [genericPatterns.some(pattern => groupTitle.toLowerCase().includes(pattern))] *)
Definition hasGenericPhrase (groupTitle : jsstring) : bool :=
  existsb (fun pattern => includes (toLowerCase groupTitle) pattern)
          genericPatterns.

(** [/^story\s+\d+$/i.test(groupTitle)] *)
Definition isStoryNumber (groupTitle : jsstring) : bool :=
  testStart storyNumber groupTitle.

(** The two pattern tests of the check. *)
Definition matchesGenericPattern (groupTitle : jsstring) : bool :=
  hasGenericPhrase groupTitle || isStoryNumber groupTitle.

Definition isGeneric (groupTitle : option jsstring) : bool :=
  match groupTitle with
  | None => true
  | Some t =>
      negb (truthy t) || matchesGenericPattern t || (length t <? 10)
  end.

(** *** [generateNeutralTitle] *)

Definition notStop (c : ascii) : bool := negb (isStop c).

Definition actionWords : list (list string * nat) :=
  [ (["announces"; "announced"; "approves"; "approved"; "rejects";
      "rejected"; "proposes"; "proposed"; "implements"; "implemented";
      "introduces"; "introduced"; "launches"; "launched"; "reveals";
      "revealed"; "confirms"; "confirmed"; "denies"; "denied"; "reports";
      "reported"], 50);
    (["protest"; "protests"; "protesting"; "strike"; "strikes"; "striking";
      "election"; "elections"; "meeting"; "meetings"; "decision";
      "decisions"; "policy"; "policies"; "law"; "laws"; "bill"; "bills";
      "plan"; "plans"], 40);
    (["breaks"; "breaking"; "happens"; "happened"; "occurs"; "occurred";
      "develops"; "developed"; "emerges"; "emerged"], 40) ].

(** [/([A-Z][^.!?]{0,50}(?:w1|w2|...)[^.!?]{0,n})/i] *)
Definition actionPattern (entry : list string * nat) : regex :=
  seq [RClass isAlpha; upTo 50 notStop; oneOf (fst entry);
       upTo (snd entry) notStop].

Definition actionPatterns : list regex := map actionPattern actionWords.

Definition sourcePhrases : list string :=
  ["This story"; "The story"; "This article"; "The article"; "According to";
   "Reports indicate"; "Sources say"; "Multiple sources"].

(** [/^(This story|...|Multiple sources)/i] *)
Definition sourcePrefix : regex := oneOf sourcePhrases.

(** [/^(This story|...|Multiple sources|The news|A story|In|On|At|The|A|An)\s+/i] *)
Definition leadIn : regex :=
  RSeq (oneOf (sourcePhrases
               ++ ["The news"; "A story"; "In"; "On"; "At"; "The"; "A"; "An"]))
       (plus isSpace).

(** [/^(that|which|who|where|when|what|how)\s+/i] *)
Definition relativeWord : regex :=
  RSeq (oneOf ["that"; "which"; "who"; "where"; "when"; "what"; "how"])
       (plus isSpace).

(** [/^(BREAKING|EXCLUSIVE|UPDATE|LIVE):\s*/i] *)
Definition newsFlash : regex :=
  seq [oneOf ["BREAKING"; "EXCLUSIVE"; "UPDATE"; "LIVE"]; RLit (lit ":");
       star isSpace].

(** [/\s*-\s*(The Guardian|Guardian|GDELT|Currents|Reuters|AP|BBC).*$/i] *)
Definition sourceSuffix : regex :=
  seq [star isSpace; RLit (lit "-"); star isSpace;
       oneOf ["The Guardian"; "Guardian"; "GDELT"; "Currents"; "Reuters";
              "AP"; "BBC"];
       star dot; REos].

(** The truncation at a word boundary that the function repeats:
    [substring(0, 97)], cut at the last space when it is past index 50. *)
Definition truncateAtWord (s : jsstring) : jsstring :=
  let truncated := substring0 97 s in
  let lastSpace := lastIndexOf Similarity.space truncated in
  if (50 <? lastSpace)%Z then substring0 (Z.to_nat lastSpace) truncated
  else truncated.

(** [chunk = s.substring(0, n).trim()], cut at the last space when it is
    past index [bound]. *)
Definition chunkAtWord (n : nat) (bound : Z) (s : jsstring) : jsstring :=
  let chunk := trim (substring0 n s) in
  let lastSpace := lastIndexOf Similarity.space chunk in
  if (bound <? lastSpace)%Z then substring0 (Z.to_nat lastSpace) chunk
  else chunk.

(** Strategy 1, for one pattern. *)
Definition actionPhrase (summary : jsstring) (pattern : regex)
  : option jsstring :=
  match search pattern summary with
  | Some (_, matched, _) =>
      if truthy matched then
        let phrase := trim (removeStart sourcePrefix (trim matched)) in
        if (20 <=? length phrase) && (length phrase <=? 100) then
          let phrase := capitalize phrase in
          Some (if 100 <? length phrase then truncateAtWord phrase else phrase)
        else None
      else None
  | None => None
  end.

(** Strategy 1: the first pattern that yields a phrase. *)
Fixpoint firstActionPhrase (summary : jsstring) (patterns : list regex)
  : option jsstring :=
  match patterns with
  | [] => None
  | pattern :: rest =>
      match actionPhrase summary pattern with
      | Some phrase => Some phrase
      | None => firstActionPhrase summary rest
      end
  end.

(** Strategy 2: the first sentence. *)
Definition firstSentenceTitle (summary : jsstring) : option jsstring :=
  let firstSentence := trim (firstSentenceOf summary) in
  if 15 <? length firstSentence then
    let neutral := trim (removeStart relativeWord (removeStart leadIn firstSentence)) in
    let neutral := if 0 <? length neutral then capitalize neutral else neutral in
    let wordCount := length (splitWs neutral) in
    if (3 <=? wordCount) && (wordCount <=? 15)
       && (20 <=? length neutral) && (length neutral <=? 100)
    then Some neutral
    else if 100 <? length neutral then
      let neutral := truncateAtWord neutral in
      if 20 <=? length neutral then Some neutral else None
    else None
  else None.

(** Strategy 3: the first chunk of the summary. *)
Definition firstChunkTitle (summary : jsstring) : option jsstring :=
  if 20 <? length summary then
    let chunk := trim (removeStart leadIn (chunkAtWord 80 30 summary)) in
    if 20 <=? length chunk then Some (capitalize chunk) else None
  else None.

(** Strategy 4: the last resort inside the summary branch. *)
Definition finalFallbackTitle (summary : jsstring) : option jsstring :=
  let finalFallback :=
    trim (removeStart sourcePrefix (chunkAtWord 70 20 summary)) in
  if 15 <=? length finalFallback then Some (capitalize finalFallback)
  else None.

(** The branch [if (summary && summary.length > 10)]. *)
Definition fromSummary (summary : option jsstring) : option jsstring :=
  match summary with
  | Some summary =>
      if 10 <? length summary then
        match firstActionPhrase summary actionPatterns with
        | Some phrase => Some phrase
        | None =>
            match firstSentenceTitle summary with
            | Some neutral => Some neutral
            | None =>
                match firstChunkTitle summary with
                | Some chunk => Some chunk
                | None => finalFallbackTitle summary
                end
            end
        end
      else None
  | None => None
  end.

(** The branch [if (title)]. *)
Definition fromTitle (title : option jsstring) : option jsstring :=
  match title with
  | Some title =>
      if truthy title then
        let neutral := trim (removeFirst sourceSuffix (removeStart newsFlash title)) in
        if (15 <=? length neutral) && (length neutral <=? 100)
        then Some neutral
        else
          let neutral :=
            if 100 <? length neutral then truncateAtWord neutral else neutral in
          if 15 <=? length neutral then Some neutral else None
      else None
  | None => None
  end.

(** The branch [if (description && description.length > 20)]. *)
Definition fromDescription (description : option jsstring) : option jsstring :=
  match description with
  | Some description =>
      if 20 <? length description then
        let firstSentence := trim (firstSentenceOf description) in
        if (15 <=? length firstSentence) && (length firstSentence <=? 100)
        then Some (capitalize firstSentence)
        else None
      else None
  | None => None
  end.

(** The branch [if (summary && summary.length > 0)]. *)
Definition fromShortSummary (summary : option jsstring) : option jsstring :=
  match summary with
  | Some summary =>
      if 0 <? length summary then
        let chunk := trim (substring0 60 summary) in
        let lastSpace := lastIndexOf Similarity.space chunk in
        if (15 <? lastSpace)%Z
        then Some (capitalize (substring0 (Z.to_nat lastSpace) chunk))
        else Some (capitalize chunk)
      else None
  | None => None
  end.

(** The last line of the function. *)
Definition lastResort (title : option jsstring) : jsstring :=
  if optTruthy title then trim (substring0 80 (optOr title []))
  else lit "Story from multiple sources".

Definition generateNeutralTitle (title description summary : option jsstring)
  : jsstring :=
  match fromSummary summary with
  | Some t => t
  | None =>
      match fromTitle title with
      | Some t => t
      | None =>
          match fromDescription description with
          | Some t => t
          | None =>
              match fromShortSummary summary with
              | Some t => t
              | None => lastResort title
              end
          end
      end
  end.

(** *** [summarizeArticleGroup] *)

(** The group as the summarizer reads it: [articles] can be missing. *)
Record Group : Type := {
  groupId : jsstring;
  articles : option (list NormalizedArticle)
}.

Definition ofArticleGroup (g : Grouper.ArticleGroup) : Group :=
  {| groupId := Grouper.groupId g; articles := Some (Grouper.articles g) |}.

Record GroupSummary : Type := {
  summaryGroupId : jsstring;
  groupTitle : jsstring;
  summary : jsstring;
  detailedComparison : jsstring;
  simpleComparison : jsstring;
  differences : list jsstring
}.

(** The object parsed from the reply of the text-generation service, with
    the fields the code reads; a field that is not there is [None]. *)
Record Parsed : Type := {
  parsedGroupTitle : option jsstring;
  parsedSummary : option jsstring;
  parsedDetailedComparison : option jsstring;
  parsedSimpleComparison : option jsstring;
  parsedDifferences : option (list jsstring)
}.

(** The text-generation service: whether a key is configured, and the
    outcome of the request built from the articles of a group.  [None] is
    any failure between sending the request and parsing its reply, all of
    which the code handles in one [catch]. *)
Record Service : Type := {
  hasApiKey : bool;
  complete : list NormalizedArticle -> option Parsed
}.

Definition noArticles (groupId : jsstring) : GroupSummary :=
  {| summaryGroupId := groupId;
     groupTitle := lit "News Story";
     summary := lit "No articles to summarize.";
     detailedComparison := lit "No articles available for comparison.";
     simpleComparison := lit "No articles available for comparison.";
     differences := [] |}.

Definition sourcesOf (articles : list NormalizedArticle) : list jsstring :=
  mkSet (map source articles).

(** [nameMap[s] || s] *)
Definition sourceName (s : jsstring) : jsstring :=
  if str_eqb s (lit "guardian") then lit "The Guardian"
  else if str_eqb s (lit "gdelt") then lit "GDELT"
  else if str_eqb s (lit "currents") then lit "Currents"
  else s.

Definition singleArticle (groupId : jsstring) (article : NormalizedArticle)
  : GroupSummary :=
  let summary := orElse (description article) (title article) in
  let neutralTitle :=
    generateNeutralTitle (Some (title article)) (Some (description article))
                         (Some summary) in
  let only := lit "Only covered by " ++ source article ++ lit "." in
  {| summaryGroupId := groupId;
     groupTitle := neutralTitle;
     summary := summary;
     detailedComparison := only;
     simpleComparison := only;
     differences := [only] |}.

(** [articles[0]?.title] and [articles[0]?.description] *)
Definition firstTitle (articles : list NormalizedArticle) : option jsstring :=
  option_map title (hd_error articles).

Definition firstDescription (articles : list NormalizedArticle)
  : option jsstring :=
  option_map description (hd_error articles).

Definition generateBasicSummary (groupId : jsstring)
  (articles : list NormalizedArticle) : GroupSummary :=
  let sources := sourcesOf articles in
  let sourceNames := map sourceName sources in
  let titles := join (lit "; ") (map title articles) in
  let descriptions :=
    join (lit " ") (firstn 2 (filter truthy (map description articles))) in
  let detailedComparison :=
    lit "This story was covered by " ++ join (lit ", ") sourceNames ++ lit ". "
    ++ (if length sources =? 2
        then lit "Each source provides its own perspective on the events."
        else lit "Each source offers a different angle on the story.") in
  let simpleComparison :=
    match sourceNames with
    | [first; second] =>
        first ++ lit " and " ++ second
        ++ lit " cover this story with different perspectives."
    | _ =>
        lit "Covered by " ++ join (lit ", ") sourceNames
        ++ lit " with varying perspectives."
    end in
  let summary :=
    orElse descriptions
           (orElse titles (lit "Multiple sources covered this story.")) in
  let groupTitle :=
    generateNeutralTitle (firstTitle articles) (firstDescription articles)
                         (Some summary) in
  {| summaryGroupId := groupId;
     groupTitle := groupTitle;
     summary := summary;
     detailedComparison := detailedComparison;
     simpleComparison := simpleComparison;
     differences :=
       map (fun src =>
              let sourceArticles :=
                filter (fun a => str_eqb (source a) src) articles in
              src ++ lit ": " ++ ofNat (length sourceArticles)
              ++ lit " article(s) - " ++ optOr (firstTitle sourceArticles) [])
           sources |}.

(** The result built from a parsed reply. *)
Definition fromParsed (groupId : jsstring) (articles : list NormalizedArticle)
  (parsed : Parsed) : GroupSummary :=
  let summary := optOr (parsedSummary parsed) (lit "Summary not available.") in
  let groupTitle :=
    if isGeneric (parsedGroupTitle parsed)
    then generateNeutralTitle (firstTitle articles) (firstDescription articles)
                              (Some summary)
    else optOr (parsedGroupTitle parsed) [] in
  {| summaryGroupId := groupId;
     groupTitle := groupTitle;
     summary := summary;
     detailedComparison :=
       optOr (parsedDetailedComparison parsed)
         (optOr (option_map (join (lit " ")) (parsedDifferences parsed))
                (lit "Comparison not available."));
     simpleComparison :=
       optOr (parsedSimpleComparison parsed)
         (optOr (match parsedDifferences parsed with
                 | Some l => hd_error l
                 | None => None
                 end)
                (lit "Articles differ in their focus and emphasis."));
     differences :=
       match parsedDifferences parsed with
       | Some l => l
       | None => []
       end |}.

(** The function is [async]; its result is the value the promise resolves
    to.  For a group whose articles are well-formed records nothing outside
    the request to the service can throw, so the outer [catch] is not
    modelled. *)
Definition summarizeArticleGroup (svc : Service) (group : Group)
  : GroupSummary :=
  match articles group with
  | None => noArticles (groupId group)
  | Some [] => noArticles (groupId group)
  | Some [article] => singleArticle (groupId group) article
  | Some articles =>
      if negb (hasApiKey svc) then generateBasicSummary (groupId group) articles
      else
        match complete svc articles with
        | Some parsed => fromParsed (groupId group) articles parsed
        | None => generateBasicSummary (groupId group) articles
        end
  end.

End Summarizer.

(** ** Normalization ([services/normalize.js]) *)

Module Normalize.

Local Open Scope string_scope.
Local Open Scope nat_scope.
Local Open Scope list_scope.

Record Tag : Type := {
  tagType : option jsstring;
  tagWebTitle : option jsstring
}.

(** A raw record of a provider: its string-valued properties by name (a
    nested property under [fields] is named [fields.x]) and its [tags]. *)
Record RawRecord : Type := {
  props : list (string * jsstring);
  tags : option (list Tag)
}.

Fixpoint lookup (name : string) (l : list (string * jsstring))
  : option jsstring :=
  match l with
  | [] => None
  | (k, v) :: rest => if String.eqb k name then Some v else lookup name rest
  end.

Definition get (raw : RawRecord) (name : string) : option jsstring :=
  lookup name (props raw).

(** [a || b] where both can be [undefined]. *)
Definition either (a b : option jsstring) : option jsstring :=
  if optTruthy a then a else b.

(** A value inside a template literal. *)
Definition interpolate (a : option jsstring) : jsstring :=
  match a with
  | Some s => s
  | None => lit "undefined"
  end.

Section WithPlatform.
Variable P : Platform.

Definition createArticleId (source : jsstring) (url title : option jsstring)
  : jsstring :=
  let hashInput :=
    source ++ lit ":" ++ interpolate url ++ lit ":" ++ interpolate title in
  let hash := substring0 8 (md5Hex P hashInput) in
  source ++ lit "-" ++ hash.

Definition isContributor (tag : Tag) : bool :=
  match tagType tag with
  | Some t => str_eqb t (lit "contributor")
  | None => false
  end.

Definition normalizeGuardian (raw : RawRecord) : NormalizedArticle :=
  {| id := createArticleId (lit "guardian")
             (either (get raw "webUrl") (get raw "id")) (get raw "webTitle");
     source := lit "guardian";
     title := optOr (get raw "webTitle") (lit "No title");
     description :=
       optOr (get raw "fields.trailText")
             (optOr (option_map (substring0 200) (get raw "fields.bodyText")) []);
     content :=
       optOr (get raw "fields.bodyText") (optOr (get raw "fields.trailText") []);
     url := optOr (get raw "webUrl") [];
     imageUrl := optOr (get raw "fields.thumbnail") [];
     publishedAt := optOr (get raw "webPublicationDate") [];
     author :=
       optOr (match tags raw with
              | Some ts =>
                  match find isContributor ts with
                  | Some tag => tagWebTitle tag
                  | None => None
                  end
              | None => None
              end) [];
     language := lit "en" |}.

Definition normalizeGdelt (raw : RawRecord) : NormalizedArticle :=
  let url :=
    optOr (get raw "url")
      (optOr (get raw "shareurl")
         (optOr (get raw "articleurl") (optOr (get raw "articleURL") []))) in
  let title :=
    optOr (get raw "title")
      (optOr (get raw "seotitle")
         (optOr (get raw "seoTitle") (lit "No title"))) in
  let description :=
    optOr (get raw "seodescription")
      (optOr (get raw "seoDescription")
         (optOr (get raw "snippet") (optOr (get raw "description") []))) in
  let content :=
    optOr (get raw "snippet")
      (optOr (get raw "body") (orElse description [])) in
  let publishedAt :=
    optOr (get raw "seendate")
      (optOr (get raw "seenDate")
         (optOr (get raw "date")
            (optOr (get raw "time")
               (optOr (get raw "publishedAt")
                  (optOr (get raw "published") []))))) in
  {| id := createArticleId (lit "gdelt") (Some url) (Some title);
     source := lit "gdelt";
     title := title;
     description := description;
     content := content;
     url := url;
     imageUrl :=
       optOr (get raw "imageurl")
         (optOr (get raw "imageURL") (optOr (get raw "image") []));
     publishedAt := publishedAt;
     author :=
       optOr (get raw "source")
         (optOr (get raw "sourceName") (optOr (get raw "author") []));
     language := optOr (get raw "language") (lit "en") |}.

Definition normalizeCurrents (raw : RawRecord) : NormalizedArticle :=
  {| id := createArticleId (lit "currents")
             (Some (optOr (get raw "url") [])) (get raw "title");
     source := lit "currents";
     title := optOr (get raw "title") (lit "No title");
     description := optOr (get raw "description") [];
     content := optOr (get raw "description") (optOr (get raw "content") []);
     url := optOr (get raw "url") [];
     imageUrl := optOr (get raw "image") [];
     publishedAt := optOr (get raw "published") [];
     author := optOr (get raw "author") [];
     language := optOr (get raw "language") (lit "en") |}.

(** [normalizers[source]] *)
Definition normalizerFor (source : jsstring)
  : option (RawRecord -> NormalizedArticle) :=
  if str_eqb source (lit "guardian") then Some normalizeGuardian
  else if str_eqb source (lit "gdelt") then Some normalizeGdelt
  else if str_eqb source (lit "currents") then Some normalizeCurrents
  else None.

Definition hasUrl (article : RawRecord) : bool :=
  optTruthy (get article "webUrl") || optTruthy (get article "url")
  || optTruthy (get article "articleurl") || optTruthy (get article "shareurl").

Definition hasTitle (article : RawRecord) : bool :=
  optTruthy (get article "webTitle") || optTruthy (get article "title")
  || optTruthy (get article "seotitle").

Definition normalizeArticles (articles : list RawRecord) (source : jsstring)
  : list NormalizedArticle :=
  match normalizerFor source with
  | None => []
  | Some normalizer =>
      let filtered :=
        filter (fun article => hasUrl article && hasTitle article) articles in
      filter (fun article => truthy (url article) && truthy (title article))
             (map normalizer filtered)
  end.

End WithPlatform.

End Normalize.

(** ** The aggregation route ([routes/newsAggregate.js]) *)

Module Aggregate.
Import Grouper.

Local Open Scope string_scope.
Local Open Scope nat_scope.
Local Open Scope list_scope.

(** *** Group filter *)

(** [[...new Set(group.articles.map(a => a.source))]] *)
Definition uniqueSources (group : ArticleGroup) : list jsstring :=
  mkSet (map source (articles group)).

Definition keepGroup (group : ArticleGroup) : bool :=
  if length (uniqueSources group) <? 2 then false
  else if 1 <? length (articles group) then
    let normalizedTitles :=
      map (fun a => trim (toLowerCase (orElse (title a) []))) (articles group) in
    let firstTitle := hd [] normalizedTitles in
    let allIdentical :=
      forallb (fun title => str_eqb title firstTitle && (0 <? length title))
              normalizedTitles in
    if allIdentical then false else true
  else true.

Definition filterGroups (groups : list ArticleGroup) : list ArticleGroup :=
  filter keepGroup groups.

(** *** Ranking by most recent publication date *)

Section WithPlatform.
Variable P : Platform.

(** [article.publishedAt ? new Date(article.publishedAt).getTime() : 0],
    kept when it is a number above zero. *)
Definition articleTime (article : NormalizedArticle) : option Z :=
  let time :=
    if truthy (publishedAt article) then dateParse P (publishedAt article)
    else Some 0%Z in
  match time with
  | Some d => if (0 <? d)%Z then Some d else None
  | None => None
  end.

Fixpoint somes (l : list (option Z)) : list Z :=
  match l with
  | [] => []
  | Some d :: rest => d :: somes rest
  | None :: rest => somes rest
  end.

Definition getLatestDate (group : ArticleGroup) : Z :=
  let dates := somes (map articleTime (articles group)) in
  match dates with
  | [] => 0%Z
  | d :: rest => fold_left Z.max rest d
  end.

Definition byLatestDate (a b : ArticleGroup) : Z :=
  (getLatestDate b - getLatestDate a)%Z.

Definition rankGroups (groups : list ArticleGroup) : list ArticleGroup :=
  Js.sort byLatestDate groups.

End WithPlatform.

(** *** Synthesis of each group *)

Record SummarizedGroup : Type := {
  groupId : jsstring;
  groupTitle : jsstring;
  summary : jsstring;
  detailedComparison : jsstring;
  simpleComparison : jsstring;
  differences : list jsstring;
  articles : list NormalizedArticle
}.

(** The entry pushed for a fulfilled summary.  The promise of
    [summarizeArticleGroup] always fulfils for well-formed groups, and the
    batches of three are pushed in the order of the groups. *)
Definition summarized (svc : Summarizer.Service) (group : ArticleGroup)
  : SummarizedGroup :=
  let value := Summarizer.summarizeArticleGroup svc (Summarizer.ofArticleGroup group) in
  let summary :=
    orElse (Summarizer.summary value) (lit "Summary not available.") in
  let groupTitle :=
    if Summarizer.isGeneric (Some (Summarizer.groupTitle value))
    then Summarizer.generateNeutralTitle
           (Summarizer.firstTitle (Grouper.articles group))
           (Summarizer.firstDescription (Grouper.articles group))
           (Some summary)
    else Summarizer.groupTitle value in
  {| groupId := Summarizer.summaryGroupId value;
     groupTitle := groupTitle;
     summary := summary;
     detailedComparison :=
       orElse (Summarizer.detailedComparison value)
         (orElse (join (lit " ") (Summarizer.differences value))
                 (lit "Comparison not available."));
     simpleComparison :=
       orElse (Summarizer.simpleComparison value)
         (optOr (hd_error (Summarizer.differences value))
                (lit "Articles differ in their focus and emphasis."));
     differences := Summarizer.differences value;
     articles := Grouper.articles group |}.

(** *** Pagination *)

Definition GROUPS_PER_PAGE : Z := 9.

Record Pagination : Type := {
  currentPage : jsint;
  totalPages : Z;
  totalGroups : nat;
  groupsPerPage : Z
}.

(** [page ? parseInt(page, 10) : 1] *)
Definition pageNumOf (page : option jsstring) : jsint :=
  if optTruthy page then parseInt (optOr page []) else Int 1.

(** [Math.ceil(n / groupsPerPage)] *)
Definition ceilDiv (n : nat) (d : Z) : Z :=
  Qceiling (Qmake (Z.of_nat n) 1 / Qmake d 1).

Section Paginate.
Variable T : Type.

(** The two defensive re-checks after the slice. *)
Definition enforceLimit (finalGroups : list T) : list T :=
  if (GROUPS_PER_PAGE <? Z.of_nat (length finalGroups))%Z
  then sliceArr finalGroups (Int 0) (Int GROUPS_PER_PAGE)
  else finalGroups.

Definition paginate (summarizedGroups : list T) (pageNum : jsint)
  : list T * Pagination :=
  let totalGroups := length summarizedGroups in
  let groupsPerPage := GROUPS_PER_PAGE in
  let totalPages := Z.max 1 (ceilDiv (length summarizedGroups) groupsPerPage) in
  let currentPage := mathMax (Int 1) (mathMin pageNum (Int totalPages)) in
  let startIndex := jsMul (jsSub currentPage (Int 1)) (Int groupsPerPage) in
  let endIndex := jsAdd startIndex (Int groupsPerPage) in
  let finalGroups := sliceArr summarizedGroups startIndex endIndex in
  (enforceLimit (enforceLimit finalGroups),
   {| currentPage := currentPage;
      totalPages := totalPages;
      totalGroups := totalGroups;
      groupsPerPage := GROUPS_PER_PAGE |}).

End Paginate.

(** *** The response *)

Record Response : Type := {
  groups : list SummarizedGroup;
  pagination : option Pagination
}.

Section Route.
Variable P : Platform.
Variable svc : Summarizer.Service.

(** The route from the raw records of the three providers to the response
    body; [None] is the error response (an exception reached the handler's
    [catch]).  The echo of the query and the warnings are left out. *)
Definition aggregate (guardianArticles gdeltArticles currentsArticles
                        : list Normalize.RawRecord)
  (page : option jsstring) : option Response :=
  let pageNum := pageNumOf page in
  let allArticles :=
    Normalize.normalizeArticles P guardianArticles (lit "guardian")
    ++ Normalize.normalizeArticles P gdeltArticles (lit "gdelt")
    ++ Normalize.normalizeArticles P currentsArticles (lit "currents") in
  match allArticles with
  | [] => Some {| groups := []; pagination := None |}
  | _ =>
      match groupSimilarArticles P allArticles (3 # 10)%Q with
      | None => None
      | Some groups =>
          let filteredGroups := rankGroups P (filterGroups groups) in
          let summarizedGroups := map (summarized svc) filteredGroups in
          let (finalGroups, pagination) := paginate summarizedGroups pageNum in
          Some {| groups := finalGroups; pagination := Some pagination |}
      end
  end.

End Route.

End Aggregate.

(** ** The query sent to GDELT

    [services/gdeltClient.js]: the [query] parameter of the request that
    [fetchGdeltArticles] builds from the search term, the country and the
    category.  A parameter that is not given is [None]. *)

Module Gdelt.

Local Open Scope string_scope.
Local Open Scope nat_scope.
Local Open Scope list_scope.

Definition star : jsstring := lit "*".

(** [params.query] once both [if] blocks have run. *)
Definition gdeltQuery (query country category : option jsstring) : jsstring :=
  let query0 := optOr query star in
  let query1 :=
    if optTruthy country then
      let countryCode := toUpperCase (optOr country []) in
      if str_eqb query0 star
      then lit "sourcecountry:" ++ countryCode
      else query0 ++ lit " sourcecountry:" ++ countryCode
    else query0 in
  if optTruthy category && negb (str_eqb (optOr category []) star) then
    if str_eqb query1 star
    then optOr category []
    else query1 ++ lit " " ++ optOr category []
  else query1.

End Gdelt.

(** ** The response cache of the server

    [server.js]: the [Map] from request keys to timed entries, with its
    helpers [getFromCache] and [setCache].  The map is a list of bindings
    in order of insertion, with one binding per key; the clock reading
    [Date.now()] is an argument, and the cache after the call is part of
    the result. *)

Module Cache.

Local Open Scope string_scope.
Local Open Scope nat_scope.
Local Open Scope list_scope.

Definition CACHE_TTL : Z := 60 * 1000.

Section WithData.
Variable D : Type.

Record Entry : Type := {
  data : D;
  timestamp : Z
}.

Definition Store : Type := list (jsstring * Entry).

(** [cache.get(key)] *)
Fixpoint get (key : jsstring) (cache : Store) : option Entry :=
  match cache with
  | [] => None
  | (k, v) :: rest => if str_eqb k key then Some v else get key rest
  end.

(** [cache.set(key, value)]: a key that is there keeps its place. *)
Fixpoint set (key : jsstring) (value : Entry) (cache : Store) : Store :=
  match cache with
  | [] => [(key, value)]
  | (k, v) :: rest =>
      if str_eqb k key then (k, value) :: rest
      else (k, v) :: set key value rest
  end.

(** [cache.delete(key)] *)
Fixpoint delete (key : jsstring) (cache : Store) : Store :=
  match cache with
  | [] => []
  | (k, v) :: rest =>
      if str_eqb k key then rest else (k, v) :: delete key rest
  end.

Definition getFromCache (now : Z) (key : jsstring) (cache : Store)
  : option D * Store :=
  match get key cache with
  | Some cached =>
      if (now - timestamp cached <? CACHE_TTL)%Z
      then (Some (data cached), cache)
      else (None, delete key cache)
  | None => (None, cache)
  end.

Definition setCache (now : Z) (key : jsstring) (d : D) (cache : Store)
  : Store :=
  set key {| data := d; timestamp := now |} cache.

End WithData.

End Cache.

(** ** The handler's reading of [query] and [category]

    [routes/newsAggregate.js], lines 22-25.  The query parser gives a string
    for a parameter that occurs once, and an array or an object for one that
    is repeated or written with brackets.  The handler calls [trim] on
    [query] and on [category] when they are truthy; on a value that is not a
    string the call throws, the exception reaches the [catch] of the
    handler, and the response is the error response. *)

Module Handler.



Section WithPlatform.
Variable P : Platform.
Variable svc : Summarizer.Service.


End WithPlatform.

End Handler.

(** ** Sample data

    A platform and a few articles on which the functions above are run.
    The host-name reader takes the text between [://] and the next [/]; it
    agrees with [new URL(...).hostname] on the URLs used here.  The sample
    articles carry no publication date, as a provider record without one
    normalizes to, so the date parser is not consulted on them. *)

Module Examples.

Local Open Scope string_scope.
Local Open Scope nat_scope.
Local Open Scope list_scope.

Fixpoint afterScheme (s : jsstring) : option jsstring :=
  match s with
  | [] => None
  | _ :: s' => if isPrefix (lit "://") s then Some (skipn 3 s) else afterScheme s'
  end.

Definition hostOf (s : jsstring) : option jsstring :=
  match afterScheme s with
  | Some rest =>
      match takeWhile (fun c => negb (code c =? 47)) rest with
      | [] => None
      | host => Some host
      end
  | None => None
  end.

Definition platform : Platform :=
  {| dateParse := fun _ => None;
     urlHostname := hostOf;
     md5Hex := fun _ => lit "d41d8cd98f00b204e9800998ecf8427e" |}.

Definition article (src link headline : string) : NormalizedArticle :=
  {| id := lit src ++ lit "-d41d8cd9";
     source := lit src;
     title := lit headline;
     description := [];
     content := [];
     url := lit link;
     imageUrl := [];
     publishedAt := [];
     author := [];
     language := lit "en" |}.

(** Four articles whose clustering depends on the threshold. *)
Definition flood1 : NormalizedArticle :=
  article "guardian" "https://www.theguardian.com/world/1"
          "River flood warning tonight".
Definition flood2 : NormalizedArticle :=
  article "gdelt" "https://news.example.org/2"
          "River flood forces coastal village evacuation warning tonight".
Definition flood3 : NormalizedArticle :=
  article "currents" "https://daily.example.com/3"
          "River flood forces coastal village".
Definition flood4 : NormalizedArticle :=
  article "gdelt" "https://post.example.net/4"
          "Coastal village evacuation warning tonight".

(** An article as close to [flood3] as to [flood4]. *)
Definition flood5 : NormalizedArticle :=
  article "guardian" "https://www.theguardian.com/world/9"
          "Forces coastal village evacuation".

Definition flood3Group : Grouper.ArticleGroup :=
  {| Grouper.groupId := lit "group-1"; Grouper.articles := [flood3] |}.
Definition flood4Group : Grouper.ArticleGroup :=
  {| Grouper.groupId := lit "group-2"; Grouper.articles := [flood4] |}.

(** Three articles with no key term in common. *)
Definition budget : NormalizedArticle :=
  article "guardian" "https://www.theguardian.com/politics/5"
          "Parliament passes budget".
Definition comet : NormalizedArticle :=
  article "gdelt" "https://news.example.org/6"
          "Astronomers track bright comet".
Definition derby : NormalizedArticle :=
  article "currents" "https://daily.example.com/7"
          "Rivals draw after thrilling derby".

Definition budgetGroup : Grouper.ArticleGroup :=
  {| Grouper.groupId := lit "group-1"; Grouper.articles := [budget] |}.
Definition cometGroup : Grouper.ArticleGroup :=
  {| Grouper.groupId := lit "group-2"; Grouper.articles := [comet] |}.
Definition derbyGroup : Grouper.ArticleGroup :=
  {| Grouper.groupId := lit "group-3"; Grouper.articles := [derby] |}.

(** A group covered by two sources and a group covered by one. *)
Definition twoSources : Grouper.ArticleGroup :=
  {| Grouper.groupId := lit "group-1"; Grouper.articles := [flood1; flood2] |}.
Definition oneSource : Grouper.ArticleGroup :=
  {| Grouper.groupId := lit "group-2"; Grouper.articles := [flood2; flood4] |}.

(** Raw records of the Guardian: one complete, one without any title. *)
Definition rawComplete : Normalize.RawRecord :=
  {| Normalize.props :=
       [("webUrl", lit "https://www.theguardian.com/world/1");
        ("webTitle", lit "River flood warning tonight")];
     Normalize.tags := None |}.

(** A summary that opens with a generic phrase. *)
Definition catSummary : jsstring :=
  lit "News story about a very large cat found in a tree".

(** A service with no key configured. *)
Definition offline : Summarizer.Service :=
  {| Summarizer.hasApiKey := false; Summarizer.complete := fun _ => None |}.

Definition emptyGroup : Summarizer.Group :=
  {| Summarizer.groupId := lit "group-1"; Summarizer.articles := Some [] |}.

End Examples.

(** ** Vocabulary of the properties *)

Module Vocabulary.
Import Grouper.

(** The sizes of the groups. *)
Definition sizes (groups : list ArticleGroup) : list nat :=
  map (fun g => length (articles g)) groups.

(** All the articles of the groups, group after group. *)
Definition pool (groups : list ArticleGroup) : list NormalizedArticle :=
  concat (map articles groups).

(** A group has a representative. *)
Definition nonempty (g : ArticleGroup) : Prop := articles g <> [].

(** [x] ends with [s']. *)
Definition suffixOf (s' x : jsstring) : Prop := exists pre, x = pre ++ s'.

(** Every branch of the pattern ends with the end anchor. *)
Fixpoint endsWithEos (r : Regex.regex) : bool :=
  match r with
  | Regex.REos => true
  | Regex.RSeq _ r2 => endsWithEos r2
  | Regex.RAlt r1 r2 => endsWithEos r1 && endsWithEos r2
  | _ => false
  end.

(** [r] is a contiguous part of [x]. *)
Definition infixOf (r x : jsstring) : Prop :=
  exists pre post, x = pre ++ r ++ post.

(** [r] is a contiguous part of [x], up to the case of letters. *)
Definition extractedFrom (r x : jsstring) : Prop :=
  infixOf (toLowerCase r) (toLowerCase x).

End Vocabulary.

(** ** Notions used by the further properties *)

Module Notions.
Import Grouper.

(** The list is in descending order of [key]. *)
Definition descendingBy (T : Type) (key : T -> Z) (l : list T) : Prop :=
  Sorted.StronglySorted (fun a b => (key b <= key a)%Z) l.

(** The elements of the list whose key is [k], in their order. *)
Definition withKey (T : Type) (key : T -> Z) (k : Z) (l : list T) : list T :=
  filter (fun x => (key x =? k)%Z) l.

Definition groupSize (g : ArticleGroup) : Z := Z.of_nat (length (articles g)).

(** The identifiers [group-1], ..., [group-k]. *)
Definition groupIds (k : nat) : list jsstring :=
  map (fun i => lit "group-" ++ ofNat i) (seq 1 k).

(** The article clears both gates of the inner loop against [rep]. *)
Definition joins (P : Platform) (thr : Q) (a rep : NormalizedArticle) : Prop :=
  (thr <= Similarity.calculateSimilarity P a rep)%Q
  /\ (0 < Similarity.calculateSimilarity P a rep)%Q.

(** Every member of the group after the first joins the first. *)
Definition cohesive (P : Platform) (thr : Q) (g : ArticleGroup) : Prop :=
  match articles g with
  | [] => False
  | rep :: members => Forall (fun a => joins P thr a rep) members
  end.

(** The representative of a group: its first article. *)
Definition repOf (g : ArticleGroup) : option NormalizedArticle :=
  hd_error (articles g).

(** Two representatives neither of which joins the other. *)
Definition strangers (P : Platform) (thr : Q)
  (r1 r2 : option NormalizedArticle) : Prop :=
  forall a b, r1 = Some a -> r2 = Some b ->
              ~ joins P thr b a /\ ~ joins P thr a b.

(** One group per article, numbered from [i + 1]. *)
Fixpoint singletonsFrom (i : nat) (arts : list NormalizedArticle)
  : list ArticleGroup :=
  match arts with
  | [] => []
  | a :: rest =>
      {| groupId := lit "group-" ++ ofNat (i + 1); articles := [a] |}
      :: singletonsFrom (S i) rest
  end.

(** The title as the group filter compares it. *)
Definition comparedTitle (a : NormalizedArticle) : jsstring :=
  trim (toLowerCase (orElse (title a) [])).

(** All the articles carry one and the same non-empty compared title. *)
Definition sameTitle (g : ArticleGroup) : Prop :=
  exists t, t <> [] /\ forall a, In a (articles g) -> comparedTitle a = t.

(** The pages 1 to [n] of a list, one after the other. *)
Definition pagesUpTo (T : Type) (l : list T) (n : nat) : list T :=
  concat (map (fun p => fst (Aggregate.paginate l (Int (Z.of_nat p))))
              (seq 1 n)).




(** One entry of [differences] in the summary built without the service. *)
Definition differenceRow (row : jsstring * nat * jsstring) : jsstring :=
  let '(src, count, firstTitle) := row in
  src ++ lit ": " ++ ofNat count ++ lit " article(s) - " ++ firstTitle.

(** The words that [extractKeyTerms] counts. *)
Definition wordsOf (text : jsstring) : list jsstring :=
  filter (fun word => 3 <? length word)
         (splitWs (Similarity.normalizeText text)).

(** How often the word occurs among the words. *)
Definition frequency (words : list jsstring) (word : jsstring) : nat :=
  count_occ str_eq_dec words word.

(** No counted word names a property that the counting object inherits. *)
Definition plainWords (text : jsstring) : bool :=
  forallb (fun word => negb (str_eqb word (lit "constructor"))
                       && negb (str_eqb word (lit "__proto__")))
          (wordsOf text).

(** The count that the counting object holds for the word. *)
Definition countOf (word : jsstring) (wordCounts : list (jsstring * nat))
  : nat :=
  match find (fun e => str_eqb (fst e) word) wordCounts with
  | Some e => snd e
  | None => 0
  end.

(** A lower-case letter, a digit or an underscore. *)
Definition isTermChar (c : ascii) : bool :=
  isLower c || isDigit c || (code c =? 95).

(** A character of normalized text. *)
Definition textChar (c : ascii) : Prop :=
  c = Similarity.space \/ isTermChar c = true.

(** White space occurs as the space character only, never twice in a row
    and, unless [afterSpace] is unset, not at the start. *)
Fixpoint singleSpaced (afterSpace : bool) (s : jsstring) : bool :=
  match s with
  | [] => true
  | c :: s' =>
      if isSpace c
      then negb afterSpace
           && (if ascii_dec c Similarity.space then true else false)
           && singleSpaced true s'
      else singleSpaced false s'
  end.

(** The parts of the GDELT query: the search term unless it is missing,
    empty or [*], the country filter when a country is given, the category
    unless it is missing, empty or [*]. *)
Definition gdeltParts (query country category : option jsstring)
  : list jsstring :=
  (if optTruthy query && negb (str_eqb (optOr query []) Gdelt.star)
   then [optOr query []] else [])
  ++ (if optTruthy country
      then [lit "sourcecountry:" ++ toUpperCase (optOr country [])] else [])
  ++ (if optTruthy category && negb (str_eqb (optOr category []) Gdelt.star)
      then [optOr category []] else []).

(** Text in which every character is an ASCII character.  On such text
    the case maps of the embedding are those of JavaScript. *)
Definition isAscii (s : jsstring) : bool :=
  forallb (fun c => code c <? 128) s.

Definition optAscii (a : option jsstring) : bool :=
  match a with
  | Some s => isAscii s
  | None => true
  end.

(** The titles of the group's articles are ASCII text. *)
Definition asciiTitles (g : ArticleGroup) : bool :=
  forallb (fun a => isAscii (title a)) (articles g).



(** One of the three sources that the route passes to [normalizeArticles]. *)
Definition knownSource (source : jsstring) : bool :=
  str_eqb source (lit "guardian") || str_eqb source (lit "gdelt")
  || str_eqb source (lit "currents").


(** A contiguous part of the text is a title of the form [story N]. *)
Definition containsStoryNumber (text : jsstring) : Prop :=
  exists part,
    Vocabulary.infixOf part text /\ Summarizer.isStoryNumber part = true.

(** The classes of the pattern do not tell the case of a letter. *)
Fixpoint caseBlind (r : Regex.regex) : Prop :=
  match r with
  | Regex.RClass p => forall c, p (lowerChar c) = p c
  | Regex.RLit _ => True
  | Regex.RSeq r1 r2 => caseBlind r1 /\ caseBlind r2
  | Regex.RAlt r1 r2 => caseBlind r1 /\ caseBlind r2
  | Regex.RRep p _ _ => forall c, p (lowerChar c) = p c
  | Regex.REos => True
  end.

(** The keys of a cache are pairwise different. *)
Definition uniqueKeys (D : Type) (cache : Cache.Store D) : Prop :=
  NoDup (map fst cache).

End Notions.

(** ** Further sample data *)

Module Samples.

Local Open Scope string_scope.
Local Open Scope nat_scope.
Local Open Scope list_scope.

(** A headline in which [river] occurs three times and [flood] twice. *)
Definition headline : jsstring :=
  lit "River flood warning: river flood hits the river town".

(** A title that is a story number followed by the name of a source, and
    a summary too short for the summary branch. *)
Definition storyTitle : jsstring := lit "Story 4567890123 - BBC News".
Definition shortSummary : jsstring := lit "short".

(** A record handed to the Guardian normalizer whose title sits under
    [title], the field of another provider. *)
Definition rawMistitled : Normalize.RawRecord :=
  {| Normalize.props :=
       [("webUrl", lit "https://www.theguardian.com/world/2");
        ("title", lit "Storm closes the coast road")];
     Normalize.tags := None |}.

(** A description of 40 characters. *)
Definition longDescription : jsstring :=
  lit "Heavy rain has flooded the coastal road.".

(** Two articles whose titles have no word longer than three characters. *)
Definition terse1 : NormalizedArticle :=
  Examples.article "guardian" "https://www.theguardian.com/world/3" "Up we go".
Definition terse2 : NormalizedArticle :=
  Examples.article "gdelt" "https://news.example.org/4" "Oil is up".

(** A cache with one response, written at time 0. *)
Definition cached : Cache.Store nat :=
  [(lit "https://content.guardianapis.com/search?q=flood",
    {| Cache.data := 7; Cache.timestamp := 0%Z |})].

End Samples.

(** * Properties *)

(** ** Facts about the string and array primitives *)

Module JsFacts.

Section SortFacts.
Variable T : Type.
Variable cmp : T -> T -> Z.

Lemma insertSorted_perm (x : T) (l : list T) :
  Permutation (Js.insertSorted cmp x l) (x :: l).
Proof.
  induction l as [|y l IH]; simpl; [reflexivity|].
  destruct (cmp x y <=? 0)%Z; [reflexivity|].
  rewrite IH. apply perm_swap.
Qed.

Lemma sort_perm (l : list T) : Permutation (Js.sort cmp l) l.
Proof.
  induction l as [|x l IH]; simpl; [reflexivity|].
  rewrite insertSorted_perm. now constructor.
Qed.

Lemma sort_length (l : list T) : length (Js.sort cmp l) = length l.
Proof. apply Permutation_length, sort_perm. Qed.
End SortFacts.

Lemma str_eqb_true (a b : jsstring) : str_eqb a b = true <-> a = b.
Proof. unfold str_eqb. destruct (str_eq_dec a b); split; congruence. Qed.

Lemma str_eqb_refl (a : jsstring) : str_eqb a a = true.
Proof. now apply str_eqb_true. Qed.

Lemma has_In (set : list jsstring) (x : jsstring) :
  has set x = true <-> In x set.
Proof.
  unfold has. rewrite existsb_exists. split.
  - intros [y [Hy He]]. apply str_eqb_true in He. now subst.
  - intros H. exists x. split; [assumption | apply str_eqb_refl].
Qed.

(** [new Set] keeps exactly the elements of the array, once each. *)
Lemma dedupeInto_spec (l seen : list jsstring) :
  NoDup seen ->
  NoDup (dedupeInto seen l)
  /\ (forall x, In x (dedupeInto seen l) <-> In x seen \/ In x l).
Proof.
  revert seen. induction l as [|y l IH]; intros seen Hnd; simpl.
  - split.
    + now apply NoDup_rev.
    + intros x. rewrite <- in_rev. tauto.
  - destruct (existsb (str_eqb y) seen) eqn:E.
    + destruct (IH seen Hnd) as [H1 H2]. split; [assumption|].
      intros x. rewrite H2. apply (has_In seen y) in E.
      split; [tauto|]. intros [H|[H|H]]; subst; tauto.
    + assert (Hy : ~ In y seen).
      { intros Hin. apply (has_In seen y) in Hin. unfold has in Hin. congruence. }
      destruct (IH (y :: seen)) as [H1 H2]; [now constructor|].
      split; [assumption|].
      intros x. rewrite H2. simpl. tauto.
Qed.

Lemma mkSet_NoDup (l : list jsstring) : NoDup (mkSet l).
Proof. apply dedupeInto_spec. constructor. Qed.

Lemma mkSet_In (l : list jsstring) (x : jsstring) : In x (mkSet l) <-> In x l.
Proof.
  unfold mkSet. destruct (dedupeInto_spec l (seen := [])) as [_ H]; [constructor|].
  rewrite H. simpl. tauto.
Qed.

Lemma mkSet_nil_inv (l : list jsstring) : mkSet l = [] -> l = [].
Proof.
  intros H. destruct l as [|x l]; [reflexivity|].
  assert (Hin : In x (mkSet (x :: l))) by (apply mkSet_In; now left).
  rewrite H in Hin. destruct Hin.
Qed.

(** Two duplicate-free lists with the same elements have the same size. *)
Lemma same_elements_length (l1 l2 : list jsstring) :
  NoDup l1 -> NoDup l2 -> (forall x, In x l1 <-> In x l2) ->
  length l1 = length l2.
Proof.
  intros H1 H2 H. apply Nat.le_antisymm.
  - apply NoDup_incl_length; [assumption|]. intros x. apply H.
  - apply NoDup_incl_length; [assumption|]. intros x. apply H.
Qed.

Lemma firstn_skipn_length (T : Type) (l : list T) (k m : nat) :
  length (firstn m (skipn k l)) <= m.
Proof. rewrite length_firstn. lia. Qed.

End JsFacts.

(** ** Pagination *)

Module PaginationFacts.
Import Aggregate.

Lemma ceilDiv_9 (n : nat) :
  ceilDiv n GROUPS_PER_PAGE = ((Z.of_nat n + 8) / 9)%Z.
Proof.
  unfold ceilDiv, GROUPS_PER_PAGE, Qceiling, Qfloor, Qdiv, Qinv, Qmult, Qopp.
  simpl. rewrite Z.mul_1_r.
  pose proof (Z.div_mod (- Z.of_nat n) 9) as H1.
  pose proof (Z.mod_pos_bound (- Z.of_nat n) 9) as H2.
  pose proof (Z.div_mod (Z.of_nat n + 8) 9) as H3.
  pose proof (Z.mod_pos_bound (Z.of_nat n + 8) 9) as H4.
  lia.
Qed.

(** [totalPages] is the least number of pages, at least one, that holds
    all the groups. *)
Lemma totalPages_least (n : nat) :
  let tp := Z.max 1 (ceilDiv n GROUPS_PER_PAGE) in
  (1 <= tp /\ Z.of_nat n <= 9 * tp /\ (tp = 1 \/ 9 * (tp - 1) < Z.of_nat n))%Z.
Proof.
  cbv zeta. rewrite ceilDiv_9.
  pose proof (Z.div_mod (Z.of_nat n + 8) 9) as H3.
  pose proof (Z.mod_pos_bound (Z.of_nat n + 8) 9) as H4.
  lia.
Qed.

Section Slices.
Variable T : Type.

Lemma sliceArr_window (l : list T) (k : Z) :
  (0 <= k)%Z ->
  sliceArr l (Int k) (Int (k + 9)) = firstn 9 (skipn (Z.to_nat k) l).
Proof.
  intros Hk. unfold sliceArr, toInteger.
  destruct (Z.ltb_spec k 0); [lia|].
  destruct (Z.ltb_spec (k + 9) 0); [lia|].
  set (n := Z.of_nat (length l)).
  destruct (Z.le_gt_cases n k) as [Hge|Hlt].
  - (* the window starts past the end *)
    rewrite (Z.min_r k n) by lia. rewrite (Z.min_r (k + 9) n) by lia.
    rewrite Z.sub_diag. simpl.
    rewrite skipn_all2 by (subst n; lia).
    reflexivity.
  - rewrite (Z.min_l k n) by lia.
    destruct (Z.le_gt_cases (k + 9) n) as [Hfull|Hshort].
    + rewrite (Z.min_l (k + 9) n) by lia.
      replace (Z.to_nat (Z.max (k + 9 - k) 0)) with 9%nat by lia.
      reflexivity.
    + rewrite (Z.min_r (k + 9) n) by lia.
      rewrite (firstn_all2 (n := 9)) by (rewrite length_skipn; subst n; lia).
      apply firstn_all2. rewrite length_skipn. subst n. lia.
Qed.

Lemma enforceLimit_id (l : list T) :
  length l <= 9 -> enforceLimit l = l.
Proof.
  intros H. unfold enforceLimit, GROUPS_PER_PAGE.
  destruct (Z.ltb_spec 9 (Z.of_nat (length l))); [lia | reflexivity].
Qed.

(** What [paginate] returns for an integer page number. *)
Lemma paginate_int (groups : list T) (page : Z) :
  let tp := Z.max 1 (ceilDiv (length groups) GROUPS_PER_PAGE) in
  let cp := Z.max 1 (Z.min page tp) in
  paginate groups (Int page)
  = (firstn 9 (skipn (Z.to_nat (9 * (cp - 1))) groups),
     {| currentPage := Int cp;
        totalPages := tp;
        totalGroups := length groups;
        groupsPerPage := 9 |}).
Proof.
  cbv zeta. unfold paginate. simpl mathMin. simpl mathMax. simpl jsSub.
  simpl jsMul. simpl jsAdd.
  set (tp := Z.max 1 (ceilDiv (length groups) GROUPS_PER_PAGE)).
  set (cp := Z.max 1 (Z.min page tp)).
  unfold GROUPS_PER_PAGE at 1 2 3.
  rewrite sliceArr_window by lia.
  rewrite (enforceLimit_id (firstn 9 _)) by apply JsFacts.firstn_skipn_length.
  rewrite (enforceLimit_id (firstn 9 _)) by apply JsFacts.firstn_skipn_length.
  replace ((cp - 1) * 9)%Z with (9 * (cp - 1))%Z by lia.
  reflexivity.
Qed.

(** What [paginate] returns when the page number is [NaN]. *)
Lemma paginate_NaN (groups : list T) :
  paginate groups NaN
  = ([],
     {| currentPage := NaN;
        totalPages := Z.max 1 (ceilDiv (length groups) GROUPS_PER_PAGE);
        totalGroups := length groups;
        groupsPerPage := 9 |}).
Proof.
  unfold paginate. simpl mathMin. simpl mathMax. simpl jsSub. simpl jsMul.
  simpl jsAdd. unfold sliceArr. simpl toInteger.
  destruct (Z.ltb_spec 0 0); [lia|].
  rewrite Z.min_l by lia. simpl.
  reflexivity.
Qed.

End Slices.

(** C8. For every list of groups and every integer page number, the
    returned page has at most 9 items, [totalPages] is
    [max(1, ceil(totalGroups / 9))] (the least number of pages, at least
    one, that holds all the groups), [currentPage] is the requested page
    clamped into [[1, totalPages]], and the items are the window of 9 that
    starts at index [9 * (currentPage - 1)].  With 25 groups and page 2 the
    result is the groups at indices 9 to 17, [totalPages = 3] and
    [currentPage = 2]. *)
Theorem pagination_bound_and_clamp (T : Type) (groups : list T) (page : Z) :
  let items := fst (paginate groups (Int page)) in
  let info := snd (paginate groups (Int page)) in
  let n := Z.of_nat (length groups) in
  let tp := totalPages info in
  length items <= 9
  /\ totalGroups info = length groups
  /\ tp = Z.max 1 ((n + 8) / 9)
  /\ (1 <= tp /\ n <= 9 * tp /\ (tp = 1 \/ 9 * (tp - 1) < n))%Z
  /\ (exists cp : Z,
        currentPage info = Int cp
        /\ (1 <= cp <= tp)%Z
        /\ ((1 <= page <= tp)%Z -> cp = page)
        /\ ((page < 1)%Z -> cp = 1%Z)
        /\ ((tp < page)%Z -> cp = tp)
        /\ items = firstn 9 (skipn (Z.to_nat (9 * (cp - 1))) groups))
  /\ (length groups = 25 -> page = 2%Z ->
      items = firstn 9 (skipn 9 groups)
      /\ length items = 9
      /\ tp = 3%Z /\ currentPage info = Int 2).
Proof.
  cbv zeta. rewrite paginate_int.
  cbn [fst snd totalPages totalGroups currentPage].
  pose proof (totalPages_least (length groups)) as Hl. cbv zeta in Hl.
  set (tp := Z.max 1 (ceilDiv (length groups) GROUPS_PER_PAGE)) in *.
  assert (Htp : tp = Z.max 1 ((Z.of_nat (length groups) + 8) / 9)).
  { subst tp. now rewrite ceilDiv_9. }
  split; [apply JsFacts.firstn_skipn_length|].
  split; [reflexivity|].
  split; [exact Htp|].
  split; [exact Hl|].
  split.
  - exists (Z.max 1 (Z.min page tp)). repeat split; lia.
  - intros H25 Hp. subst page.
    assert (H3 : tp = 3%Z) by (rewrite Htp, H25; reflexivity).
    rewrite H3. simpl Z.to_nat.
    change (Pos.to_nat 9) with 9.
    repeat split.
    rewrite length_firstn, length_skipn, H25. reflexivity.
Qed.

Lemma pagination_bound_and_clamp_witness :
  let groups := seq 0 25 in
  fst (paginate groups (Int 2)) = [9; 10; 11; 12; 13; 14; 15; 16; 17]
  /\ totalPages (snd (paginate groups (Int 2))) = 3%Z
  /\ currentPage (snd (paginate groups (Int 2))) = Int 2.
Proof.
  cbv zeta.
  destruct (pagination_bound_and_clamp (seq 0 25) 2)
    as (_ & _ & _ & _ & _ & H).
  destruct H as (H1 & _ & H3 & H4); [reflexivity | reflexivity |].
  rewrite H1. repeat split; assumption.
Defined.

End PaginationFacts.

(** ** The summary of a group without articles *)

Module SummaryFacts.
Import Summarizer.

(** C10. For a group whose [articles] list is empty or missing,
    [summarizeArticleGroup] returns the fixed result: title "News Story",
    summary "No articles to summarize.", both comparisons "No articles
    available for comparison." and no differences.  That title contains the
    generic phrase "news story" of the pattern list, so the check that
    rejects generic titles answers true on it. *)
Theorem zero_articles_fixed_result (svc : Service) (group : Group) :
  articles group = None \/ articles group = Some [] ->
  summarizeArticleGroup svc group
  = {| summaryGroupId := groupId group;
       groupTitle := lit "News Story";
       summary := lit "No articles to summarize.";
       detailedComparison := lit "No articles available for comparison.";
       simpleComparison := lit "No articles available for comparison.";
       differences := [] |}
  /\ In (lit "news story") genericPatterns
  /\ includes (toLowerCase (groupTitle (summarizeArticleGroup svc group)))
              (lit "news story") = true
  /\ matchesGenericPattern (groupTitle (summarizeArticleGroup svc group)) = true
  /\ isGeneric (Some (groupTitle (summarizeArticleGroup svc group))) = true.
Proof.
  intros H.
  assert (E : summarizeArticleGroup svc group = noArticles (groupId group)).
  { unfold summarizeArticleGroup. destruct H as [-> | ->]; reflexivity. }
  rewrite E. unfold noArticles. cbn [groupTitle].
  split; [reflexivity|].
  split; [now left|].
  repeat split; vm_compute; reflexivity.
Qed.

Lemma zero_articles_fixed_result_witness :
  groupTitle (summarizeArticleGroup Examples.offline Examples.emptyGroup)
  = lit "News Story"
  /\ isGeneric
       (Some (groupTitle (summarizeArticleGroup Examples.offline
                                                Examples.emptyGroup))) = true.
Proof.
  destruct (zero_articles_fixed_result Examples.offline Examples.emptyGroup)
    as (H1 & _ & _ & _ & H2).
  - right. reflexivity.
  - rewrite H1 at 1. split; [reflexivity | exact H2].
Defined.

End SummaryFacts.

(** ** The group filter *)

Module FilterFacts.
Import Grouper Aggregate.

Lemma two_distinct_sources (sources : list jsstring) :
  2 <= length (mkSet sources) ->
  exists s1 s2, In s1 sources /\ In s2 sources /\ s1 <> s2.
Proof.
  intros H. pose proof (JsFacts.mkSet_NoDup sources) as Hnd.
  pose proof (JsFacts.mkSet_In sources) as Hin.
  destruct (mkSet sources) as [|s1 [|s2 rest]]; simpl in H; try lia.
  exists s1, s2. repeat split.
  - apply Hin. now left.
  - apply Hin. right. now left.
  - inversion Hnd as [|? ? Hnot _]. subst. intros ->. apply Hnot. now left.
Qed.

Lemma single_source_size (sources : list jsstring) :
  (forall s1 s2, In s1 sources -> In s2 sources -> s1 = s2) ->
  length (mkSet sources) < 2.
Proof.
  intros H. destruct (Nat.lt_ge_cases (length (mkSet sources)) 2) as [|Hge];
    [assumption|].
  destruct (two_distinct_sources sources Hge) as (s1 & s2 & H1 & H2 & Hne).
  exfalso. apply Hne. now apply H.
Qed.

Lemma keepGroup_sources (group : ArticleGroup) :
  keepGroup group = true -> 2 <= length (uniqueSources group).
Proof.
  unfold keepGroup.
  destruct (Nat.ltb_spec (length (uniqueSources group)) 2); [discriminate | auto].
Qed.

(** C7. After the group filter every retained group is one of the input
    groups and has articles from at least 2 distinct sources, and every
    group whose articles all come from one source is dropped. *)
Theorem filter_keeps_only_multi_source (groups : list ArticleGroup) :
  (forall group, In group (filterGroups groups) ->
     In group groups
     /\ 2 <= length (uniqueSources group)
     /\ exists a1 a2,
          In a1 (Grouper.articles group) /\ In a2 (Grouper.articles group)
          /\ source a1 <> source a2)
  /\ (forall group, In group groups ->
        (forall a1 a2, In a1 (Grouper.articles group) -> In a2 (Grouper.articles group) ->
                       source a1 = source a2) ->
        ~ In group (filterGroups groups)).
Proof.
  split.
  - intros group Hin. unfold filterGroups in Hin.
    apply filter_In in Hin. destruct Hin as [Hin Hkeep].
    apply keepGroup_sources in Hkeep.
    split; [assumption|]. split; [assumption|].
    destruct (two_distinct_sources _ Hkeep) as (s1 & s2 & H1 & H2 & Hne).
    apply in_map_iff in H1. destruct H1 as (a1 & <- & Ha1).
    apply in_map_iff in H2. destruct H2 as (a2 & <- & Ha2).
    now exists a1, a2.
  - intros group _ Hsame Hin. unfold filterGroups in Hin.
    apply filter_In in Hin. destruct Hin as [_ Hkeep].
    apply keepGroup_sources in Hkeep.
    assert (Hlt : length (uniqueSources group) < 2).
    { apply single_source_size. intros s1 s2 H1 H2.
      apply in_map_iff in H1. destruct H1 as (a1 & <- & Ha1).
      apply in_map_iff in H2. destruct H2 as (a2 & <- & Ha2).
      now apply Hsame. }
    lia.
Qed.

Lemma filter_keeps_only_multi_source_witness :
  2 <= length (uniqueSources Examples.twoSources)
  /\ ~ In Examples.oneSource
        (filterGroups [Examples.twoSources; Examples.oneSource]).
Proof.
  destruct (filter_keeps_only_multi_source
              [Examples.twoSources; Examples.oneSource]) as [Hkept Hdropped].
  split.
  - apply (Hkept Examples.twoSources). simpl. left. reflexivity.
  - apply Hdropped.
    + right. left. reflexivity.
    + intros a1 a2 [<- | [<- | []]] [<- | [<- | []]]; reflexivity.
Defined.

End FilterFacts.

(** ** Normalization *)

Module NormalizeFacts.
Import Normalize.



End NormalizeFacts.

(** ** Clustering *)

Module GrouperFacts.
Import Grouper Vocabulary.

Lemma pool_length (groups : list ArticleGroup) :
  length (pool groups) = list_sum (sizes groups).
Proof.
  unfold pool, sizes. induction groups as [|g groups IH]; simpl; [reflexivity|].
  rewrite length_app, IH. reflexivity.
Qed.

Lemma concat_perm (T : Type) (l l' : list (list T)) :
  Permutation l l' -> Permutation (concat l) (concat l').
Proof.
  induction 1 as [|x l l' _ IH|x y l|l l' l'' _ IH1 _ IH2]; simpl.
  - reflexivity.
  - now apply Permutation_app_head.
  - rewrite !app_assoc. apply Permutation_app_tail. apply Permutation_app_comm.
  - now transitivity (concat l').
Qed.

Lemma pushArticle_length (b : nat) (a : NormalizedArticle)
  (groups : list ArticleGroup) :
  length (pushArticle b a groups) = length groups.
Proof.
  revert b. induction groups as [|g groups IH]; intros [|b]; simpl; auto.
Qed.

Lemma pushArticle_pool (b : nat) (a : NormalizedArticle)
  (groups : list ArticleGroup) :
  b < length groups ->
  Permutation (pool (pushArticle b a groups)) (pool groups ++ [a]).
Proof.
  unfold pool. revert b.
  induction groups as [|g groups IH]; intros b Hb; simpl in Hb; [lia|].
  destruct b as [|b]; simpl.
  - rewrite <- !app_assoc. apply Permutation_app_head.
    apply Permutation_app_comm.
  - rewrite <- app_assoc. apply Permutation_app_head. apply IH. lia.
Qed.

Lemma pushArticle_nonempty (b : nat) (a : NormalizedArticle)
  (groups : list ArticleGroup) :
  Forall nonempty groups -> Forall nonempty (pushArticle b a groups).
Proof.
  intros H. revert b.
  induction H as [|g groups Hg Hrest IH]; intros [|b]; simpl;
    constructor; auto.
  unfold nonempty. simpl. intros E. apply app_eq_nil in E. destruct E. discriminate.
Qed.

Section WithPlatform.
Variable P : Platform.

Local Abbreviation sim := (Similarity.calculateSimilarity P).

(** The inner loop returns for groups that have a representative, and the
    group it names exists. *)
Lemma scanGroups_some (thr : Q) (a : NormalizedArticle)
  (groups : list ArticleGroup) :
  Forall nonempty groups ->
  forall position best bs,
  exists r,
    scanGroups P thr a groups position best bs = Some r
    /\ (r = best
        \/ exists b, r = Some b /\ position <= b < position + length groups).
Proof.
  induction 1 as [|g groups Hg Hrest IH]; intros position best bs;
    cbn [scanGroups length].
  - exists best. auto.
  - destruct (articles g) as [|rep others] eqn:E; [now elim Hg|].
    match goal with |- context [if ?c then _ else _] => destruct c end.
    + destruct (IH (S position) (Some position) (sim a rep)) as (r & Hr & Hc).
      exists r. split; [assumption|]. right.
      destruct Hc as [-> | (b & -> & Hb)].
      * exists position. split; [reflexivity | lia].
      * exists b. split; [reflexivity | lia].
    + destruct (IH (S position) best bs) as (r & Hr & Hc).
      exists r. split; [assumption|].
      destruct Hc as [-> | (b & -> & Hb)]; [now left|].
      right. exists b. split; [reflexivity | lia].
Qed.

(** Once a group is held, one is held at the end. *)
Lemma scanGroups_keeps_some (thr : Q) (a : NormalizedArticle)
  (groups : list ArticleGroup) :
  forall position b bs,
    scanGroups P thr a groups position (Some b) bs <> Some None.
Proof.
  induction groups as [|g groups IH]; intros position b bs; cbn [scanGroups].
  - discriminate.
  - destruct (articles g) as [|rep others]; [discriminate|].
    match goal with |- context [if ?c then _ else _] => destruct c end;
      apply IH.
Qed.

(** A new group is called for exactly when no representative clears both
    gates: at least the threshold, and above the initial best of zero. *)
Lemma scanGroups_none_iff (thr : Q) (a : NormalizedArticle)
  (groups : list ArticleGroup) :
  Forall nonempty groups ->
  forall position bs,
    scanGroups P thr a groups position None bs = Some None
    <-> Forall (fun g => forall rep, hd_error (articles g) = Some rep ->
                  ~ (thr <= sim a rep /\ bs < sim a rep)%Q) groups.
Proof.
  induction 1 as [|g groups Hg Hrest IH]; intros position bs; cbn [scanGroups].
  - split; [constructor | reflexivity].
  - destruct (articles g) as [|rep others] eqn:E; [now elim Hg|].
    destruct (Qle_bool thr (sim a rep)) eqn:E1;
      destruct (Qle_bool (sim a rep) bs) eqn:E2; cbn [andb negb].
    + rewrite IH. split.
      * intros Hall. constructor; [|assumption].
        rewrite E. cbn [hd_error]. intros r [= <-] [_ Hlt].
        apply Qle_bool_iff in E2. now apply Qle_not_lt in E2.
      * intros Hall. now inversion Hall.
    + split.
      * intros Hs. now apply scanGroups_keeps_some in Hs.
      * intros Hall. inversion Hall as [|? ? Hhead _]. subst.
        exfalso. apply (Hhead rep); [now rewrite E|].
        split; [now apply Qle_bool_iff|].
        apply Qnot_le_lt. intros Hle. apply Qle_bool_iff in Hle. congruence.
    + rewrite IH. split.
      * intros Hall. constructor; [|assumption].
        rewrite E. cbn [hd_error]. intros r [= <-] [Hle _].
        apply Qle_bool_iff in Hle. congruence.
      * intros Hall. now inversion Hall.
    + rewrite IH. split.
      * intros Hall. constructor; [|assumption].
        rewrite E. cbn [hd_error]. intros r [= <-] [Hle _].
        apply Qle_bool_iff in Hle. congruence.
      * intros Hall. now inversion Hall.
Qed.

(** When no later representative beats the best so far, the held group
    stays. *)
Lemma scanGroups_stable (thr : Q) (a : NormalizedArticle)
  (groups : list ArticleGroup) :
  Forall nonempty groups ->
  forall position best bs,
    (forall g rep, In g groups -> hd_error (articles g) = Some rep ->
                   (sim a rep <= bs)%Q) ->
    scanGroups P thr a groups position best bs = Some best.
Proof.
  induction 1 as [|g groups Hg Hrest IH]; intros position best bs Hle; cbn [scanGroups].
  - reflexivity.
  - destruct (articles g) as [|rep others] eqn:E; [now elim Hg|].
    assert (H1 : Qle_bool (sim a rep) bs = true).
    { apply Qle_bool_iff. apply (Hle g); [now left | now rewrite E]. }
    rewrite H1, andb_false_r. apply IH.
    intros g' rep' Hin. apply Hle. now right.
Qed.

(** The group chosen by the inner loop: the earliest one among those whose
    similarity is the highest, provided that similarity is at least the
    threshold and above the best so far. *)
Lemma scanGroups_earliest_best (thr : Q) (a : NormalizedArticle)
  (groups : list ArticleGroup) :
  Forall nonempty groups ->
  forall position best bs j gj rj,
    nth_error groups j = Some gj ->
    hd_error (articles gj) = Some rj ->
    (thr <= sim a rj)%Q ->
    (bs < sim a rj)%Q ->
    (forall k gk rk, nth_error groups k = Some gk ->
                     hd_error (articles gk) = Some rk ->
                     (sim a rk <= sim a rj)%Q) ->
    (forall k gk rk, k < j -> nth_error groups k = Some gk ->
                     hd_error (articles gk) = Some rk ->
                     (sim a rk < sim a rj)%Q) ->
    scanGroups P thr a groups position best bs = Some (Some (position + j)).
Proof.
  induction 1 as [|g groups Hg Hrest IH];
    intros position best bs j gj rj Hj Hrj Hthr Hbs Hmax Hfirst.
  - destruct j; discriminate.
  - cbn [scanGroups]. destruct (articles g) as [|rep others] eqn:E; [now elim Hg|].
    destruct j as [|j].
    + cbn [nth_error] in Hj. injection Hj as <-. rewrite E in Hrj. cbn [hd_error] in Hrj.
      injection Hrj as <-.
      assert (H1 : Qle_bool thr (sim a rep) = true) by now apply Qle_bool_iff.
      assert (H2 : Qle_bool (sim a rep) bs = false).
      { destruct (Qle_bool (sim a rep) bs) eqn:E2; [|reflexivity].
        apply Qle_bool_iff in E2. now apply Qle_not_lt in E2. }
      rewrite H1, H2. cbn [andb negb]. rewrite Nat.add_0_r.
      apply scanGroups_stable; [assumption|].
      intros g' rep' Hin Hrep'.
      apply In_nth_error in Hin. destruct Hin as [k Hk].
      apply (Hmax (S k) g' rep'); assumption.
    + cbn [nth_error] in Hj.
      assert (Hlt : (sim a rep < sim a rj)%Q).
      { apply (Hfirst 0 g rep); [lia | reflexivity | now rewrite E]. }
      replace (position + S j) with (S position + j) by lia.
      match goal with |- context [if ?c then _ else _] => destruct c end;
        apply (IH _ _ _ j gj rj); auto.
      * intros k gk rk. apply (Hmax (S k)).
      * intros k gk rk Hk. apply (Hfirst (S k)). lia.
      * intros k gk rk. apply (Hmax (S k)).
      * intros k gk rk Hk. apply (Hfirst (S k)). lia.
Qed.

(** The outer loop keeps every article it has seen, each in one group. *)
Lemma groupLoop_partition (thr : Q) (arts : list NormalizedArticle) :
  forall i groups used,
    Forall nonempty groups ->
    (forall k, In k used -> k < i) ->
    exists groups' used',
      groupLoop P thr i arts (groups, used) = Some (groups', used')
      /\ Forall nonempty groups'
      /\ Permutation (pool groups') (pool groups ++ arts).
Proof.
  induction arts as [|a arts IH]; intros i groups used Hne Hused; simpl.
  - exists groups, used. rewrite app_nil_r. auto.
  - assert (Hfresh : existsb (Nat.eqb i) used = false).
    { destruct (existsb (Nat.eqb i) used) eqn:E; [|reflexivity].
      apply existsb_exists in E. destruct E as (k & Hk & Heq).
      apply Nat.eqb_eq in Heq. subst k. apply Hused in Hk. lia. }
    rewrite Hfresh.
    assert (Hused' : forall k, In k (i :: used) -> k < S i).
    { intros k [<- | Hk]; [lia|]. apply Hused in Hk. lia. }
    destruct (scanGroups_some thr a Hne 0 None 0%Q) as (r & Hr & Hc).
    rewrite Hr. destruct r as [b|].
    + destruct Hc as [Hc | (b' & [= <-] & Hb)]; [discriminate|].
      destruct (IH (S i) (pushArticle b a groups) (i :: used))
        as (groups' & used' & Hrun & Hne' & Hperm); auto.
      { now apply pushArticle_nonempty. }
      exists groups', used'. split; [assumption|]. split; [assumption|].
      rewrite Hperm, pushArticle_pool by lia.
      rewrite <- app_assoc. reflexivity.
    + destruct (IH (S i) (groups ++ [newGroup groups a]) (i :: used))
        as (groups' & used' & Hrun & Hne' & Hperm); auto.
      { apply Forall_app. split; [assumption|]. constructor; [|constructor].
        unfold nonempty. simpl. discriminate. }
      exists groups', used'. split; [assumption|]. split; [assumption|].
      rewrite Hperm. unfold pool. rewrite map_app, concat_app. simpl.
      rewrite <- app_assoc. reflexivity.
Qed.

End WithPlatform.

(** The clustering returns groups for every input. *)
Lemma groupSimilarArticles_returns (P : Platform)
  (arts : list NormalizedArticle) (thr : Q) :
  exists groups, groupSimilarArticles P arts thr = Some groups.
Proof.
  unfold groupSimilarArticles. destruct arts as [|a arts]; [now exists []|].
  destruct (@groupLoop_partition P thr (a :: arts) 0 [] [])
    as (groups & used & Hrun & _).
  { constructor. }
  { intros k []. }
  rewrite Hrun. eexists. reflexivity.
Qed.

(** C1. For every input list, [groupSimilarArticles] returns groups whose
    articles, taken together, are exactly the articles of the input, each
    occurrence once: no article is in two groups and none is dropped.  The
    group sizes add up to the length of the input, and no group is empty. *)
Theorem clustering_partition (P : Platform) (arts : list NormalizedArticle)
  (thr : Q) :
  exists groups,
    groupSimilarArticles P arts thr = Some groups
    /\ Permutation (pool groups) arts
    /\ list_sum (sizes groups) = length arts
    /\ Forall nonempty groups.
Proof.
  unfold groupSimilarArticles.
  destruct arts as [|a arts].
  - exists []. repeat split; constructor.
  - destruct (@groupLoop_partition P thr (a :: arts) 0 [] [])
      as (groups & used & Hrun & Hne & Hperm).
    { constructor. }
    { intros k []. }
    rewrite Hrun. exists (Js.sort bySizeDescending groups).
    assert (Hsorted : Permutation (Js.sort bySizeDescending groups) groups)
      by apply JsFacts.sort_perm.
    assert (Hpool : Permutation (pool (Js.sort bySizeDescending groups)) (a :: arts)).
    { rewrite <- Hperm. unfold pool.
      apply concat_perm. now apply Permutation_map. }
    split; [reflexivity|]. split; [assumption|]. split.
    + rewrite <- pool_length. now apply Permutation_length.
    + eapply Permutation_Forall; [symmetry; exact Hsorted | assumption].
Qed.

(** C6.  The loop at threshold 0, which the documentation of the function
    allows ("Minimum similarity to group (0-1)").  After [budget] and
    [comet] have each founded a group, [derby] has similarity 0 with both
    representatives: the two groups tie on the highest similarity, which is
    at the threshold, and yet the article is not appended to the
    earliest-created group but founds a third one.  A candidate has to
    exceed the initial [bestSimilarity] of 0, so a similarity that equals
    the minimum 0 never groups. *)
Lemma tie_break_counterexample :
  groupLoop Examples.platform 0 0 [Examples.budget; Examples.comet] ([], [])
  = Some ([Examples.budgetGroup; Examples.cometGroup], [1; 0])
  /\ (Similarity.calculateSimilarity Examples.platform Examples.derby
        Examples.budget == 0)%Q
  /\ (Similarity.calculateSimilarity Examples.platform Examples.derby
        Examples.comet == 0)%Q
  /\ groupStep Examples.platform 0 2 Examples.derby
       ([Examples.budgetGroup; Examples.cometGroup], [1; 0])
     = Some ([Examples.budgetGroup; Examples.cometGroup; Examples.derbyGroup],
             [2; 1; 0])
  /\ groupStep Examples.platform 0 2 Examples.derby
       ([Examples.budgetGroup; Examples.cometGroup], [1; 0])
     <> Some (pushArticle 0 Examples.derby
                [Examples.budgetGroup; Examples.cometGroup], [2; 1; 0])
  /\ ~ (forall (thr : Q) (i : nat) (a : NormalizedArticle)
          (groups : list ArticleGroup) (used : list nat)
          (j : nat) (gj : ArticleGroup) (rj : NormalizedArticle),
          Forall nonempty groups ->
          ~ In i used ->
          nth_error groups j = Some gj ->
          hd_error (articles gj) = Some rj ->
          (thr <= Similarity.calculateSimilarity Examples.platform a rj)%Q ->
          (forall k gk rk, nth_error groups k = Some gk ->
             hd_error (articles gk) = Some rk ->
             (Similarity.calculateSimilarity Examples.platform a rk
              <= Similarity.calculateSimilarity Examples.platform a rj)%Q) ->
          (forall k gk rk, k < j -> nth_error groups k = Some gk ->
             hd_error (articles gk) = Some rk ->
             (Similarity.calculateSimilarity Examples.platform a rk
              < Similarity.calculateSimilarity Examples.platform a rj)%Q) ->
          groupStep Examples.platform thr i a (groups, used)
          = Some (pushArticle j a groups, i :: used)).
Proof.
  split; [vm_compute; reflexivity|].
  split; [vm_compute; reflexivity|].
  split; [vm_compute; reflexivity|].
  split; [vm_compute; reflexivity|].
  split; [vm_compute; discriminate|].
  intros Hclaim.
  specialize (Hclaim 0%Q 2 Examples.derby
                [Examples.budgetGroup; Examples.cometGroup] [1; 0]
                0 Examples.budgetGroup Examples.budget).
  assert (Hbad : groupStep Examples.platform 0 2 Examples.derby
                   ([Examples.budgetGroup; Examples.cometGroup], [1; 0])
                 = Some (pushArticle 0 Examples.derby
                           [Examples.budgetGroup; Examples.cometGroup],
                         [2; 1; 0])).
  { apply Hclaim.
    - repeat constructor; discriminate.
    - simpl. intros [H | [H | []]]; discriminate H.
    - reflexivity.
    - reflexivity.
    - vm_compute. discriminate.
    - intros [|[|k]] gk rk Hk Hr; cbn [nth_error] in Hk;
        [| | destruct k; discriminate Hk];
        injection Hk as <-; injection Hr as <-; vm_compute; discriminate.
    - intros k gk rk Hk. lia. }
  vm_compute in Hbad. discriminate.
Qed.

(** C2, as it holds.  From the same groups, raising the threshold can
    only turn "append to an existing group" into "create a new group": one
    step of the loop leaves at least as many groups under the higher
    threshold as under the lower one.  (Over a whole run the two thresholds
    part ways after the first step that differs, and the count of groups is
    not monotone.) *)
Theorem threshold_step_monotone (P : Platform) (thr1 thr2 : Q) (i : nat)
  (a : NormalizedArticle) (groups : list ArticleGroup) (used : list nat) :
  (thr1 <= thr2)%Q ->
  Forall nonempty groups ->
  exists s1 s2,
    groupStep P thr1 i a (groups, used) = Some s1
    /\ groupStep P thr2 i a (groups, used) = Some s2
    /\ length groups <= length (fst s1) <= length (fst s2)
    /\ length (fst s2) <= S (length groups).
Proof.
  intros Hthr Hne. unfold groupStep.
  destruct (existsb (Nat.eqb i) used).
  - exists (groups, used), (groups, used). simpl. repeat split; lia.
  - destruct (@scanGroups_some P thr1 a groups Hne 0 None 0%Q) as (r1 & Hr1 & _).
    destruct (@scanGroups_some P thr2 a groups Hne 0 None 0%Q) as (r2 & Hr2 & _).
    rewrite Hr1, Hr2.
    destruct r1 as [b1|], r2 as [b2|]; eexists; eexists;
      (split; [reflexivity|]); (split; [reflexivity|]); simpl;
      rewrite ?pushArticle_length, ?length_app; simpl; try lia.
    (* a new group under the lower threshold, none under the higher *)
    exfalso.
    apply (scanGroups_none_iff P thr1 a Hne 0 0%Q) in Hr1.
    assert (Hr2' : scanGroups P thr2 a groups 0 None 0%Q = Some None).
    { apply (scanGroups_none_iff P thr2 a Hne 0 0%Q).
      eapply Forall_impl; [|exact Hr1]. simpl.
      intros g Hg rep Hrep [Hle Hlt]. apply (Hg rep Hrep).
      split; [|assumption]. now apply Qle_trans with thr2. }
    congruence.
Qed.

Lemma threshold_step_monotone_witness :
  exists s1 s2,
    groupStep Examples.platform (3 # 10) 1 Examples.flood2
      ([ {| groupId := lit "group-1"; articles := [Examples.flood1] |} ], [0])
    = Some s1
    /\ groupStep Examples.platform (6 # 10) 1 Examples.flood2
         ([ {| groupId := lit "group-1"; articles := [Examples.flood1] |} ], [0])
       = Some s2
    /\ 1 <= length (fst s1) <= length (fst s2)
    /\ length (fst s2) <= 2.
Proof.
  apply (@threshold_step_monotone Examples.platform (3 # 10) (6 # 10) 1
           Examples.flood2
           [ {| groupId := lit "group-1"; articles := [Examples.flood1] |} ] [0]).
  - vm_compute. discriminate.
  - repeat constructor; discriminate.
Defined.

(** C2 as stated fails.  On four articles about one flood the default
    threshold 0.3 yields three groups and the higher threshold 0.6 yields
    two: under 0.6 the second article no longer joins the first and founds a
    group that the third and the fourth then join. *)
Lemma threshold_monotonicity_counterexample :
  (3 # 10 <= 6 # 10)%Q
  /\ option_map (@length ArticleGroup)
       (groupSimilarArticles Examples.platform
          [Examples.flood1; Examples.flood2; Examples.flood3; Examples.flood4]
          (3 # 10)) = Some 3
  /\ option_map (@length ArticleGroup)
       (groupSimilarArticles Examples.platform
          [Examples.flood1; Examples.flood2; Examples.flood3; Examples.flood4]
          (6 # 10)) = Some 2
  /\ ~ (forall (arts : list NormalizedArticle) (thr1 thr2 : Q)
          (groups1 groups2 : list ArticleGroup),
          (thr1 <= thr2)%Q ->
          groupSimilarArticles Examples.platform arts thr1 = Some groups1 ->
          groupSimilarArticles Examples.platform arts thr2 = Some groups2 ->
          length groups1 <= length groups2).
Proof.
  split; [vm_compute; discriminate|].
  split; [vm_compute; reflexivity|].
  split; [vm_compute; reflexivity|].
  intros Hclaim.
  specialize (Hclaim
    [Examples.flood1; Examples.flood2; Examples.flood3; Examples.flood4]
    (3 # 10)%Q (6 # 10)%Q).
  destruct (groupSimilarArticles Examples.platform
              [Examples.flood1; Examples.flood2; Examples.flood3; Examples.flood4]
              (3 # 10)) as [groups1|] eqn:E1; [|vm_compute in E1; discriminate].
  destruct (groupSimilarArticles Examples.platform
              [Examples.flood1; Examples.flood2; Examples.flood3; Examples.flood4]
              (6 # 10)) as [groups2|] eqn:E2; [|vm_compute in E2; discriminate].
  specialize (Hclaim groups1 groups2).
  assert (H : length groups1 <= length groups2).
  { apply Hclaim; [vm_compute; discriminate | reflexivity | reflexivity]. }
  vm_compute in E1. vm_compute in E2.
  injection E1 as <-. injection E2 as <-. simpl in H. lia.
Qed.

End GrouperFacts.

(** ** Similarity *)

Module SimilarityFacts.
Import Similarity.

Lemma pos_of_nat_Z (n : nat) : n <> 0 -> Z.pos (Pos.of_nat n) = Z.of_nat n.
Proof.
  intros Hn. rewrite <- positive_nat_Z. now rewrite Nat2Pos.id.
Qed.

Lemma min1_le_1 (x : Q) : (min1 x <= 1)%Q.
Proof.
  unfold min1. destruct (Qle_bool 1 x) eqn:E.
  - apply Qle_refl.
  - apply Qlt_le_weak, Qnot_le_lt. intros H. apply Qle_bool_iff in H. congruence.
Qed.

Lemma min1_nonneg (x : Q) : (0 <= x)%Q -> (0 <= min1 x)%Q.
Proof.
  intros H. unfold min1. destruct (Qle_bool 1 x); [discriminate | assumption].
Qed.

Lemma min1_of_ge_1 (x : Q) : (1 <= x)%Q -> min1 x = 1%Q.
Proof.
  intros H. unfold min1. apply Qle_bool_iff in H. now rewrite H.
Qed.

(** The Jaccard index of two sets lies between 0 and 1. *)
Lemma jaccard_bounds (set1 set2 : list jsstring) :
  (0 <= jaccardSimilarity set1 set2 <= 1)%Q.
Proof.
  unfold jaccardSimilarity.
  destruct set1 as [|x set1], set2 as [|y set2];
    try (split; discriminate).
  set (s1 := x :: set1). set (s2 := y :: set2).
  assert (Hu : length (mkSet (s1 ++ s2)) <> 0).
  { intros H. apply length_zero_iff_nil in H. apply JsFacts.mkSet_nil_inv in H.
    discriminate. }
  assert (Hle : length (mkSet (filter (has s2) s1)) <= length (mkSet (s1 ++ s2))).
  { apply NoDup_incl_length; [apply JsFacts.mkSet_NoDup|].
    intros z Hz. rewrite JsFacts.mkSet_In in Hz. apply filter_In in Hz.
    rewrite JsFacts.mkSet_In. apply in_or_app. left. tauto. }
  unfold Qle. cbn [Qnum Qden]. rewrite (pos_of_nat_Z Hu). lia.
Qed.

(** The Jaccard index of a non-empty set with itself is 1. *)
Lemma jaccard_self (set1 : list jsstring) :
  (jaccardSimilarity set1 set1 == 1)%Q.
Proof.
  unfold jaccardSimilarity. destruct set1 as [|x set1]; [reflexivity|].
  set (s := x :: set1).
  assert (Hu : length (mkSet (s ++ s)) <> 0).
  { intros H. apply length_zero_iff_nil in H. apply JsFacts.mkSet_nil_inv in H.
    discriminate. }
  assert (Heq : length (mkSet (filter (has s) s)) = length (mkSet (s ++ s))).
  { apply JsFacts.same_elements_length; try apply JsFacts.mkSet_NoDup.
    intros z. rewrite !JsFacts.mkSet_In, filter_In, in_app_iff, JsFacts.has_In.
    tauto. }
  unfold Qeq. cbn [Qnum Qden]. rewrite (pos_of_nat_Z Hu). lia.
Qed.

Section WithPlatform.
Variable P : Platform.

Lemma timeBonus_values (a b : NormalizedArticle) :
  timeBonus P a b = 0%Q \/ timeBonus P a b = (1 # 10)%Q.
Proof.
  unfold timeBonus.
  destruct (truthy (publishedAt a) && truthy (publishedAt b)); [|now left].
  destruct (dateParse P (publishedAt a)); [|now left].
  destruct (dateParse P (publishedAt b)); [|now left].
  match goal with |- context [if ?c then _ else _] => destruct c end; auto.
Qed.

Lemma urlBonus_values (a b : NormalizedArticle) :
  urlBonus P a b = 0%Q \/ urlBonus P a b = (5 # 100)%Q.
Proof.
  unfold urlBonus.
  destruct (urlHostname P (url a)); [|now left].
  destruct (urlHostname P (url b)); [|now left].
  match goal with |- context [if ?c then _ else _] => destruct c end; auto.
Qed.

Lemma bonuses_nonneg (a b : NormalizedArticle) :
  (0 <= timeBonus P a b)%Q /\ (0 <= urlBonus P a b)%Q.
Proof.
  destruct (timeBonus_values a b) as [-> | ->],
           (urlBonus_values a b) as [-> | ->]; split; discriminate.
Qed.

(** An article compared with itself scores 1. *)
Lemma self_similarity (a : NormalizedArticle) :
  calculateSimilarity P a a = 1%Q.
Proof.
  unfold calculateSimilarity. apply min1_of_ge_1.
  pose proof (jaccard_self (mkSet (extractKeyTerms (articleText a) 10))) as Hj.
  destruct (bonuses_nonneg a a) as [Ht Hu].
  rewrite Hj.
  apply Qle_trans with (1 + 0 + 0)%Q; [discriminate|].
  apply Qplus_le_compat; [|assumption].
  apply Qplus_le_compat; [apply Qle_refl | assumption].
Qed.

End WithPlatform.

(** C5. For every pair of articles the similarity is [min(1, Jaccard +
    time bonus + domain bonus)], where the Jaccard index of the two term sets
    lies in [[0, 1]], the time bonus is 0 or 0.1 and the domain bonus is 0 or
    0.05; it lies in [[0, 1]]; and an article that has a non-empty title or
    description has similarity 1 with itself. *)
Theorem similarity_bounds (P : Platform) (a b : NormalizedArticle) :
  (0 <= calculateSimilarity P a b <= 1)%Q
  /\ calculateSimilarity P a b
     = min1 (jaccardSimilarity (mkSet (extractKeyTerms (articleText a) 10))
                               (mkSet (extractKeyTerms (articleText b) 10))
             + timeBonus P a b + urlBonus P a b)%Q
  /\ (0 <= jaccardSimilarity (mkSet (extractKeyTerms (articleText a) 10))
                             (mkSet (extractKeyTerms (articleText b) 10))
      <= 1)%Q
  /\ (timeBonus P a b = 0%Q \/ timeBonus P a b = (1 # 10)%Q)
  /\ (urlBonus P a b = 0%Q \/ urlBonus P a b = (5 # 100)%Q)
  /\ (title a <> [] \/ description a <> [] -> calculateSimilarity P a a = 1%Q).
Proof.
  pose proof (jaccard_bounds (mkSet (extractKeyTerms (articleText a) 10))
                             (mkSet (extractKeyTerms (articleText b) 10)))
    as [Hj0 Hj1].
  destruct (bonuses_nonneg P a b) as [Ht Hu].
  split; [split|].
  - unfold calculateSimilarity. apply min1_nonneg.
    apply Qle_trans with (0 + 0 + 0)%Q; [discriminate|].
    apply Qplus_le_compat; [|assumption].
    apply Qplus_le_compat; assumption.
  - apply min1_le_1.
  - split; [reflexivity|]. split; [split; assumption|].
    split; [apply timeBonus_values|]. split; [apply urlBonus_values|].
    intros _. apply self_similarity.
Qed.

Lemma similarity_bounds_witness :
  title Examples.flood1 <> []
  /\ calculateSimilarity Examples.platform Examples.flood1 Examples.flood1 = 1%Q.
Proof.
  split; [discriminate|].
  apply (similarity_bounds Examples.platform Examples.flood1 Examples.flood2).
  left. discriminate.
Defined.

End SimilarityFacts.

(** ** The regular-expression matcher *)

Module RegexFacts.
Import Regex Vocabulary.

Lemma suffixOf_refl (s : jsstring) : suffixOf s s.
Proof. now exists []. Qed.

Lemma suffixOf_trans (a b c : jsstring) :
  suffixOf a b -> suffixOf b c -> suffixOf a c.
Proof.
  intros [p ->] [q ->]. exists (q ++ p). now rewrite app_assoc.
Qed.

Lemma suffixOf_cons (c : ascii) (s : jsstring) : suffixOf s (c :: s).
Proof. now exists [c]. Qed.

Lemma stripPrefixCI_suffix (l s s' : jsstring) :
  stripPrefixCI l s = Some s' -> suffixOf s' s.
Proof.
  revert s. induction l as [|a l IH]; intros s H; simpl in H.
  - injection H as <-. apply suffixOf_refl.
  - destruct s as [|b s]; [discriminate|].
    destruct (ascii_dec (lowerChar a) (lowerChar b)); [|discriminate].
    eapply suffixOf_trans; [apply (IH _ H) | apply suffixOf_cons].
Qed.

Lemma repeatGreedy_suffix (p : ascii -> bool) (s : jsstring) :
  forall lo hi k res,
    repeatGreedy p lo hi s k = Some res ->
    exists s', suffixOf s' s /\ k s' = Some res.
Proof.
  induction s as [|c s IH]; intros lo hi k res H; simpl in H.
  - destruct lo; [|discriminate]. exists []. split; [apply suffixOf_refl | assumption].
  - assert (Hstop : match lo with O => k (c :: s) | S _ => None end = Some res ->
                    exists s', suffixOf s' (c :: s) /\ k s' = Some res).
    { destruct lo; [|discriminate]. intros Hk. exists (c :: s).
      split; [apply suffixOf_refl | assumption]. }
    destruct (p c && mayRepeat hi); [|now apply Hstop].
    destruct (repeatGreedy p (pred lo) (option_map pred hi) s k) as [rest|] eqn:E;
      [|now apply Hstop].
    injection H as <-. destruct (IH _ _ _ _ E) as (s' & Hs' & Hk).
    exists s'. split; [|assumption].
    eapply suffixOf_trans; [exact Hs' | apply suffixOf_cons].
Qed.

(** The continuation of a successful match is called on a suffix of the
    input. *)
Lemma matchAt_suffix (r : regex) :
  forall s k res,
    matchAt r s k = Some res ->
    exists s', suffixOf s' s /\ k s' = Some res.
Proof.
  induction r as [p | l | r1 IH1 r2 IH2 | r1 IH1 r2 IH2 | p lo hi |];
    intros s k res H; simpl in H.
  - destruct s as [|c s]; [discriminate|].
    destruct (p c); [|discriminate].
    exists s. split; [apply suffixOf_cons | assumption].
  - destruct (stripPrefixCI l s) as [s'|] eqn:E; [|discriminate].
    exists s'. split; [now apply stripPrefixCI_suffix with l | assumption].
  - destruct (IH1 _ _ _ H) as (s1 & Hs1 & H1).
    destruct (IH2 _ _ _ H1) as (s2 & Hs2 & H2).
    exists s2. split; [|assumption]. now apply suffixOf_trans with s1.
  - destruct (matchAt r1 s k) as [rest|] eqn:E.
    + injection H as <-. now apply IH1.
    + now apply IH2.
  - now apply repeatGreedy_suffix with p lo hi.
  - destruct s; [|discriminate]. exists []. split; [apply suffixOf_refl | assumption].
Qed.

Lemma matchStart_suffix (r : regex) (s rest : jsstring) :
  matchStart r s = Some rest -> suffixOf rest s.
Proof.
  intros H. apply matchAt_suffix in H. destruct H as (s' & Hs' & [= <-]).
  assumption.
Qed.

(** A pattern whose every branch ends with the end anchor matches up to
    the end of the input. *)
Lemma matchAt_to_end (r : regex) :
  endsWithEos r = true ->
  forall s k res, matchAt r s k = Some res -> k [] = Some res.
Proof.
  induction r as [p | l | r1 IH1 r2 IH2 | r1 IH1 r2 IH2 | p lo hi |];
    intros He s k res H; simpl in He; try discriminate; simpl in H.
  - apply matchAt_suffix in H. destruct H as (s1 & _ & H1).
    now apply (IH2 He s1).
  - apply andb_prop in He. destruct He as [He1 He2].
    destruct (matchAt r1 s k) as [rest|] eqn:E.
    + injection H as <-. now apply (IH1 He1 s).
    + now apply (IH2 He2 s).
  - destruct s; [assumption | discriminate].
Qed.

Lemma searchFrom_unfold (r : regex) (before s : jsstring) :
  searchFrom r before s
  = match matchStart r s with
    | Some rest => Some (rev before, firstn (length s - length rest) s, rest)
    | None =>
        match s with
        | [] => None
        | c :: s' => searchFrom r (c :: before) s'
        end
    end.
Proof. destruct s; reflexivity. Qed.

Lemma searchFrom_parts (r : regex) (s : jsstring) :
  forall before b m a,
    searchFrom r before s = Some (b, m, a) ->
    rev before ++ s = b ++ m ++ a
    /\ matchStart r (m ++ a) = Some a.
Proof.
  induction s as [|c s IH]; intros before b m a H;
    rewrite searchFrom_unfold in H.
  - destruct (matchStart r []) as [rest|] eqn:E; [|discriminate].
    injection H as <- <- <-.
    destruct (matchStart_suffix _ _ E) as [pre Hpre].
    symmetry in Hpre. apply app_eq_nil in Hpre. destruct Hpre as [-> ->].
    split; [reflexivity | assumption].
  - destruct (matchStart r (c :: s)) as [rest|] eqn:E.
    + destruct (matchStart_suffix _ _ E) as [pre Hpre].
      assert (Hm : firstn (length (c :: s) - length rest) (c :: s) = pre).
      { rewrite Hpre, length_app, Nat.add_sub.
        rewrite firstn_app, Nat.sub_diag, firstn_all. simpl.
        now rewrite app_nil_r. }
      rewrite Hm in H. injection H as <- <- <-.
      rewrite <- Hpre. split; [reflexivity | assumption].
    + destruct (IH _ _ _ _ H) as [H1 H2]. split; [|assumption].
      rewrite <- H1. cbn [rev]. now rewrite <- app_assoc.
Qed.

Lemma search_parts (r : regex) (s b m a : jsstring) :
  search r s = Some (b, m, a) ->
  s = b ++ m ++ a /\ matchStart r (m ++ a) = Some a.
Proof. intros H. now apply searchFrom_parts in H. Qed.

End RegexFacts.

(** ** The fallback title *)

Module TitleFacts.
Import Regex Summarizer Vocabulary RegexFacts.

(** *** Parts of strings *)

Lemma infixOf_refl (s : jsstring) : infixOf s s.
Proof. exists [], []. now rewrite app_nil_r. Qed.

Lemma infixOf_trans (a b c : jsstring) :
  infixOf a b -> infixOf b c -> infixOf a c.
Proof.
  intros (p1 & q1 & ->) (p2 & q2 & ->).
  exists (p2 ++ p1), (q1 ++ q2). now rewrite <- !app_assoc.
Qed.

Lemma suffixOf_infixOf (a b : jsstring) : suffixOf a b -> infixOf a b.
Proof. intros [pre ->]. exists pre, []. now rewrite app_nil_r. Qed.

Lemma prefix_infixOf (a post : jsstring) : infixOf a (a ++ post).
Proof. now exists [], post. Qed.

Lemma firstn_infixOf (n : nat) (s : jsstring) : infixOf (firstn n s) s.
Proof.
  rewrite <- (firstn_skipn n s) at 2. apply prefix_infixOf.
Qed.

Lemma dropWhile_suffixOf (p : ascii -> bool) (s : jsstring) :
  suffixOf (dropWhile p s) s.
Proof.
  induction s as [|c s IH]; simpl.
  - apply suffixOf_refl.
  - destruct (p c); [|apply suffixOf_refl].
    eapply suffixOf_trans; [exact IH | apply suffixOf_cons].
Qed.

Lemma trimEnd_infixOf (s : jsstring) : infixOf (trimEnd s) s.
Proof.
  unfold trimEnd. destruct (dropWhile_suffixOf isSpace (rev s)) as [pre Hpre].
  exists [], (rev pre). simpl.
  rewrite <- rev_app_distr, <- Hpre. now rewrite rev_involutive.
Qed.

Lemma trim_infixOf (s : jsstring) : infixOf (trim s) s.
Proof.
  unfold trim, trimStart.
  eapply infixOf_trans; [apply trimEnd_infixOf|].
  apply suffixOf_infixOf, dropWhile_suffixOf.
Qed.

Lemma takeWhile_infixOf (p : ascii -> bool) (s : jsstring) :
  infixOf (takeWhile p s) s.
Proof.
  assert (H : exists post, s = takeWhile p s ++ post).
  { induction s as [|c s [post IH]]; simpl; [now exists []|].
    destruct (p c); [|now exists (c :: s)].
    exists post. simpl. now rewrite <- IH. }
  destruct H as [post H]. rewrite H at 2. apply prefix_infixOf.
Qed.

Lemma isPrefix_iff (p s : jsstring) :
  isPrefix p s = true <-> exists post, s = p ++ post.
Proof.
  revert s. induction p as [|a p IH]; intros s; simpl.
  - split; [intros _; now exists s | reflexivity].
  - destruct s as [|b s].
    + split; [discriminate | intros [post H]; discriminate].
    + destruct (ascii_dec a b) as [<- | Hne].
      * rewrite IH. split; intros [post H]; exists post.
        -- now rewrite H.
        -- now injection H.
      * split; [discriminate|]. intros [post H]. injection H as H _. congruence.
Qed.

Lemma includes_iff (s p : jsstring) :
  includes s p = true <-> infixOf p s.
Proof.
  induction s as [|c s IH]; simpl.
  - rewrite orb_false_r, isPrefix_iff. split.
    + intros [post H]. exists [], post. assumption.
    + intros (pre & post & H). symmetry in H.
      apply app_eq_nil in H. destruct H as [-> H].
      exists post. now rewrite H.
  - rewrite orb_true_iff, IH, isPrefix_iff. split.
    + intros [[post H] | (pre & post & H)].
      * exists [], post. assumption.
      * exists (c :: pre), post. simpl. now rewrite H.
    + intros (pre & post & H). destruct pre as [|d pre].
      * left. now exists post.
      * right. injection H as _ H. now exists pre, post.
Qed.

(** *** Case *)

Lemma lower_upper (c : ascii) : lowerChar (upperChar c) = lowerChar c.
Proof.
  destruct c as [[] [] [] [] [] [] [] []]; reflexivity.
Qed.

Lemma toLowerCase_app (a b : jsstring) :
  toLowerCase (a ++ b) = toLowerCase a ++ toLowerCase b.
Proof. apply map_app. Qed.

Lemma toLowerCase_capitalize (s : jsstring) :
  toLowerCase (capitalize s) = toLowerCase s.
Proof.
  unfold capitalize, slice1, toLowerCase, toUpperCase.
  destruct s as [|c s]; [reflexivity|]. simpl. now rewrite lower_upper.
Qed.

(** *** Extraction *)

Lemma extractedFrom_refl (s : jsstring) : extractedFrom s s.
Proof. apply infixOf_refl. Qed.

Lemma infixOf_extractedFrom (r s x : jsstring) :
  infixOf r s -> extractedFrom s x -> extractedFrom r x.
Proof.
  unfold extractedFrom. intros (pre & post & ->) H.
  eapply infixOf_trans; [|exact H].
  exists (toLowerCase pre), (toLowerCase post).
  now rewrite !toLowerCase_app.
Qed.

Lemma ex_trim (s x : jsstring) :
  extractedFrom s x -> extractedFrom (trim s) x.
Proof. apply infixOf_extractedFrom, trim_infixOf. Qed.

Lemma ex_substring0 (n : nat) (s x : jsstring) :
  extractedFrom s x -> extractedFrom (substring0 n s) x.
Proof. apply infixOf_extractedFrom, firstn_infixOf. Qed.

Lemma ex_capitalize (s x : jsstring) :
  extractedFrom s x -> extractedFrom (capitalize s) x.
Proof. unfold extractedFrom. now rewrite toLowerCase_capitalize. Qed.

Lemma ex_removeStart (r : regex) (s x : jsstring) :
  extractedFrom s x -> extractedFrom (removeStart r s) x.
Proof.
  unfold removeStart. destruct (matchStart r s) as [rest|] eqn:E; [|auto].
  apply infixOf_extractedFrom, suffixOf_infixOf.
  now apply matchStart_suffix with r.
Qed.

Lemma ex_removeFirst_to_end (r : regex) (s x : jsstring) :
  endsWithEos r = true ->
  extractedFrom s x -> extractedFrom (removeFirst r s) x.
Proof.
  intros He. unfold removeFirst.
  destruct (search r s) as [[[b m] a]|] eqn:E; [|auto].
  apply search_parts in E. destruct E as [Hs Hm].
  apply (matchAt_to_end r He) in Hm. injection Hm as <-.
  rewrite app_nil_r. apply infixOf_extractedFrom.
  rewrite Hs. apply prefix_infixOf.
Qed.

Lemma ex_searched (r : regex) (s b m a x : jsstring) :
  search r s = Some (b, m, a) ->
  extractedFrom s x -> extractedFrom m x.
Proof.
  intros E. apply search_parts in E. destruct E as [-> _].
  apply infixOf_extractedFrom. now exists b, a.
Qed.

Lemma ex_firstSentenceOf (s x : jsstring) :
  extractedFrom s x -> extractedFrom (firstSentenceOf s) x.
Proof. apply infixOf_extractedFrom, takeWhile_infixOf. Qed.

Lemma ex_truncateAtWord (s x : jsstring) :
  extractedFrom s x -> extractedFrom (truncateAtWord s) x.
Proof.
  intros H. unfold truncateAtWord.
  destruct (50 <? lastIndexOf Similarity.space (substring0 97 s))%Z;
    repeat apply ex_substring0; assumption.
Qed.

Lemma ex_chunkAtWord (n : nat) (bound : Z) (s x : jsstring) :
  extractedFrom s x -> extractedFrom (chunkAtWord n bound s) x.
Proof.
  intros H. unfold chunkAtWord.
  destruct (bound <? lastIndexOf Similarity.space (trim (substring0 n s)))%Z;
    repeat first [apply ex_substring0 | apply ex_trim]; assumption.
Qed.

(** *** The stages of [generateNeutralTitle] *)

Ltac extracted :=
  repeat first
    [ assumption
    | apply extractedFrom_refl
    | apply ex_capitalize
    | apply ex_trim
    | apply ex_truncateAtWord
    | apply ex_chunkAtWord
    | apply ex_substring0
    | apply ex_firstSentenceOf
    | apply ex_removeStart
    | apply ex_removeFirst_to_end; [reflexivity|] ].

Lemma actionPhrase_extracted (summary : jsstring) (pattern : regex)
  (phrase : jsstring) :
  actionPhrase summary pattern = Some phrase -> extractedFrom phrase summary.
Proof.
  unfold actionPhrase.
  destruct (search pattern summary) as [[[b m] a]|] eqn:E; [|discriminate].
  assert (Hm : extractedFrom m summary).
  { eapply ex_searched; [exact E | apply extractedFrom_refl]. }
  destruct (truthy m); [|discriminate].
  match goal with |- context [if ?c then _ else _] => destruct c end;
    [|discriminate].
  match goal with |- context [if ?c then _ else _] => destruct c end;
    intros [= <-]; extracted.
Qed.

Lemma firstActionPhrase_extracted (summary : jsstring) (patterns : list regex)
  (phrase : jsstring) :
  firstActionPhrase summary patterns = Some phrase ->
  extractedFrom phrase summary.
Proof.
  induction patterns as [|pattern rest IH]; simpl; [discriminate|].
  destruct (actionPhrase summary pattern) as [found|] eqn:E; [|assumption].
  intros [= <-]. now apply actionPhrase_extracted with pattern.
Qed.

Lemma firstSentenceTitle_extracted (summary neutral : jsstring) :
  firstSentenceTitle summary = Some neutral -> extractedFrom neutral summary.
Proof.
  unfold firstSentenceTitle.
  repeat match goal with
         | |- context [if ?c then _ else _] => destruct c
         end;
    try discriminate; intros [= <-]; extracted.
Qed.

Lemma firstChunkTitle_extracted (summary chunk : jsstring) :
  firstChunkTitle summary = Some chunk -> extractedFrom chunk summary.
Proof.
  unfold firstChunkTitle.
  repeat match goal with
         | |- context [if ?c then _ else _] => destruct c
         end;
    try discriminate; intros [= <-]; extracted.
Qed.

Lemma finalFallbackTitle_extracted (summary t : jsstring) :
  finalFallbackTitle summary = Some t -> extractedFrom t summary.
Proof.
  unfold finalFallbackTitle.
  repeat match goal with
         | |- context [if ?c then _ else _] => destruct c
         end;
    try discriminate; intros [= <-]; extracted.
Qed.

Lemma fromSummary_extracted (summary t : jsstring) :
  fromSummary (Some summary) = Some t -> extractedFrom t summary.
Proof.
  unfold fromSummary.
  destruct (10 <? length summary); [|discriminate].
  destruct (firstActionPhrase summary actionPatterns) as [p|] eqn:E1.
  { intros [= <-]. now apply firstActionPhrase_extracted with actionPatterns. }
  destruct (firstSentenceTitle summary) as [n|] eqn:E2.
  { intros [= <-]. now apply firstSentenceTitle_extracted. }
  destruct (firstChunkTitle summary) as [c|] eqn:E3.
  { intros [= <-]. now apply firstChunkTitle_extracted. }
  apply finalFallbackTitle_extracted.
Qed.

Lemma fromTitle_extracted (title : option jsstring) (t : jsstring) :
  fromTitle title = Some t ->
  exists text, title = Some text /\ extractedFrom t text.
Proof.
  unfold fromTitle. destruct title as [text|]; [|discriminate].
  intros H. exists text. split; [reflexivity|]. revert H.
  repeat match goal with
         | |- context [if ?c then _ else _] => destruct c
         end;
    try discriminate; intros [= <-]; extracted.
Qed.

Lemma fromDescription_extracted (description : option jsstring) (t : jsstring) :
  fromDescription description = Some t ->
  exists text, description = Some text /\ extractedFrom t text.
Proof.
  unfold fromDescription. destruct description as [text|]; [|discriminate].
  intros H. exists text. split; [reflexivity|]. revert H.
  repeat match goal with
         | |- context [if ?c then _ else _] => destruct c
         end;
    try discriminate; intros [= <-]; extracted.
Qed.

(** A non-empty summary always yields a title in the second summary
    branch, so the last line of the function is not reached. *)
Lemma fromShortSummary_some (summary : jsstring) :
  summary <> [] ->
  exists t, fromShortSummary (Some summary) = Some t
            /\ extractedFrom t summary.
Proof.
  intros Hne. unfold fromShortSummary.
  destruct summary as [|c summary]; [congruence|].
  change (0 <? length (c :: summary)) with true. cbv iota.
  match goal with |- context [if ?c then _ else _] => destruct c end;
    eexists; (split; [reflexivity|]); extracted.
Qed.

(** The result of [generateNeutralTitle] for a non-empty summary is
    extracted from the summary, the title or the description. *)
Lemma generateNeutralTitle_extracted (title description : option jsstring)
  (summary : jsstring) :
  summary <> [] ->
  exists text,
    (text = summary \/ title = Some text \/ description = Some text)
    /\ extractedFrom (generateNeutralTitle title description (Some summary)) text.
Proof.
  intros Hne. unfold generateNeutralTitle.
  destruct (fromSummary (Some summary)) as [t|] eqn:E1.
  { exists summary. split; [now left | now apply fromSummary_extracted]. }
  destruct (fromTitle title) as [t|] eqn:E2.
  { apply fromTitle_extracted in E2. destruct E2 as (text & -> & H).
    exists text. auto. }
  destruct (fromDescription description) as [t|] eqn:E3.
  { apply fromDescription_extracted in E3. destruct E3 as (text & -> & H).
    exists text. auto. }
  destruct (fromShortSummary_some Hne) as (t & -> & H).
  exists summary. auto.
Qed.

Lemma extracted_includes (r x pattern : jsstring) :
  extractedFrom r x ->
  includes (toLowerCase r) pattern = true ->
  includes (toLowerCase x) pattern = true.
Proof.
  unfold extractedFrom. rewrite !includes_iff. intros H1 H2.
  now apply infixOf_trans with (toLowerCase r).
Qed.

Lemma extracted_generic (r x : jsstring) :
  extractedFrom r x -> hasGenericPhrase r = true -> hasGenericPhrase x = true.
Proof.
  unfold hasGenericPhrase. intros H Hr.
  apply existsb_exists in Hr. destruct Hr as (pattern & Hin & Hp).
  apply existsb_exists. exists pattern. split; [assumption|].
  now apply extracted_includes with r.
Qed.

Import Notions.

Lemma lowerChar_idem (c : ascii) : lowerChar (lowerChar c) = lowerChar c.
Proof. destruct c as [[] [] [] [] [] [] [] []]; vm_compute; reflexivity. Qed.

Lemma isSpace_lower (c : ascii) : isSpace (lowerChar c) = isSpace c.
Proof. destruct c as [[] [] [] [] [] [] [] []]; vm_compute; reflexivity. Qed.

Lemma isDigit_lower (c : ascii) : isDigit (lowerChar c) = isDigit c.
Proof. destruct c as [[] [] [] [] [] [] [] []]; vm_compute; reflexivity. Qed.

Lemma stripPrefixCI_lower (l : jsstring) :
  forall s,
    stripPrefixCI l (toLowerCase s)
    = option_map toLowerCase (stripPrefixCI l s).
Proof.
  induction l as [|a l IH]; intros s; [reflexivity|].
  destruct s as [|b s]; [reflexivity|].
  cbn [toLowerCase map stripPrefixCI]. rewrite lowerChar_idem.
  destruct (ascii_dec (lowerChar a) (lowerChar b)); [apply IH | reflexivity].
Qed.

Section Continuations.
Variables k k' : jsstring -> option jsstring.
Hypothesis Hk : forall x, option_map toLowerCase (k x) = k' (toLowerCase x).

Lemma repeatGreedy_lower (p : ascii -> bool) :
  (forall c, p (lowerChar c) = p c) ->
  forall s lo hi,
    option_map toLowerCase (repeatGreedy p lo hi s k)
    = repeatGreedy p lo hi (toLowerCase s) k'.
Proof.
  intros Hp. induction s as [|c s IH]; intros lo hi.
  - cbn [toLowerCase map repeatGreedy]. destruct lo; [apply Hk | reflexivity].
  - cbn [toLowerCase map repeatGreedy]. rewrite Hp.
    assert (Hstop : option_map toLowerCase
                      (match lo with O => k (c :: s) | S _ => None end)
                    = match lo with
                      | O => k' (lowerChar c :: map lowerChar s)
                      | S _ => None
                      end).
    { destruct lo; [apply (Hk (c :: s)) | reflexivity]. }
    destruct (p c && mayRepeat hi); [|exact Hstop].
    specialize (IH (pred lo) (option_map pred hi)).
    unfold toLowerCase in IH. rewrite <- IH.
    destruct (repeatGreedy p (pred lo) (option_map pred hi) s k);
      [reflexivity | exact Hstop].
Qed.

End Continuations.

(** A pattern whose classes do not tell the case of a letter matches a
    text as it matches the text in lower case. *)
Lemma matchAt_lower (r : regex) :
  caseBlind r ->
  forall s k k',
    (forall x, option_map toLowerCase (k x) = k' (toLowerCase x)) ->
    option_map toLowerCase (matchAt r s k) = matchAt r (toLowerCase s) k'.
Proof.
  induction r as [p | l | r1 IH1 r2 IH2 | r1 IH1 r2 IH2 | p lo hi |];
    intros Hb s k k' Hk; cbn [matchAt caseBlind] in *.
  - destruct s as [|c s]; [reflexivity|]. cbn [toLowerCase map].
    rewrite Hb. destruct (p c); [apply Hk | reflexivity].
  - rewrite stripPrefixCI_lower.
    destruct (stripPrefixCI l s); [apply Hk | reflexivity].
  - destruct Hb as [H1 H2]. apply IH1; [assumption|].
    intros x. now apply IH2.
  - destruct Hb as [H1 H2].
    rewrite <- (IH1 H1 s k k' Hk), <- (IH2 H2 s k k' Hk).
    now destruct (matchAt r1 s k).
  - now apply repeatGreedy_lower.
  - destruct s as [|c s]; [apply (Hk []) | reflexivity].
Qed.

Lemma testStart_lower (r : regex) (s : jsstring) :
  caseBlind r -> testStart r (toLowerCase s) = testStart r s.
Proof.
  intros Hb. unfold testStart, matchStart.
  rewrite <- (@matchAt_lower r Hb s (fun rest => Some rest)
                             (fun rest => Some rest)) by reflexivity.
  now destruct (matchAt r s (fun rest => Some rest)).
Qed.

Lemma storyNumber_caseBlind : caseBlind storyNumber.
Proof.
  cbn. repeat split; auto using isSpace_lower, isDigit_lower.
Qed.

Lemma isStoryNumber_same_case (s t : jsstring) :
  toLowerCase s = toLowerCase t -> isStoryNumber s = isStoryNumber t.
Proof.
  intros H. unfold isStoryNumber.
  rewrite <- (@testStart_lower storyNumber s storyNumber_caseBlind),
          <- (@testStart_lower storyNumber t storyNumber_caseBlind).
  now rewrite H.
Qed.

(** A text from which a title was extracted has a part that reads as the
    title does, up to the case of letters. *)
Lemma extracted_part (r x : jsstring) :
  extractedFrom r x ->
  exists part, infixOf part x /\ toLowerCase part = toLowerCase r.
Proof.
  unfold extractedFrom, toLowerCase. intros (pre & post & H).
  apply map_eq_app in H. destruct H as (pre0 & rest & -> & _ & H).
  apply map_eq_app in H. destruct H as (part & post0 & -> & Hp & _).
  exists part. split; [now exists pre0, post0 | exact Hp].
Qed.

Lemma extracted_story_number (r x : jsstring) :
  extractedFrom r x -> isStoryNumber r = true -> containsStoryNumber x.
Proof.
  intros He Hr. destruct (extracted_part He) as (part & Hin & Hcase).
  exists part. split; [assumption|].
  now rewrite (@isStoryNumber_same_case part r Hcase).
Qed.

(** C3, as it holds.  For every non-empty summary, and title, description
    and summary that are ASCII text, the title returned by
    [generateNeutralTitle] is extracted from the summary, the title or the
    description (a contiguous part of one of them, up to the case of
    letters).  So it contains one of the generic phrases of the pattern
    list only when that text contains it, and it has the form [story N]
    only when a part of that text has.  The function does not check what it
    returns against the generic-pattern set. *)
Theorem neutral_title_generic_only_from_input
  (title description : option jsstring) (summary : jsstring) :
  summary <> [] ->
  isAscii summary = true ->
  optAscii title = true ->
  optAscii description = true ->
  exists text,
    (text = summary \/ title = Some text \/ description = Some text)
    /\ extractedFrom (generateNeutralTitle title description (Some summary)) text
    /\ (forall pattern,
          In pattern genericPatterns ->
          includes (toLowerCase (generateNeutralTitle title description
                                                      (Some summary)))
                   pattern = true ->
          includes (toLowerCase text) pattern = true)
    /\ (hasGenericPhrase (generateNeutralTitle title description (Some summary))
        = true ->
        hasGenericPhrase text = true)
    /\ (isStoryNumber (generateNeutralTitle title description (Some summary))
        = true ->
        containsStoryNumber text).
Proof.
  intros Hne _ _ _.
  destruct (generateNeutralTitle_extracted title description Hne)
    as (text & Hsrc & Hex).
  exists text. split; [assumption|]. split; [assumption|]. split; [|split].
  - intros pattern _. now apply extracted_includes.
  - now apply extracted_generic.
  - now apply extracted_story_number.
Qed.

Lemma neutral_title_generic_only_from_input_witness :
  exists text,
    (text = Examples.catSummary
     \/ Some (title Examples.flood1) = Some text
     \/ @None jsstring = Some text)
    /\ extractedFrom
         (generateNeutralTitle (Some (title Examples.flood1))
                               None (Some Examples.catSummary)) text
    /\ (hasGenericPhrase
          (generateNeutralTitle (Some (title Examples.flood1))
                                None (Some Examples.catSummary)) = true ->
        hasGenericPhrase text = true).
Proof.
  destruct (@neutral_title_generic_only_from_input
              (Some (title Examples.flood1)) None
              Examples.catSummary)
    as (text & H1 & H2 & _ & H3 & _);
    [discriminate | reflexivity | reflexivity | reflexivity |].
  exists text. split; [exact H1|]. split; [exact H2 | exact H3].
Defined.

(** C3 as stated fails, for both kinds of pattern.  For the summary "News
    story about a very large cat found in a tree" the function returns the
    summary itself (its first sentence, strategy 2), which contains the
    generic phrase "news story".  For the summary "short" and the title
    "Story 4567890123 - BBC News" it returns the title without the name of
    the source, "Story 4567890123", which has the form [story N] although
    neither the title nor the summary has. *)
Lemma neutral_title_counterexample :
  (Examples.catSummary <> []
   /\ generateNeutralTitle (Some (title Examples.flood1)) None
                           (Some Examples.catSummary)
      = Examples.catSummary
   /\ hasGenericPhrase
        (generateNeutralTitle (Some (title Examples.flood1))
                              None (Some Examples.catSummary)) = true)
  /\ (Samples.shortSummary <> []
      /\ generateNeutralTitle (Some Samples.storyTitle) None
                              (Some Samples.shortSummary)
         = lit "Story 4567890123"
      /\ isStoryNumber
           (generateNeutralTitle (Some Samples.storyTitle) None
                                 (Some Samples.shortSummary)) = true
      /\ isStoryNumber Samples.storyTitle = false
      /\ isStoryNumber Samples.shortSummary = false)
  /\ ~ (forall (title description : option jsstring) (summary : jsstring),
          summary <> [] ->
          hasGenericPhrase
            (generateNeutralTitle title description (Some summary)) = false)
  /\ ~ (forall (title description : option jsstring) (summary : jsstring),
          summary <> [] ->
          isStoryNumber
            (generateNeutralTitle title description (Some summary)) = false)
  /\ ~ (forall (title description : option jsstring) (summary : jsstring),
          summary <> [] ->
          matchesGenericPattern
            (generateNeutralTitle title description (Some summary)) = false).
Proof.
  assert (Hcat : hasGenericPhrase
                   (generateNeutralTitle
                      (Some (title Examples.flood1)) None
                      (Some Examples.catSummary)) = true)
    by (vm_compute; reflexivity).
  assert (Hstory : isStoryNumber
                     (generateNeutralTitle (Some Samples.storyTitle) None
                                           (Some Samples.shortSummary)) = true)
    by (vm_compute; reflexivity).
  split; [|split; [|split; [|split]]].
  - split; [discriminate|]. split; [vm_compute; reflexivity | exact Hcat].
  - split; [discriminate|]. split; [vm_compute; reflexivity|].
    split; [exact Hstory|]. split; vm_compute; reflexivity.
  - intros Hclaim.
    specialize (Hclaim (Some (title Examples.flood1)) None
                       Examples.catSummary).
    rewrite Hclaim in Hcat; [discriminate Hcat | discriminate].
  - intros Hclaim.
    specialize (Hclaim (Some Samples.storyTitle) None Samples.shortSummary).
    rewrite Hclaim in Hstory; [discriminate Hstory | discriminate].
  - intros Hclaim.
    specialize (Hclaim (Some Samples.storyTitle) None Samples.shortSummary).
    unfold matchesGenericPattern in Hclaim.
    rewrite Hstory, orb_true_r in Hclaim.
    discriminate Hclaim. discriminate.
Qed.

End TitleFacts.

(** ** The endpoint *)

Module RouteFacts.
Import Aggregate PaginationFacts.

(** C9. When the [page] query parameter is present (a non-empty string)
    but [parseInt] finds no integer in it, the page number is [NaN], the
    clamp [Math.max(1, Math.min(NaN, totalPages))] is [NaN] and not a value
    in [[1, totalPages]], and the slice of the group list is empty: the
    response of the endpoint carries a non-numeric [currentPage] and no
    groups, where page 1 would have carried the first groups. *)
Theorem unparseable_page_yields_NaN_and_no_groups
  (T : Type) (summarizedGroups : list T) (page : jsstring) :
  page <> [] ->
  parseInt page = NaN ->
  pageNumOf (Some page) = NaN
  /\ (forall totalPages : Z,
        mathMax (Int 1) (mathMin NaN (Int totalPages)) = NaN)
  /\ currentPage (snd (paginate summarizedGroups (pageNumOf (Some page)))) = NaN
  /\ (forall cp : Z,
        currentPage (snd (paginate summarizedGroups (pageNumOf (Some page))))
        <> Int cp)
  /\ fst (paginate summarizedGroups (pageNumOf (Some page))) = []
  /\ (summarizedGroups <> [] ->
      fst (paginate summarizedGroups (pageNumOf (Some page)))
      <> fst (paginate summarizedGroups (Int 1)))
  /\ (forall (P : Platform) (svc : Summarizer.Service)
             (guardian gdelt currents : list Normalize.RawRecord),
        exists response,
          aggregate P svc guardian gdelt currents (Some page) = Some response
          /\ groups response = []
          /\ match pagination response with
             | Some info => currentPage info = NaN
             | None =>
                 Normalize.normalizeArticles P guardian (lit "guardian")
                 ++ Normalize.normalizeArticles P gdelt (lit "gdelt")
                 ++ Normalize.normalizeArticles P currents (lit "currents")
                 = []
             end).
Proof.
  intros Hne Hnan.
  assert (Hp : pageNumOf (Some page) = NaN).
  { unfold pageNumOf. simpl. destruct page; [congruence|]. simpl. exact Hnan. }
  rewrite Hp, paginate_NaN. cbn [fst snd currentPage mathMax mathMin].
  split; [reflexivity|]. split; [reflexivity|]. split; [reflexivity|].
  split; [discriminate|]. split; [reflexivity|]. split.
  - intros Hg. rewrite paginate_int. cbn [fst].
    destruct summarizedGroups as [|g rest]; [congruence|].
    assert (Hcp : Z.max 1 (Z.min 1 (Z.max 1 (ceilDiv (length (g :: rest))
                                                     GROUPS_PER_PAGE))) = 1%Z)
      by lia.
    rewrite Hcp. simpl. discriminate.
  - intros P svc guardian gdelt currents. unfold aggregate. rewrite Hp.
    destruct (Normalize.normalizeArticles P guardian (lit "guardian")
              ++ Normalize.normalizeArticles P gdelt (lit "gdelt")
              ++ Normalize.normalizeArticles P currents (lit "currents"))
      as [|a pool] eqn:E.
    + eexists. split; [reflexivity|]. split; reflexivity.
    + destruct (GrouperFacts.groupSimilarArticles_returns P (a :: pool) (3 # 10))
        as [clusters Hc].
      rewrite Hc, paginate_NaN.
      eexists. split; [reflexivity|]. split; reflexivity.
Qed.

Lemma unparseable_page_yields_NaN_and_no_groups_witness :
  parseInt (lit "abc") = NaN
  /\ currentPage (snd (paginate (seq 0 25) (pageNumOf (Some (lit "abc"))))) = NaN
  /\ fst (paginate (seq 0 25) (pageNumOf (Some (lit "abc")))) = [].
Proof.
  destruct (@unparseable_page_yields_NaN_and_no_groups nat (seq 0 25) (lit "abc"))
    as (_ & _ & H1 & _ & H2 & _).
  - discriminate.
  - reflexivity.
  - split; [reflexivity|]. split; [exact H1 | exact H2].
Defined.

End RouteFacts.

(** ** The order of sorted arrays *)

Module SortLaws.
Import Notions.

Section ByKey.
Variable T : Type.
Variable key : T -> Z.

Local Abbreviation cmp := (fun a b : T => (key b - key a)%Z).

Lemma insertSorted_descending (x : T) (l : list T) :
  descendingBy key l -> descendingBy key (Js.insertSorted cmp x l).
Proof.
  unfold descendingBy. induction 1 as [|y l Hl IH Hy]; simpl.
  - repeat constructor.
  - destruct (Z.leb_spec (key y - key x) 0) as [Hle|Hgt].
    + constructor; [now constructor|].
      constructor; [lia|].
      eapply Forall_impl; [|exact Hy]. simpl. intros z Hz. lia.
    + constructor; [assumption|].
      assert (Hperm : Permutation (Js.insertSorted cmp x l) (x :: l))
        by apply JsFacts.insertSorted_perm.
      eapply Permutation_Forall; [symmetry; exact Hperm|].
      constructor; [lia | assumption].
Qed.

Lemma sort_descending (l : list T) : descendingBy key (Js.sort cmp l).
Proof.
  induction l as [|x l IH]; simpl.
  - constructor.
  - now apply insertSorted_descending.
Qed.

Lemma insertSorted_withKey (k : Z) (x : T) (l : list T) :
  withKey key k (Js.insertSorted cmp x l) = withKey key k (x :: l).
Proof.
  unfold withKey. induction l as [|y l IH]; simpl; [reflexivity|].
  destruct (Z.leb_spec (key y - key x) 0) as [Hle|Hgt]; [reflexivity|].
  simpl. rewrite IH. simpl.
  destruct (Z.eqb_spec (key y) k) as [Hy|Hy];
    destruct (Z.eqb_spec (key x) k) as [Hx|Hx]; try reflexivity.
  lia.
Qed.

(** Sorting is stable: the elements of one key keep their order. *)
Lemma sort_withKey (k : Z) (l : list T) :
  withKey key k (Js.sort cmp l) = withKey key k l.
Proof.
  induction l as [|x l IH]; simpl; [reflexivity|].
  rewrite insertSorted_withKey. unfold withKey in *. simpl. now rewrite IH.
Qed.

Lemma sort_constant_key (l : list T) :
  (forall x y, In x l -> In y l -> key x = key y) -> Js.sort cmp l = l.
Proof.
  induction l as [|x l IH]; intros Hk; simpl; [reflexivity|].
  rewrite IH by (intros; apply Hk; now right).
  destruct l as [|y l]; [reflexivity|]. simpl.
  rewrite (Hk x y) by (simpl; auto).
  rewrite Z.sub_diag. reflexivity.
Qed.

End ByKey.

End SortLaws.

(** ** Decimal numerals *)

Module NumeralFacts.

Lemma lit_injective (s t : string) : lit s = lit t -> s = t.
Proof.
  unfold lit. intros H.
  rewrite <- (string_of_list_ascii_of_string s),
          <- (string_of_list_ascii_of_string t).
  now rewrite H.
Qed.

Lemma string_of_uint_injective (d e : Decimal.uint) :
  NilEmpty.string_of_uint d = NilEmpty.string_of_uint e -> d = e.
Proof.
  intros H. assert (E : Some d = Some e).
  { rewrite <- (NilEmpty.usu d), <- (NilEmpty.usu e). now rewrite H. }
  now injection E.
Qed.

Lemma ofNat_injective (m n : nat) : ofNat m = ofNat n -> m = n.
Proof.
  unfold ofNat. intros H.
  apply lit_injective, string_of_uint_injective in H.
  rewrite <- (DecimalNat.Unsigned.of_to m), <- (DecimalNat.Unsigned.of_to n).
  now rewrite H.
Qed.

(** The characters of a numeral are digits, and reading them back gives
    the number. *)
Lemma numeral_digits (d : Decimal.uint) (acc : nat) :
  takeDigits (lit (NilEmpty.string_of_uint d)) = lit (NilEmpty.string_of_uint d)
  /\ fold_left (fun a c => (a * 10 + Z.of_nat (code c - 48))%Z)
               (lit (NilEmpty.string_of_uint d)) (Z.of_nat acc)
     = Z.of_nat (Nat.of_uint_acc d acc).
Proof.
  revert acc. unfold lit.
  induction d as [|d IH|d IH|d IH|d IH|d IH|d IH|d IH|d IH|d IH|d IH];
    intros acc; simpl NilEmpty.string_of_uint; simpl list_ascii_of_string;
    [split; reflexivity| | | | | | | | | |];
    cbn [takeDigits fold_left Nat.of_uint_acc];
    rewrite Nat.tail_mul_spec;
    (split;
     [ match goal with
       | |- (if isDigit ?c then _ else _) = _ => change (isDigit c) with true
       end;
       cbv iota; f_equal; apply (IH 0)
     | match goal with
       | |- fold_left _ _ (_ + Z.of_nat (code ?c - 48))%Z
            = Z.of_nat (Nat.of_uint_acc _ ?n) =>
           let v := eval vm_compute in (Z.of_nat (code c - 48)) in
           change (Z.of_nat (code c - 48)) with v;
           replace (Z.of_nat acc * 10 + v)%Z with (Z.of_nat n) by lia;
           apply IH
       end ]).
Qed.

Lemma to_uint_nonempty (n : nat) : lit (NilEmpty.string_of_uint (Nat.to_uint n)) <> [].
Proof.
  intros H. change [] with (lit "") in H. apply lit_injective in H.
  change ""%string with (NilEmpty.string_of_uint Decimal.Nil) in H.
  apply string_of_uint_injective in H.
  pose proof (DecimalNat.Unsigned.to_of (Nat.to_uint n)) as E.
  rewrite DecimalNat.Unsigned.of_to, H in E.
  symmetry in E. now apply DecimalFacts.unorm_nonnil in E.
Qed.

Lemma ofNat_first_digit (n : nat) :
  exists c rest, ofNat n = c :: rest /\ isDigit c = true.
Proof.
  pose proof (to_uint_nonempty n) as Hne.
  destruct (numeral_digits (Nat.to_uint n) 0) as [Ht _].
  unfold ofNat. destruct (lit (NilEmpty.string_of_uint (Nat.to_uint n)))
    as [|c rest]; [congruence|].
  exists c, rest. split; [reflexivity|].
  simpl in Ht. destruct (isDigit c); [reflexivity | discriminate].
Qed.

Lemma digit_code (c : ascii) : isDigit c = true -> 48 <= code c <= 57.
Proof.
  unfold isDigit. intros H. apply andb_prop in H. destruct H as [H1 H2].
  apply Nat.leb_le in H1, H2. lia.
Qed.

(** [parseInt] reads a decimal numeral back. *)
Lemma parseInt_ofNat (n : nat) : parseInt (ofNat n) = Int (Z.of_nat n).
Proof.
  destruct (ofNat_first_digit n) as (c & rest & E & Hc).
  destruct (numeral_digits (Nat.to_uint n) 0) as [Ht Hv].
  fold (ofNat n) in Ht, Hv.
  apply digit_code in Hc.
  assert (Hsp : isSpace c = false).
  { unfold isSpace.
    destruct (Nat.leb_spec (code c) 13); [lia|].
    destruct (Nat.eqb_spec (code c) 32); [lia|].
    destruct (Nat.eqb_spec (code c) 160); [lia|].
    now rewrite andb_false_r. }
  assert (H45 : (code c =? 45) = false) by (apply Nat.eqb_neq; lia).
  assert (H43 : (code c =? 43) = false) by (apply Nat.eqb_neq; lia).
  unfold parseInt. rewrite E. cbn [dropWhile]. rewrite Hsp, H45, H43.
  rewrite <- E, Ht. rewrite E at 1. rewrite <- E.
  unfold digitsValue. change 0%Z with (Z.of_nat 0). rewrite Hv.
  fold (Nat.of_uint (Nat.to_uint n)). now rewrite DecimalNat.Unsigned.of_to.
Qed.

End NumeralFacts.

(** ** Laws of the similarity score *)

Module SimilarityLaws.
Import Similarity.

Lemma jaccard_sym (set1 set2 : list jsstring) :
  jaccardSimilarity set1 set2 = jaccardSimilarity set2 set1.
Proof.
  unfold jaccardSimilarity.
  destruct set1 as [|x s1], set2 as [|y s2]; try reflexivity.
  set (a := x :: s1). set (b := y :: s2).
  assert (Hi : length (mkSet (filter (has b) a)) = length (mkSet (filter (has a) b))).
  { apply JsFacts.same_elements_length; try apply JsFacts.mkSet_NoDup.
    intros z. rewrite !JsFacts.mkSet_In, !filter_In, !JsFacts.has_In. tauto. }
  assert (Hu : length (mkSet (a ++ b)) = length (mkSet (b ++ a))).
  { apply JsFacts.same_elements_length; try apply JsFacts.mkSet_NoDup.
    intros z. rewrite !JsFacts.mkSet_In, !in_app_iff. tauto. }
  now rewrite Hi, Hu.
Qed.

Lemma str_eqb_sym (a b : jsstring) : str_eqb a b = str_eqb b a.
Proof.
  unfold str_eqb. destruct (str_eq_dec a b), (str_eq_dec b a); congruence.
Qed.

Section WithPlatform.
Variable P : Platform.

Lemma timeBonus_sym (a b : NormalizedArticle) : timeBonus P a b = timeBonus P b a.
Proof.
  unfold timeBonus. rewrite (andb_comm (truthy (publishedAt a))).
  destruct (truthy (publishedAt b) && truthy (publishedAt a)); [|reflexivity].
  destruct (dateParse P (publishedAt a)) as [d1|],
           (dateParse P (publishedAt b)) as [d2|]; try reflexivity.
  replace (Z.abs (d2 - d1)) with (Z.abs (d1 - d2)) by lia. reflexivity.
Qed.

Lemma urlBonus_sym (a b : NormalizedArticle) : urlBonus P a b = urlBonus P b a.
Proof.
  unfold urlBonus.
  destruct (urlHostname P (url a)) as [h1|], (urlHostname P (url b)) as [h2|];
    try reflexivity.
  now rewrite str_eqb_sym.
Qed.

Lemma similarity_sym (a b : NormalizedArticle) :
  calculateSimilarity P a b = calculateSimilarity P b a.
Proof.
  unfold calculateSimilarity.
  now rewrite jaccard_sym, timeBonus_sym, urlBonus_sym.
Qed.

End WithPlatform.

(** X1. The similarity of two articles does not depend on their order. *)
Theorem similarity_symmetric (P : Platform) (a b : NormalizedArticle) :
  calculateSimilarity P a b = calculateSimilarity P b a
  /\ jaccardSimilarity (mkSet (extractKeyTerms (articleText a) 10))
                       (mkSet (extractKeyTerms (articleText b) 10))
     = jaccardSimilarity (mkSet (extractKeyTerms (articleText b) 10))
                         (mkSet (extractKeyTerms (articleText a) 10))
  /\ timeBonus P a b = timeBonus P b a
  /\ urlBonus P a b = urlBonus P b a.
Proof.
  split; [apply similarity_sym|]. split; [apply jaccard_sym|].
  split; [apply timeBonus_sym | apply urlBonus_sym].
Qed.

(** X2. When the Jaccard index is 1 and when it is 0.  It is 1 exactly
    when the two sets have the same elements (two empty sets included), and
    0 exactly when they share no element and are not both empty. *)
Theorem jaccard_extremes (set1 set2 : list jsstring) :
  ((jaccardSimilarity set1 set2 == 1)%Q <->
   (forall x, In x set1 <-> In x set2))
  /\ ((jaccardSimilarity set1 set2 == 0)%Q <->
      (set1 <> [] \/ set2 <> [])
      /\ forall x, In x set1 -> ~ In x set2).
Proof.
  unfold jaccardSimilarity.
  destruct set1 as [|x s1], set2 as [|y s2].
  - split; split.
    + tauto.
    + reflexivity.
    + intros H. discriminate H.
    + intros [[H|H] _]; congruence.
  - split; split.
    + intros H. discriminate H.
    + intros H. destruct (proj2 (H y)). now left.
    + intros _. split; [right; discriminate | intros z []].
    + reflexivity.
  - split; split.
    + intros H. discriminate H.
    + intros H. destruct (proj1 (H x)). now left.
    + intros _. split; [left; discriminate | intros z _ []].
    + reflexivity.
  - set (a := x :: s1). set (b := y :: s2).
    pose proof (JsFacts.mkSet_NoDup (filter (has b) a)) as Hni.
    pose proof (JsFacts.mkSet_NoDup (a ++ b)) as Hnu.
    assert (Hu : length (mkSet (a ++ b)) <> 0).
    { intros H. apply length_zero_iff_nil in H.
      apply JsFacts.mkSet_nil_inv in H. discriminate. }
    assert (Hincl : incl (mkSet (filter (has b) a)) (mkSet (a ++ b))).
    { intros z Hz. rewrite JsFacts.mkSet_In in Hz. apply filter_In in Hz.
      rewrite JsFacts.mkSet_In. apply in_or_app. left. tauto. }
    unfold Qeq. cbn [Qnum Qden]. rewrite (SimilarityFacts.pos_of_nat_Z Hu).
    split; split.
    + intros H.
      assert (Hback : incl (mkSet (a ++ b)) (mkSet (filter (has b) a))).
      { apply NoDup_length_incl; [assumption | lia | assumption]. }
      assert (Hall : forall z, In z a \/ In z b -> In z a /\ In z b).
      { intros z Hz. apply in_or_app, JsFacts.mkSet_In, Hback in Hz.
        apply JsFacts.mkSet_In, filter_In in Hz.
        rewrite JsFacts.has_In in Hz. exact Hz. }
      intros z. split; intros Hz; apply Hall; auto.
    + intros H.
      assert (E : length (mkSet (filter (has b) a)) = length (mkSet (a ++ b))).
      { apply JsFacts.same_elements_length; try assumption.
        intros z.
        rewrite !JsFacts.mkSet_In, filter_In, in_app_iff, JsFacts.has_In.
        specialize (H z). tauto. }
      lia.
    + intros H.
      assert (E : mkSet (filter (has b) a) = [])
        by (apply length_zero_iff_nil; lia).
      apply JsFacts.mkSet_nil_inv in E.
      split; [left; discriminate|].
      intros z Hz Hzb.
      assert (Hin : In z (filter (has b) a))
        by (apply filter_In; split; [assumption | now apply JsFacts.has_In]).
      rewrite E in Hin. destruct Hin.
    + intros [_ H].
      assert (E : filter (has b) a = []).
      { destruct (filter (has b) a) as [|z r] eqn:F; [reflexivity|].
        assert (Hin : In z (filter (has b) a)) by (rewrite F; now left).
        apply filter_In in Hin. destruct Hin as [Hz Hb].
        apply JsFacts.has_In in Hb. now apply H in Hz. }
      rewrite E. reflexivity.
Qed.

Lemma jaccard_disjoint (set1 set2 : list jsstring) :
  set1 <> [] \/ set2 <> [] ->
  (forall x, In x set1 -> ~ In x set2) ->
  (jaccardSimilarity set1 set2 == 0)%Q.
Proof.
  intros Hne Hdis. unfold jaccardSimilarity.
  destruct set1 as [|x s1], set2 as [|y s2]; try reflexivity.
  - destruct Hne; congruence.
  - assert (E : filter (has (y :: s2)) (x :: s1) = []).
    { destruct (filter (has (y :: s2)) (x :: s1)) as [|z r] eqn:F;
        [reflexivity|].
      assert (Hin : In z (filter (has (y :: s2)) (x :: s1)))
        by (rewrite F; now left).
      apply filter_In in Hin. destruct Hin as [Hz Hb].
      apply JsFacts.has_In in Hb. now apply Hdis in Hz. }
    rewrite E. reflexivity.
Qed.

Lemma disjoint_sets (set1 set2 : list jsstring) :
  forallb (fun x => negb (has set2 x)) set1 = true ->
  forall x, In x set1 -> ~ In x set2.
Proof.
  intros H x Hx Hx2. rewrite forallb_forall in H. specialize (H x Hx).
  apply JsFacts.has_In in Hx2. now rewrite Hx2 in H.
Qed.

(** X25. What the score is without a shared key term.  Take two articles
    in whose texts no counted word names a property that the counting
    object inherits.  If neither of them has a key term, they score 1,
    whatever else they say; if they have no key term in common and at least
    one of them has a key term, their score is below 0.3, the threshold
    that the route uses. *)
Theorem similarity_without_shared_terms (P : Platform)
  (a b : NormalizedArticle) :
  Notions.plainWords (articleText a) = true ->
  Notions.plainWords (articleText b) = true ->
  let terms1 := mkSet (extractKeyTerms (articleText a) 10) in
  let terms2 := mkSet (extractKeyTerms (articleText b) 10) in
  (terms1 = [] -> terms2 = [] -> calculateSimilarity P a b = 1%Q)
  /\ (terms1 <> [] \/ terms2 <> [] ->
      (forall x, In x terms1 -> ~ In x terms2) ->
      (calculateSimilarity P a b < 3 # 10)%Q).
Proof.
  intros _ _. cbv zeta. unfold calculateSimilarity. split.
  - intros -> ->. apply SimilarityFacts.min1_of_ge_1.
    destruct (SimilarityFacts.bonuses_nonneg P a b) as [Ht Hu].
    change (jaccardSimilarity [] []) with 1%Q.
    apply Qle_trans with (1 + 0 + 0)%Q; [apply Qle_refl|].
    apply Qplus_le_compat; [|assumption].
    apply Qplus_le_compat; [apply Qle_refl | assumption].
  - intros Hne Hdis.
    pose proof (jaccard_disjoint Hne Hdis) as HJ.
    set (J := jaccardSimilarity _ _) in *.
    assert (Hx : (J + timeBonus P a b + urlBonus P a b
                  == timeBonus P a b + urlBonus P a b)%Q)
      by (rewrite HJ; apply Qplus_comp; [apply Qplus_0_l | reflexivity]).
    assert (Hsmall : (timeBonus P a b + urlBonus P a b <= 15 # 100)%Q).
    { destruct (SimilarityFacts.timeBonus_values P a b) as [-> | ->],
               (SimilarityFacts.urlBonus_values P a b) as [-> | ->];
        unfold Qle; cbn; lia. }
    assert (Hmin : min1 (J + timeBonus P a b + urlBonus P a b)
                   = (J + timeBonus P a b + urlBonus P a b)%Q).
    { unfold min1.
      destruct (Qle_bool 1 (J + timeBonus P a b + urlBonus P a b)) eqn:E;
        [|reflexivity].
      apply Qle_bool_iff in E. rewrite Hx in E. exfalso.
      apply (Qle_not_lt _ _ (Qle_trans _ _ _ E Hsmall)). reflexivity. }
    rewrite Hmin, Hx.
    eapply Qle_lt_trans; [exact Hsmall | reflexivity].
Qed.

Lemma similarity_without_shared_terms_witness :
  calculateSimilarity Examples.platform Samples.terse1 Samples.terse2 = 1%Q
  /\ (calculateSimilarity Examples.platform Examples.budget Examples.comet
      < 3 # 10)%Q.
Proof.
  split.
  - apply (@similarity_without_shared_terms Examples.platform
             Samples.terse1 Samples.terse2); reflexivity.
  - apply (@similarity_without_shared_terms Examples.platform
             Examples.budget Examples.comet); try reflexivity.
    + left. discriminate.
    + apply disjoint_sets. reflexivity.
Defined.

End SimilarityLaws.

(** ** Key terms *)

Module KeyTermFacts.
Import Similarity Notions.

Lemma str_eqb_false (a b : jsstring) : str_eqb a b = false <-> a <> b.
Proof.
  split.
  - intros E H. apply JsFacts.str_eqb_true in H. congruence.
  - intros H. destruct (str_eqb a b) eqn:E; [|reflexivity].
    apply JsFacts.str_eqb_true in E. contradiction.
Qed.

Lemma countOf_countWord (w x : jsstring) (wc : list (jsstring * nat)) :
  countOf w (countWord x wc)
  = countOf w wc + (if str_eqb x w then 1 else 0).
Proof.
  unfold countOf. induction wc as [|[k n] wc IH]; cbn [countWord find fst snd].
  - destruct (str_eqb x w); reflexivity.
  - destruct (str_eqb k x) eqn:Ekx; cbn [find fst snd].
    + apply JsFacts.str_eqb_true in Ekx. subst k.
      destruct (str_eqb x w); cbn [snd]; lia.
    + destruct (str_eqb k w) eqn:Ekw; [|exact IH].
      apply JsFacts.str_eqb_true in Ekw. subst k.
      destruct (str_eqb x w) eqn:Exw; [|cbn [snd]; lia].
      apply JsFacts.str_eqb_true in Exw. subst x.
      rewrite JsFacts.str_eqb_refl in Ekx. discriminate.
Qed.

Lemma keys_countWord (x : jsstring) (wc : list (jsstring * nat)) :
  NoDup (map fst wc) ->
  NoDup (map fst (countWord x wc))
  /\ forall k, In k (map fst (countWord x wc)) <-> k = x \/ In k (map fst wc).
Proof.
  induction wc as [|[k n] wc IH]; intros Hnd; cbn [countWord map fst].
  - split; [repeat constructor; intros []|]. intros k. simpl. intuition.
  - inversion Hnd as [|? ? Hnot Hnd']. subst.
    destruct (str_eqb k x) eqn:Ekx; cbn [map fst].
    + apply JsFacts.str_eqb_true in Ekx. subst k.
      split; [assumption|]. intros k. simpl. intuition.
    + apply str_eqb_false in Ekx. destruct (IH Hnd') as [H1 H2].
      split.
      * constructor; [|assumption]. rewrite H2. intros [->|H]; auto.
      * intros k'. simpl. rewrite H2. intuition.
Qed.

Lemma countOf_In (w : jsstring) (n : nat) (wc : list (jsstring * nat)) :
  NoDup (map fst wc) -> In (w, n) wc -> countOf w wc = n.
Proof.
  unfold countOf. induction wc as [|[k m] wc IH]; intros Hnd Hin;
    [destruct Hin|].
  inversion Hnd as [|? ? Hnot Hnd']. subst. cbn [find fst].
  destruct Hin as [[= -> ->]|Hin].
  - now rewrite JsFacts.str_eqb_refl.
  - destruct (str_eqb k w) eqn:E; [|now apply IH].
    apply JsFacts.str_eqb_true in E. subst k.
    elim Hnot. apply in_map_iff. now exists (w, n).
Qed.

Lemma frequency_snoc (ws : list jsstring) (x w : jsstring) :
  frequency (x :: ws) w = (if str_eqb x w then 1 else 0) + frequency ws w.
Proof.
  unfold frequency. cbn [count_occ].
  destruct (str_eq_dec x w) as [->|Hne].
  - now rewrite JsFacts.str_eqb_refl.
  - apply str_eqb_false in Hne. now rewrite Hne.
Qed.

(** What the counting loop leaves in the object. *)
Lemma counting_loop (ws : list jsstring) :
  forall init,
    NoDup (map fst init) ->
    let wc := fold_left (fun wc word => countWord word wc) ws init in
    NoDup (map fst wc)
    /\ (forall k, In k (map fst wc) <-> In k (map fst init) \/ In k ws)
    /\ (forall w, countOf w wc = countOf w init + frequency ws w).
Proof.
  induction ws as [|x ws IH]; intros init Hnd; cbn [fold_left].
  - split; [assumption|]. split; [intros k; simpl; tauto|].
    intros w. unfold frequency. simpl. lia.
  - destruct (@keys_countWord x init Hnd) as [H1 H2].
    destruct (IH (countWord x init) H1) as (H3 & H4 & H5).
    split; [assumption|]. split.
    + intros k. rewrite H4, H2. simpl. intuition.
    + intros w. rewrite H5, countOf_countWord, frequency_snoc. lia.
Qed.

Lemma partition_perm (T : Type) (p : T -> bool) (l : list T) :
  Permutation (filter p l ++ filter (fun x => negb (p x)) l) l.
Proof.
  induction l as [|x l IH]; [constructor|]. cbn [filter].
  destruct (p x); cbn [negb app].
  - now constructor.
  - rewrite <- Permutation_middle. now constructor.
Qed.

Lemma entries_perm (wc : list (jsstring * nat)) : Permutation (entries wc) wc.
Proof.
  unfold entries. rewrite JsFacts.sort_perm. apply partition_perm.
Qed.

Lemma mkSet_of_NoDup (l : list jsstring) : NoDup l -> mkSet l = l.
Proof.
  unfold mkSet. change l with (rev [] ++ l) at 1 3.
  generalize (@nil jsstring) as seen. induction l as [|x l IH]; intros seen Hnd.
  - cbn [dedupeInto]. now rewrite List.app_nil_r.
  - cbn [dedupeInto].
    assert (Hx : existsb (str_eqb x) seen = false).
    { destruct (existsb (str_eqb x) seen) eqn:E; [|reflexivity].
      apply (JsFacts.has_In seen x) in E.
      apply NoDup_remove_2 in Hnd. elim Hnd.
      apply in_or_app. left. now apply in_rev in E. }
    rewrite Hx, (IH (x :: seen)).
    + cbn [rev]. now rewrite <- app_assoc.
    + cbn [rev]. now rewrite <- app_assoc.
Qed.

Lemma sorted_split (T : Type) (R : T -> T -> Prop) (n : nat) (l : list T) :
  Sorted.StronglySorted R l ->
  Sorted.StronglySorted R (firstn n l)
  /\ forall x y, In x (firstn n l) -> In y (skipn n l) -> R x y.
Proof.
  revert l. induction n as [|n IH]; intros l Hs.
  - cbn [firstn skipn]. split; [constructor | intros x y []].
  - destruct l as [|a l]; cbn [firstn skipn];
      [split; [constructor | intros x y []]|].
    inversion Hs as [|? ? Hl Ha]. subst. destruct (IH l Hl) as [H1 H2].
    split.
    + constructor; [assumption|].
      rewrite Forall_forall in *. intros x Hx. apply Ha.
      rewrite <- (firstn_skipn n l). apply in_or_app. now left.
    + intros x y [<-|Hx] Hy; [|now apply H2].
      rewrite Forall_forall in Ha. apply Ha.
      rewrite <- (firstn_skipn n l). apply in_or_app. now right.
Qed.

Lemma sorted_map (T U : Type) (R : U -> U -> Prop) (f : T -> U) (l : list T) :
  Sorted.StronglySorted (fun a b => R (f a) (f b)) l ->
  Sorted.StronglySorted R (map f l).
Proof.
  induction 1 as [|a l Hl IH Ha]; cbn [map]; constructor; [assumption|].
  rewrite Forall_forall in *. intros y Hy. apply in_map_iff in Hy.
  destruct Hy as (x & <- & Hx). now apply Ha.
Qed.

(** X3. [extractKeyTerms] returns the most frequent words.  For a text
    in which no counted word names a property that the counting object
    inherits ([constructor], [__proto__]), the result has at most [maxTerms]
    terms and no term twice, so that making a set of it changes nothing;
    every term is one of the counted words of the text, longer than three
    characters; the terms are in descending order of how often they occur;
    and a counted word that is left out occurs no more often than any term
    that is in, which can only happen when the result is full. *)
Theorem key_terms_most_frequent (text : jsstring) (maxTerms : nat) :
  plainWords text = true ->
  let terms := extractKeyTerms text maxTerms in
  let ws := wordsOf text in
  length terms <= maxTerms
  /\ NoDup terms
  /\ mkSet terms = terms
  /\ (forall t, In t terms -> In t ws /\ 3 < length t /\ 1 <= frequency ws t)
  /\ Sorted.StronglySorted (fun a b => frequency ws b <= frequency ws a) terms
  /\ (forall w, In w ws -> ~ In w terms ->
        length terms = maxTerms
        /\ forall t, In t terms -> frequency ws w <= frequency ws t).
Proof.
  intros _. cbv zeta. unfold extractKeyTerms. fold (wordsOf text).
  set (ws := wordsOf text).
  destruct (@counting_loop ws [] (NoDup_nil _)) as (Hnd & Hkeys & Hcount).
  cbv zeta in Hnd, Hkeys, Hcount.
  set (wc := fold_left (fun wc word => countWord word wc) ws []) in *.
  set (byCount := fun a b : jsstring * nat =>
                    (Z.of_nat (snd b) - Z.of_nat (snd a))%Z).
  set (sorted := Js.sort byCount (entries wc)).
  assert (Hperm : Permutation sorted wc).
  { unfold sorted. rewrite JsFacts.sort_perm. apply entries_perm. }
  assert (Hsorted : descendingBy (fun e => Z.of_nat (snd e)) sorted)
    by apply (SortLaws.sort_descending (fun e => Z.of_nat (snd e))).
  assert (Hfreq : forall e, In e sorted -> snd e = frequency ws (fst e)).
  { intros [w n] He. cbn [fst snd].
    apply (Permutation_in _ Hperm) in He.
    rewrite <- (@countOf_In w n wc Hnd He), Hcount. reflexivity. }
  assert (Hin : forall e, In e sorted -> In (fst e) ws).
  { intros e He. apply (Permutation_in _ Hperm) in He.
    destruct (proj1 (Hkeys (fst e))) as [[]|H]; [now apply in_map | exact H]. }
  assert (Hndk : NoDup (map fst sorted)).
  { eapply Permutation_NoDup; [|exact Hnd].
    apply Permutation_map. now symmetry. }
  assert (Hsub : forall e, In e (firstn maxTerms sorted) -> In e sorted).
  { intros e He. rewrite <- (firstn_skipn maxTerms sorted).
    apply in_or_app. now left. }
  destruct (sorted_split maxTerms Hsorted) as [Hhead Hcut].
  assert (Hterms : NoDup (map fst (firstn maxTerms sorted))).
  { rewrite <- (firstn_skipn maxTerms sorted), map_app in Hndk.
    now apply NoDup_app_remove_r in Hndk. }
  split; [rewrite length_map, length_firstn; lia|].
  split; [assumption|]. split; [now apply mkSet_of_NoDup|].
  split; [|split].
  - intros t Ht. apply in_map_iff in Ht. destruct Ht as (e & <- & He).
    apply Hsub in He. pose proof (Hin e He) as Hw. split; [assumption|].
    split.
    + unfold ws, wordsOf in Hw. apply filter_In in Hw.
      destruct Hw as [_ Hlen]. now apply Nat.ltb_lt in Hlen.
    + unfold frequency.
      apply (count_occ_In str_eq_dec) in Hw. lia.
  - apply sorted_map.
    assert (Hall : Forall (fun e => In e sorted) (firstn maxTerms sorted))
      by (apply Forall_forall; exact Hsub).
    clear - Hhead Hall Hfreq. unfold descendingBy in Hhead.
    induction Hhead as [|a l Hl IH Ha]; constructor.
    + apply IH. now inversion Hall.
    + inversion Hall as [|? ? Hina Hinl]. subst.
      rewrite Forall_forall in *. intros b Hb.
      rewrite <- (Hfreq a Hina), <- (Hfreq b (Hinl b Hb)).
      specialize (Ha b Hb). cbn beta in Ha. lia.
  - intros w Hw Hout.
    assert (Hk : In w (map fst sorted)).
    { eapply Permutation_in; [apply Permutation_map; symmetry; exact Hperm|].
      apply Hkeys. now right. }
    apply in_map_iff in Hk. destruct Hk as (e & <- & He).
    rewrite <- (firstn_skipn maxTerms sorted) in He.
    apply in_app_or in He. destruct He as [He|He].
    { elim Hout. now apply in_map. }
    split.
    + rewrite length_map, length_firstn.
      destruct (Nat.le_gt_cases (length sorted) maxTerms) as [Hle|Hgt]; [|lia].
      rewrite skipn_all2 in He by assumption. destruct He.
    + intros t Ht. apply in_map_iff in Ht. destruct Ht as (e' & <- & He').
      pose proof (Hcut e' e He' He) as Hc. cbn beta in Hc.
      rewrite <- (Hfreq e), <- (Hfreq e' (Hsub e' He')).
      * lia.
      * rewrite <- (firstn_skipn maxTerms sorted). apply in_or_app. now right.
Qed.

Lemma key_terms_most_frequent_witness :
  length (extractKeyTerms Samples.headline 2) <= 2
  /\ NoDup (extractKeyTerms Samples.headline 2)
  /\ mkSet (extractKeyTerms Samples.headline 2)
     = extractKeyTerms Samples.headline 2.
Proof.
  pose proof (@key_terms_most_frequent Samples.headline 2 eq_refl) as H.
  cbv zeta in H. destruct H as (H1 & H2 & H3 & _).
  split; [exact H1|]. split; [exact H2 | exact H3].
Defined.

End KeyTermFacts.

(** ** Normalized text *)

Module NormalizeTextFacts.
Import Similarity Vocabulary Notions.

Lemma lowerChar_not_upper (c : ascii) : isUpper (lowerChar c) = false.
Proof.
  destruct c as [[] [] [] [] [] [] [] []]; vm_compute; reflexivity.
Qed.

Lemma not_upper_term (c : ascii) :
  isUpper c = false -> isWordChar c = true -> isTermChar c = true.
Proof.
  unfold isWordChar, isTermChar, isAlpha. intros ->. now rewrite orb_false_l.
Qed.

Lemma term_not_space (c : ascii) : isTermChar c = true -> isSpace c = false.
Proof.
  destruct c as [[] [] [] [] [] [] [] []]; vm_compute; congruence.
Qed.

Lemma term_fixed (c : ascii) :
  isTermChar c = true ->
  lowerChar c = c /\ isWordChar c = true.
Proof.
  destruct c as [[] [] [] [] [] [] [] []]; vm_compute; intuition congruence.
Qed.

Lemma collapse_chars (s : jsstring) :
  Forall (fun c => isSpace c = true \/ isTermChar c = true) s ->
  forall b, Forall textChar (collapseWsFrom b s).
Proof.
  induction 1 as [|c s Hc Hs IH]; intros b; cbn [collapseWsFrom];
    [constructor|].
  destruct (isSpace c) eqn:E.
  - destruct b; [apply IH|]. constructor; [now left | apply IH].
  - constructor; [|apply IH]. destruct Hc; [congruence | now right].
Qed.

Lemma collapse_singleSpaced (s : jsstring) :
  forall b, singleSpaced b (collapseWsFrom b s) = true.
Proof.
  induction s as [|c s IH]; intros b; cbn [collapseWsFrom]; [reflexivity|].
  destruct (isSpace c) eqn:E.
  - destruct b; [apply IH|]. cbn [singleSpaced].
    change (isSpace space) with true. cbn [negb andb].
    destruct (ascii_dec space space); [apply IH | congruence].
  - cbn [singleSpaced]. rewrite E. apply IH.
Qed.

Lemma singleSpaced_fixed (s : jsstring) :
  forall b, singleSpaced b s = true -> collapseWsFrom b s = s.
Proof.
  induction s as [|c s IH]; intros b H; [reflexivity|].
  cbn [singleSpaced collapseWsFrom] in *. destruct (isSpace c).
  - destruct b; [discriminate|]. cbn [negb andb] in H.
    destruct (ascii_dec c space) as [->|]; [|discriminate].
    now rewrite IH.
  - now rewrite IH.
Qed.

Lemma singleSpaced_dropWhile (s : jsstring) :
  forall b, singleSpaced b s = true ->
            singleSpaced false (dropWhile isSpace s) = true.
Proof.
  induction s as [|c s IH]; intros b H; [reflexivity|].
  cbn [dropWhile]. destruct (isSpace c) eqn:E.
  - cbn [singleSpaced] in H. rewrite E in H.
    apply andb_prop in H. destruct H as [_ H]. now apply IH with true.
  - cbn [singleSpaced] in *. now rewrite E in *.
Qed.

Lemma singleSpaced_prefix (p q : jsstring) :
  forall b, singleSpaced b (p ++ q) = true -> singleSpaced b p = true.
Proof.
  induction p as [|c p IH]; intros b H; [reflexivity|].
  cbn [app singleSpaced] in *. destruct (isSpace c).
  - apply andb_prop in H. destruct H as [-> H]. cbn [andb]. now apply IH.
  - now apply IH.
Qed.

Lemma trimEnd_prefix (s : jsstring) : exists post, s = trimEnd s ++ post.
Proof.
  unfold trimEnd.
  destruct (TitleFacts.dropWhile_suffixOf isSpace (rev s)) as [pre Hpre].
  exists (rev pre). rewrite <- rev_app_distr, <- Hpre.
  now rewrite rev_involutive.
Qed.

Lemma dropWhile_head (p : ascii -> bool) (s : jsstring) (c : ascii)
  (r : jsstring) :
  dropWhile p s = c :: r -> p c = false.
Proof.
  induction s as [|d s IH]; cbn [dropWhile]; [discriminate|].
  destruct (p d) eqn:E; [exact IH|]. now intros [= <- <-].
Qed.

Lemma dropWhile_idem (p : ascii -> bool) (s : jsstring) :
  dropWhile p (dropWhile p s) = dropWhile p s.
Proof.
  destruct (dropWhile p s) as [|c r] eqn:E; [reflexivity|].
  apply dropWhile_head in E. cbn [dropWhile]. now rewrite E.
Qed.

Lemma trim_idem (s : jsstring) : trim (trim s) = trim s.
Proof.
  unfold trim at 1.
  assert (H : trimStart (trim s) = trim s).
  { unfold trim, trimStart.
    destruct (trimEnd_prefix (dropWhile isSpace s)) as [post Hp].
    destruct (trimEnd (dropWhile isSpace s)) as [|c r] eqn:E; [reflexivity|].
    cbn [app] in Hp. apply dropWhile_head in Hp.
    cbn [dropWhile]. now rewrite Hp. }
  rewrite H. unfold trim, trimEnd.
  now rewrite rev_involutive, dropWhile_idem.
Qed.

Lemma infix_Forall (Q : ascii -> Prop) (r x : jsstring) :
  infixOf r x -> Forall Q x -> Forall Q r.
Proof.
  intros (pre & post & ->) H.
  apply Forall_app in H. destruct H as [_ H].
  apply Forall_app in H. tauto.
Qed.

Lemma trim_singleSpaced (s : jsstring) (b : bool) :
  singleSpaced b s = true -> singleSpaced false (trim s) = true.
Proof.
  intros H. unfold trim, trimStart.
  apply singleSpaced_dropWhile in H.
  destruct (trimEnd_prefix (dropWhile isSpace s)) as [post Hp].
  rewrite Hp in H. now apply singleSpaced_prefix in H.
Qed.

(** The text that the three replacements and the trim leave. *)
Lemma normalizeText_shape (text : jsstring) :
  Forall textChar (normalizeText text)
  /\ singleSpaced false (normalizeText text) = true.
Proof.
  unfold normalizeText. destruct (truthy text); [|split; [constructor|reflexivity]].
  split.
  - eapply infix_Forall; [apply TitleFacts.trim_infixOf|].
    apply collapse_chars. unfold stripPunctuation, toLowerCase.
    rewrite map_map. apply Forall_forall. intros c Hc.
    apply in_map_iff in Hc. destruct Hc as (d & <- & _).
    destruct (isWordChar (lowerChar d)) eqn:Ew; cbn [orb].
    + right. apply not_upper_term; [apply lowerChar_not_upper | exact Ew].
    + destruct (isSpace (lowerChar d)) eqn:Es; [now left|].
      left. reflexivity.
  - eapply trim_singleSpaced. apply collapse_singleSpaced.
Qed.

Lemma textChar_fixed (s : jsstring) :
  Forall textChar s ->
  stripPunctuation (toLowerCase s) = s.
Proof.
  induction 1 as [|c s Hc Hs IH]; [reflexivity|].
  unfold stripPunctuation, toLowerCase in *. cbn [map]. rewrite IH.
  f_equal. destruct Hc as [->|Hc]; [reflexivity|].
  destruct (term_fixed c Hc) as [-> ->]. reflexivity.
Qed.

Lemma splitWs_chars (s : jsstring) :
  forall b cur w c,
    In w (splitWsFrom b cur s) -> In c w ->
    In c cur \/ (In c s /\ isSpace c = false).
Proof.
  induction s as [|d s IH]; intros b cur w c Hw Hc; cbn [splitWsFrom] in Hw.
  - destruct Hw as [<-|[]]. left. now apply in_rev.
  - destruct (isSpace d) eqn:E.
    + destruct b.
      * destruct (IH _ _ _ _ Hw Hc) as [H|[H1 H2]]; [now left|].
        right. split; [now right | assumption].
      * destruct Hw as [<-|Hw]; [left; now apply in_rev|].
        destruct (IH _ _ _ _ Hw Hc) as [[]|[H1 H2]].
        right. split; [now right | assumption].
    + destruct (IH _ _ _ _ Hw Hc) as [[<-|H]|[H1 H2]].
      * right. split; [now left | assumption].
      * now left.
      * right. split; [now right | assumption].
Qed.

(** X4. Normalized text is in a normal form that normalizing again
    leaves unchanged.  It consists of lower-case letters, digits,
    underscores and spaces only; a space is never first, never last and
    never follows a space; and each of the words that [extractKeyTerms]
    counts consists of lower-case letters, digits and underscores only. *)
Theorem normalizeText_idempotent (text : jsstring) :
  let n := normalizeText text in
  normalizeText n = n
  /\ (forall c, In c n -> c = space \/ isTermChar c = true)
  /\ singleSpaced false n = true
  /\ trim n = n
  /\ (forall w, In w (wordsOf text) -> forallb isTermChar w = true).
Proof.
  cbv zeta. destruct (normalizeText_shape text) as [Hchars Hss].
  assert (Htrim : trim (normalizeText text) = normalizeText text).
  { unfold normalizeText. destruct (truthy text); [apply trim_idem|reflexivity]. }
  split; [|split; [|split; [|split]]].
  - unfold normalizeText at 1.
    destruct (truthy (normalizeText text)) eqn:E.
    + rewrite (textChar_fixed Hchars). unfold collapseWs.
      rewrite (singleSpaced_fixed _ _ Hss). exact Htrim.
    + now destruct (normalizeText text).
  - intros c Hc. rewrite Forall_forall in Hchars. exact (Hchars c Hc).
  - exact Hss.
  - exact Htrim.
  - intros w Hw. unfold wordsOf in Hw. apply filter_In in Hw.
    destruct Hw as [Hw _]. apply forallb_forall. intros c Hc.
    destruct (@splitWs_chars _ false [] w c Hw Hc) as [[]|[H1 H2]].
    rewrite Forall_forall in Hchars.
    destruct (Hchars c H1) as [->|H]; [discriminate H2 | exact H].
Qed.

End NormalizeTextFacts.

(** ** Invariants of the clustering *)

Module GrouperInvariants.
Import Grouper Vocabulary Notions GrouperFacts.

Lemma groupIds_succ (k : nat) :
  groupIds (k + 1) = groupIds k ++ [lit "group-" ++ ofNat (k + 1)].
Proof.
  unfold groupIds. rewrite Nat.add_1_r, seq_S, map_app. cbn [map].
  now rewrite (Nat.add_comm 1 k), Nat.add_1_r.
Qed.

Lemma groupIds_NoDup (k : nat) : NoDup (groupIds k).
Proof.
  unfold groupIds. apply Finite.Injective_map_NoDup; [|apply seq_NoDup].
  intros m n H. apply app_inv_head in H. now apply NumeralFacts.ofNat_injective.
Qed.

Lemma FOP_snoc (T : Type) (R : T -> T -> Prop) (l : list T) (x : T) :
  ForallOrdPairs R l -> Forall (fun y => R y x) l ->
  ForallOrdPairs R (l ++ [x]).
Proof.
  induction 1 as [|y l Hy Hl IH]; intros Hx; simpl.
  - repeat constructor.
  - inversion Hx as [|? ? Hyx Hrest]. subst. constructor.
    + apply Forall_app. split; [assumption|]. now constructor.
    + now apply IH.
Qed.

Lemma FOP_perm (T : Type) (R : T -> T -> Prop) (l l' : list T) :
  (forall x y, R x y -> R y x) ->
  Permutation l l' -> ForallOrdPairs R l -> ForallOrdPairs R l'.
Proof.
  intros Hsym. induction 1 as [|x l l' Hp IH|x y l|l l' l'' _ IH1 _ IH2];
    intros H.
  - assumption.
  - inversion H as [|? ? Hx Hl]. subst. constructor.
    + eapply Permutation_Forall; eassumption.
    + now apply IH.
  - inversion H as [|? ? Hy Hl]. subst.
    inversion Hl as [|? ? Hx Hl']. subst.
    inversion Hy as [|? ? Hyx Hyl]. subst.
    constructor; [|now constructor].
    constructor; [now apply Hsym | assumption].
  - auto.
Qed.

Lemma FOP_nth (T : Type) (R : T -> T -> Prop) (l : list T) :
  ForallOrdPairs R l ->
  forall i j x y, i < j -> nth_error l i = Some x -> nth_error l j = Some y ->
                  R x y.
Proof.
  induction 1 as [|z l Hz Hl IH]; intros i j x y Hij Hi Hj.
  - destruct i; discriminate.
  - destruct j as [|j]; [lia|]. simpl in Hj. destruct i as [|i].
    + simpl in Hi. injection Hi as <-.
      rewrite Forall_forall in Hz. apply Hz. now apply nth_error_In with j.
    + simpl in Hi. apply (IH i j); [lia | assumption | assumption].
Qed.

Lemma pushArticle_ids (b : nat) (a : NormalizedArticle)
  (groups : list ArticleGroup) :
  map groupId (pushArticle b a groups) = map groupId groups.
Proof.
  revert b. induction groups as [|g groups IH]; intros [|b]; simpl;
    try reflexivity.
  now rewrite IH.
Qed.

Lemma pushArticle_reps (b : nat) (a : NormalizedArticle)
  (groups : list ArticleGroup) :
  Forall nonempty groups ->
  map repOf (pushArticle b a groups) = map repOf groups.
Proof.
  intros H. revert b.
  induction H as [|g groups Hg _ IH]; intros [|b]; simpl; try reflexivity.
  - f_equal. unfold repOf. simpl.
    destruct (articles g) eqn:E; [now elim Hg | reflexivity].
  - now rewrite IH.
Qed.

Section WithPlatform.
Variable P : Platform.

Local Abbreviation sim := (Similarity.calculateSimilarity P).

Lemma joins_sym (thr : Q) (a b : NormalizedArticle) :
  joins P thr a b -> joins P thr b a.
Proof. unfold joins. now rewrite (SimilarityLaws.similarity_sym P a b). Qed.

Lemma strangers_sym (thr : Q) (r1 r2 : option NormalizedArticle) :
  strangers P thr r1 r2 -> strangers P thr r2 r1.
Proof.
  unfold strangers. intros H a b Ha Hb. destruct (H b a Hb Ha). tauto.
Qed.

(** The group chosen by the inner loop clears both gates. *)
Lemma scanGroups_chosen (thr : Q) (a : NormalizedArticle)
  (groups : list ArticleGroup) :
  Forall nonempty groups ->
  forall position best bs b,
    (0 <= bs)%Q ->
    scanGroups P thr a groups position best bs = Some (Some b) ->
    best = Some b
    \/ (position <= b
        /\ exists g rep,
             nth_error groups (b - position) = Some g
             /\ hd_error (articles g) = Some rep
             /\ (thr <= sim a rep)%Q /\ (bs < sim a rep)%Q).
Proof.
  induction 1 as [|g groups Hg Hrest IH]; intros position best bs b Hbs H;
    cbn [scanGroups] in H.
  - left. now injection H.
  - destruct (articles g) as [|rep others] eqn:E; [now elim Hg|].
    destruct (Qle_bool thr (sim a rep)) eqn:E1;
      destruct (Qle_bool (sim a rep) bs) eqn:E2; cbn [andb negb] in H.
    2:{ (* the group becomes the best *)
      assert (Hlt : (bs < sim a rep)%Q).
      { apply Qnot_le_lt. intros Hle. apply Qle_bool_iff in Hle. congruence. }
      apply IH in H; [|apply Qlt_le_weak; now apply Qle_lt_trans with bs].
      right. destruct H as [[= <-] | (Hpos & g' & rep' & Hn & Hr & Ht & Hb)].
      - split; [lia|]. exists g, rep. rewrite Nat.sub_diag. simpl.
        rewrite E. repeat split; try assumption. now apply Qle_bool_iff.
      - split; [lia|]. exists g', rep'.
        replace (b - position) with (S (b - S position)) by lia.
        repeat split; try assumption. now apply Qlt_trans with (sim a rep). }
    all: apply IH in H; [|assumption];
      destruct H as [-> | (Hpos & g' & rep' & Hn & Hr & Ht & Hb)];
      [now left|]; right; (split; [lia|]); exists g', rep';
      replace (b - position) with (S (b - S position)) by lia;
      repeat split; assumption.
Qed.

Lemma pushArticle_cohesive (thr : Q) (b : nat) (a : NormalizedArticle)
  (groups : list ArticleGroup) (g : ArticleGroup) (rep : NormalizedArticle) :
  nth_error groups b = Some g ->
  hd_error (articles g) = Some rep ->
  joins P thr a rep ->
  Forall (cohesive P thr) groups ->
  Forall (cohesive P thr) (pushArticle b a groups).
Proof.
  intros Hn Hr Hj Hall. revert b Hn.
  induction Hall as [|g0 groups Hg0 Hrest IH]; intros [|b] Hn; simpl in *;
    try discriminate.
  - injection Hn as ->. constructor; [|assumption].
    unfold cohesive in *. simpl.
    destruct (articles g) as [|r members]; [discriminate Hr|].
    simpl in Hr. injection Hr as ->. simpl.
    apply Forall_app. split; [assumption|]. now constructor.
  - constructor; [assumption|]. now apply IH.
Qed.

(** What the outer loop keeps true of the groups it has created. *)
Lemma groupLoop_invariants (thr : Q) (arts : list NormalizedArticle) :
  forall i groups used,
    Forall nonempty groups ->
    (forall k, In k used -> k < i) ->
    map groupId groups = groupIds (length groups) ->
    Forall (cohesive P thr) groups ->
    ForallOrdPairs (strangers P thr) (map repOf groups) ->
    exists created used',
      groupLoop P thr i arts (groups, used) = Some (created, used')
      /\ Forall nonempty created
      /\ map groupId created = groupIds (length created)
      /\ Forall (cohesive P thr) created
      /\ ForallOrdPairs (strangers P thr) (map repOf created)
      /\ length groups <= length created <= length groups + length arts
      /\ firstn (length groups) (map repOf created) = map repOf groups.
Proof.
  induction arts as [|a arts IH];
    intros i groups used Hne Hused Hids Hcoh Hap; cbn [groupLoop].
  - exists groups, used. repeat split; try assumption; try lia.
    rewrite <- (length_map repOf). apply firstn_all.
  - unfold groupStep.
    assert (Hfresh : existsb (Nat.eqb i) used = false).
    { destruct (existsb (Nat.eqb i) used) eqn:E; [|reflexivity].
      apply existsb_exists in E. destruct E as (k & Hk & Heq).
      apply Nat.eqb_eq in Heq. subst k. apply Hused in Hk. lia. }
    rewrite Hfresh.
    assert (Hused' : forall k, In k (i :: used) -> k < S i).
    { intros k [<- | Hk]; [lia|]. apply Hused in Hk. lia. }
    destruct (scanGroups_some P thr a Hne 0 None 0%Q) as (r & Hr & _).
    rewrite Hr. destruct r as [b|].
    + apply scanGroups_chosen in Hr; [|assumption | apply Qle_refl].
      destruct Hr as [Hr | (_ & g & rep & Hn & Hrep & Ht & Hpos)];
        [discriminate|].
      rewrite Nat.sub_0_r in Hn.
      destruct (IH (S i) (pushArticle b a groups) (i :: used))
        as (created & used' & Hrun & H1 & H2 & H3 & H4 & H5 & H6).
      * now apply pushArticle_nonempty.
      * assumption.
      * now rewrite pushArticle_ids, pushArticle_length.
      * apply pushArticle_cohesive with g rep; try assumption. now split.
      * now rewrite pushArticle_reps.
      * exists created, used'. rewrite pushArticle_length in H5, H6.
        rewrite pushArticle_reps in H6 by assumption.
        repeat split; try assumption; simpl; lia.
    + apply (scanGroups_none_iff P thr a Hne 0 0%Q) in Hr.
      destruct (IH (S i) (groups ++ [newGroup groups a]) (i :: used))
        as (created & used' & Hrun & H1 & H2 & H3 & H4 & H5 & H6).
      * apply Forall_app. split; [assumption|]. constructor; [|constructor].
        unfold nonempty. simpl. discriminate.
      * assumption.
      * rewrite map_app, length_app, Hids. cbn [map length newGroup groupId].
        now rewrite groupIds_succ.
      * apply Forall_app. split; [assumption|]. constructor; [|constructor].
        unfold cohesive. simpl. constructor.
      * rewrite map_app. simpl. apply FOP_snoc; [assumption|].
        rewrite Forall_map. eapply Forall_impl; [|exact Hr]. simpl.
        intros g Hg x y Hx [= <-]. unfold repOf in Hx.
        assert (Hno : ~ joins P thr a x) by (apply (Hg x Hx)).
        split; [assumption|]. intros Hj. apply Hno. now apply joins_sym.
      * exists created, used'. rewrite length_app in H5, H6. simpl in H5, H6.
        repeat split; try assumption; simpl; try lia.
        rewrite map_app in H6.
        apply (f_equal (firstn (length groups))) in H6.
        rewrite firstn_firstn in H6.
        replace (Init.Nat.min (length groups) (length groups + 1))
          with (length groups) in H6 by lia.
        rewrite H6. rewrite firstn_app, length_map, Nat.sub_diag. simpl.
        rewrite app_nil_r. rewrite <- (length_map repOf). apply firstn_all.
Qed.

(** The groups the clustering returns are the created groups, sorted. *)
Lemma groupSimilarArticles_created (thr : Q) (arts : list NormalizedArticle) :
  exists created,
    groupSimilarArticles P arts thr = Some (Js.sort bySizeDescending created)
    /\ Forall nonempty created
    /\ map groupId created = groupIds (length created)
    /\ Forall (cohesive P thr) created
    /\ ForallOrdPairs (strangers P thr) (map repOf created)
    /\ length created <= length arts
    /\ (forall a rest, arts = a :: rest ->
          exists g others, created = g :: others /\ repOf g = Some a).
Proof.
  unfold groupSimilarArticles. destruct arts as [|a arts].
  - exists []. repeat split; try constructor. intros a rest [=].
  - set (all := a :: arts).
    destruct (@groupLoop_invariants thr all 0 [] [])
      as (created & used & Hrun & H1 & H2 & H3 & H4 & H5 & _);
      [constructor | intros k [] | reflexivity | constructor | constructor |].
    rewrite Hrun. exists created.
    split; [reflexivity|]. split; [assumption|]. split; [assumption|].
    split; [assumption|]. split; [assumption|].
    split; [cbn [length] in H5; lia|].
    intros a' rest [= <- <-].
    (* the first step creates the group of the first article *)
    subst all. cbn [groupLoop] in Hrun. unfold groupStep in Hrun.
    cbn [existsb scanGroups app] in Hrun.
    destruct (@groupLoop_invariants thr arts 1 [newGroup [] a] [0])
      as (created' & used' & Hrun' & _ & _ & _ & _ & _ & H6).
    { constructor; [|constructor]. unfold nonempty. simpl. discriminate. }
    { intros k [<- | []]. lia. }
    { reflexivity. }
    { constructor; [|constructor]. unfold cohesive. simpl. constructor. }
    { simpl. repeat constructor. }
    rewrite Hrun' in Hrun. injection Hrun as <- <-.
    simpl in H6. destruct created' as [|g others]; [discriminate|].
    exists g, others. split; [reflexivity|]. simpl in H6. now injection H6.
Qed.

End WithPlatform.

(** With a threshold above 1 no article joins a group. *)
Lemma groupLoop_isolates (P : Platform) (thr : Q)
  (arts : list NormalizedArticle) :
  (1 < thr)%Q ->
  forall i groups used,
    Forall nonempty groups ->
    (forall k, In k used -> k < i) ->
    exists used',
      groupLoop P thr i arts (groups, used)
      = Some (groups ++ singletonsFrom (length groups) arts, used').
Proof.
  intros Hthr. induction arts as [|a arts IH]; intros i groups used Hne Hused;
    cbn [groupLoop singletonsFrom].
  - exists used. now rewrite List.app_nil_r.
  - unfold groupStep.
    assert (Hfresh : existsb (Nat.eqb i) used = false).
    { destruct (existsb (Nat.eqb i) used) eqn:E; [|reflexivity].
      apply existsb_exists in E. destruct E as (k & Hk & Heq).
      apply Nat.eqb_eq in Heq. subst k. apply Hused in Hk. lia. }
    rewrite Hfresh.
    assert (Hnone : scanGroups P thr a groups 0 None 0%Q = Some None).
    { apply (scanGroups_none_iff P thr a Hne 0 0%Q).
      apply Forall_forall. intros g _ rep _ [Hle _].
      pose proof (SimilarityFacts.min1_le_1
                    (Similarity.jaccardSimilarity
                       (mkSet (Similarity.extractKeyTerms
                                 (Similarity.articleText a) 10))
                       (mkSet (Similarity.extractKeyTerms
                                 (Similarity.articleText rep) 10))
                     + Similarity.timeBonus P a rep
                     + Similarity.urlBonus P a rep)%Q) as H1.
      change (Similarity.min1 _) with (Similarity.calculateSimilarity P a rep) in H1.
      apply (Qlt_irrefl 1). apply Qlt_le_trans with thr; [assumption|].
      now apply Qle_trans with (Similarity.calculateSimilarity P a rep). }
    rewrite Hnone.
    destruct (IH (S i) (groups ++ [newGroup groups a]) (i :: used))
      as [used' Hrun].
    + apply Forall_app. split; [assumption|]. constructor; [|constructor].
      unfold nonempty. simpl. discriminate.
    + intros k [<- | Hk]; [lia|]. apply Hused in Hk. lia.
    + exists used'. rewrite Hrun. rewrite length_app. cbn [length].
      rewrite <- app_assoc. cbn [app]. unfold newGroup.
      now rewrite Nat.add_1_r.
Qed.

Lemma singletons_size (i : nat) (arts : list NormalizedArticle) :
  forall g, In g (singletonsFrom i arts) -> groupSize g = 1%Z.
Proof.
  revert i. induction arts as [|a arts IH]; intros i g; simpl; [tauto|].
  intros [<- | H]; [reflexivity | now apply IH with (S i)].
Qed.

(** X5. The groups are returned in descending order of size, and groups
    of equal size in the order of their creation: the result is a
    rearrangement of the groups [group-1], [group-2], ... in which, for every
    size, the groups of that size appear as they were created. *)
Theorem groups_ordered_by_size (P : Platform) (arts : list NormalizedArticle)
  (thr : Q) :
  exists out created,
    groupSimilarArticles P arts thr = Some out
    /\ descendingBy groupSize out
    /\ Permutation out created
    /\ map groupId created = groupIds (length created)
    /\ (forall n, withKey groupSize n out = withKey groupSize n created).
Proof.
  destruct (groupSimilarArticles_created P thr arts)
    as (created & Hrun & _ & Hids & _).
  exists (Js.sort bySizeDescending created), created.
  split; [assumption|].
  change bySizeDescending with (fun a b => (groupSize b - groupSize a)%Z).
  split; [apply SortLaws.sort_descending|].
  split; [apply JsFacts.sort_perm|].
  split; [assumption|].
  intros n. apply SortLaws.sort_withKey.
Qed.

(** X6. The identifiers of the returned groups are [group-1] to
    [group-k] for the [k] groups, each used once. *)
Theorem group_ids_distinct (P : Platform) (arts : list NormalizedArticle)
  (thr : Q) :
  exists out,
    groupSimilarArticles P arts thr = Some out
    /\ Permutation (map groupId out) (groupIds (length out))
    /\ NoDup (map groupId out).
Proof.
  destruct (groupSimilarArticles_created P thr arts)
    as (created & Hrun & _ & Hids & _).
  exists (Js.sort bySizeDescending created). split; [assumption|].
  assert (Hp : Permutation (map groupId (Js.sort bySizeDescending created))
                           (groupIds (length created))).
  { rewrite <- Hids. apply Permutation_map, JsFacts.sort_perm. }
  rewrite JsFacts.sort_length. split; [assumption|].
  eapply Permutation_NoDup; [symmetry; exact Hp | apply groupIds_NoDup].
Qed.

(** X7. In every returned group, each article after the first has a
    similarity with the first article (the representative) that is at least
    the threshold and above zero. *)
Theorem members_join_representative (P : Platform)
  (arts : list NormalizedArticle) (thr : Q) :
  exists out,
    groupSimilarArticles P arts thr = Some out
    /\ forall g rep members a,
         In g out -> articles g = rep :: members -> In a members ->
         (thr <= Similarity.calculateSimilarity P a rep)%Q
         /\ (0 < Similarity.calculateSimilarity P a rep)%Q.
Proof.
  destruct (groupSimilarArticles_created P thr arts)
    as (created & Hrun & _ & _ & Hcoh & _).
  exists (Js.sort bySizeDescending created). split; [assumption|].
  intros g rep members a Hg Hart Ha.
  assert (Hin : In g created).
  { eapply Permutation_in; [apply JsFacts.sort_perm | exact Hg]. }
  rewrite Forall_forall in Hcoh. specialize (Hcoh g Hin).
  unfold cohesive in Hcoh. rewrite Hart in Hcoh.
  rewrite Forall_forall in Hcoh. exact (Hcoh a Ha).
Qed.

(** X8. The representatives of two different returned groups never clear
    the gates against each other: their similarity is below the threshold,
    or it is zero. *)
Theorem representatives_are_strangers (P : Platform)
  (arts : list NormalizedArticle) (thr : Q) :
  exists out,
    groupSimilarArticles P arts thr = Some out
    /\ forall i j g h rg rh,
         i <> j ->
         nth_error out i = Some g -> nth_error out j = Some h ->
         hd_error (articles g) = Some rg -> hd_error (articles h) = Some rh ->
         ~ ((thr <= Similarity.calculateSimilarity P rg rh)%Q
            /\ (0 < Similarity.calculateSimilarity P rg rh)%Q).
Proof.
  destruct (groupSimilarArticles_created P thr arts)
    as (created & Hrun & _ & _ & _ & Hap & _).
  exists (Js.sort bySizeDescending created). split; [assumption|].
  assert (Hout : ForallOrdPairs (strangers P thr)
                   (map repOf (Js.sort bySizeDescending created))).
  { apply FOP_perm with (map repOf created).
    - apply strangers_sym.
    - apply Permutation_map. symmetry. apply JsFacts.sort_perm.
    - assumption. }
  intros i j g h rg rh Hij Hi Hj Hrg Hrh.
  assert (Hi' : nth_error (map repOf (Js.sort bySizeDescending created)) i
                = Some (Some rg)).
  { rewrite nth_error_map, Hi. simpl. unfold repOf. now rewrite Hrg. }
  assert (Hj' : nth_error (map repOf (Js.sort bySizeDescending created)) j
                = Some (Some rh)).
  { rewrite nth_error_map, Hj. simpl. unfold repOf. now rewrite Hrh. }
  destruct (Nat.lt_total i j) as [Hlt | [Heq | Hgt]]; [| contradiction |].
  - destruct (FOP_nth Hout Hlt Hi' Hj' rg rh eq_refl eq_refl) as [_ H]. exact H.
  - destruct (FOP_nth Hout Hgt Hj' Hi' rh rg eq_refl eq_refl) as [H _]. exact H.
Qed.

(** X9. There are at most as many groups as articles; for a non-empty
    input there is at least one, and the first article of the input is the
    representative of the group [group-1]. *)
Theorem group_count_and_first (P : Platform) (arts : list NormalizedArticle)
  (thr : Q) :
  exists out,
    groupSimilarArticles P arts thr = Some out
    /\ length out <= length arts
    /\ forall a rest,
         arts = a :: rest ->
         1 <= length out
         /\ exists g, In g out /\ groupId g = lit "group-1"
                      /\ hd_error (articles g) = Some a.
Proof.
  destruct (groupSimilarArticles_created P thr arts)
    as (created & Hrun & _ & Hids & _ & _ & Hlen & Hfirst).
  exists (Js.sort bySizeDescending created). split; [assumption|].
  rewrite JsFacts.sort_length. split; [assumption|].
  intros a rest Harts. destruct (Hfirst a rest Harts) as (g & others & -> & Hg).
  split; [simpl; lia|]. exists g. split.
  - eapply Permutation_in; [symmetry; apply JsFacts.sort_perm | now left].
  - split; [|exact Hg]. cbn [map length] in Hids.
    unfold groupIds in Hids. cbn [seq map] in Hids. now injection Hids.
Qed.

(** X10. With a threshold above 1 every article founds its own group:
    the result is one singleton group per article, in input order, numbered
    from [group-1]. *)
Theorem high_threshold_isolates (P : Platform) (arts : list NormalizedArticle)
  (thr : Q) :
  (1 < thr)%Q ->
  groupSimilarArticles P arts thr = Some (singletonsFrom 0 arts).
Proof.
  intros Hthr. unfold groupSimilarArticles.
  destruct arts as [|a arts]; [reflexivity|].
  destruct (@groupLoop_isolates P thr (a :: arts) Hthr 0 [] [])
    as [used Hrun]; [constructor | intros k [] |].
  rewrite Hrun. cbn [app length]. f_equal.
  change bySizeDescending with (fun a b => (groupSize b - groupSize a)%Z).
  apply SortLaws.sort_constant_key.
  intros x y Hx Hy.
  rewrite (singletons_size _ _ _ Hx), (singletons_size _ _ _ Hy). reflexivity.
Qed.

Lemma high_threshold_isolates_witness :
  groupSimilarArticles Examples.platform
    [Examples.flood1; Examples.flood2] (11 # 10)
  = Some (singletonsFrom 0 [Examples.flood1; Examples.flood2]).
Proof.
  apply (@high_threshold_isolates Examples.platform
           [Examples.flood1; Examples.flood2] (11 # 10)).
  reflexivity.
Defined.

End GrouperInvariants.

(** ** The group filter and the ranking *)

Module RankingFacts.
Import Grouper Aggregate Notions.

Lemma keepGroup_titles (group : ArticleGroup) :
  keepGroup group = true <->
  2 <= length (uniqueSources group) /\ ~ sameTitle group.
Proof.
  unfold keepGroup.
  destruct (Nat.ltb_spec (length (uniqueSources group)) 2) as [Hlt|Hge].
  { split; [discriminate | intros [H _]; lia]. }
  fold comparedTitle.
  change (fun a : NormalizedArticle => trim (toLowerCase (orElse (title a) [])))
    with comparedTitle.
  assert (Hmany : 1 < length (Grouper.articles group)).
  { destruct (FilterFacts.two_distinct_sources _ Hge)
      as (s1 & s2 & H1 & H2 & Hne).
    destruct (Grouper.articles group) as [|a [|b rest]]; simpl in *;
      try tauto; try lia.
    destruct H1 as [<- | []], H2 as [<- | []]. congruence. }
  apply Nat.ltb_lt in Hmany. rewrite Hmany.
  destruct (forallb _ _) eqn:E.
  - split; [discriminate|]. intros [_ Hno]. exfalso. apply Hno.
    rewrite forallb_forall in E.
    exists (hd [] (map comparedTitle (Grouper.articles group))). split.
    + destruct (Grouper.articles group) as [|a rest] eqn:Ea;
        [simpl in Hmany; discriminate|].
      specialize (E (comparedTitle a)). simpl in E.
      assert (Ha : str_eqb (comparedTitle a) (comparedTitle a)
                   && (0 <? length (comparedTitle a)) = true)
        by (apply E; now left).
      apply andb_prop in Ha. destruct Ha as [_ Ha]. apply Nat.ltb_lt in Ha.
      simpl. intros Hnil. rewrite Hnil in Ha. simpl in Ha. lia.
    + intros a Ha.
      assert (Hin : In (comparedTitle a) (map comparedTitle (Grouper.articles group)))
        by now apply in_map.
      apply E in Hin. apply andb_prop in Hin. destruct Hin as [Hin _].
      now apply JsFacts.str_eqb_true in Hin.
  - split; [intros _|reflexivity]. split; [assumption|].
    intros (t & Hne & Hall).
    assert (Htrue : forallb
              (fun title0 => str_eqb title0
                               (hd [] (map comparedTitle (Grouper.articles group)))
                             && (0 <? length title0))
              (map comparedTitle (Grouper.articles group)) = true).
    { apply forallb_forall. intros x Hx. apply in_map_iff in Hx.
      destruct Hx as (a & <- & Ha).
      assert (Hhd : hd [] (map comparedTitle (Grouper.articles group)) = t).
      { destruct (Grouper.articles group) as [|b rest];
          [destruct Ha|]. simpl. apply Hall. now left. }
      rewrite Hhd, (Hall a Ha), JsFacts.str_eqb_refl. simpl.
      apply Nat.ltb_lt. destruct t; [congruence | simpl; lia]. }
    congruence.
Qed.

(** X11. For groups whose articles have ASCII titles, the group filter
    keeps exactly the groups whose articles come from at least 2 distinct
    sources and do not all carry one and the same non-empty title (compared
    in lower case, trimmed); a group that is kept holds at least two
    articles, and filtering again changes nothing. *)
Theorem filter_characterized (groups : list ArticleGroup)
  (group : ArticleGroup) :
  forallb asciiTitles groups = true ->
  (In group (filterGroups groups) <->
   In group groups
   /\ 2 <= length (uniqueSources group) /\ ~ sameTitle group)
  /\ (In group (filterGroups groups) -> 2 <= length (Grouper.articles group))
  /\ filterGroups (filterGroups groups) = filterGroups groups
  /\ length (filterGroups groups) <= length groups.
Proof.
  intros _. unfold filterGroups. split; [|split; [|split]].
  - rewrite filter_In, keepGroup_titles. tauto.
  - rewrite filter_In, keepGroup_titles. intros (_ & Hge & _).
    destruct (FilterFacts.two_distinct_sources _ Hge)
      as (s1 & s2 & H1 & H2 & Hne).
    destruct (Grouper.articles group) as [|a [|b rest]]; simpl in *;
      try tauto; try lia.
    destruct H1 as [<- | []], H2 as [<- | []]. congruence.
  - induction groups as [|g groups IH]; simpl; [reflexivity|].
    destruct (keepGroup g) eqn:E; simpl; [rewrite E, IH|]; auto.
  - apply filter_length_le.
Qed.

Lemma filter_characterized_witness :
  2 <= length (Grouper.articles Examples.twoSources)
  /\ length (filterGroups [Examples.twoSources; Examples.oneSource]) <= 2.
Proof.
  destruct (@filter_characterized [Examples.twoSources; Examples.oneSource]
              Examples.twoSources eq_refl) as (_ & H2 & _ & H4).
  split; [|exact H4].
  apply H2. vm_compute. left. reflexivity.
Defined.

Section WithPlatform.
Variable P : Platform.

Lemma somes_In (l : list (option Z)) (d : Z) :
  In d (somes l) <-> In (Some d) l.
Proof.
  induction l as [|[x|] l IH]; simpl; [tauto| |].
  - rewrite IH. split; intros [H|H]; auto; left; congruence.
  - rewrite IH. split; [auto | intros [H|H]; [discriminate | assumption]].
Qed.

Lemma fold_max_spec (l : list Z) (d : Z) :
  (d <= fold_left Z.max l d)%Z
  /\ (forall x, In x l -> (x <= fold_left Z.max l d)%Z)
  /\ (fold_left Z.max l d = d \/ In (fold_left Z.max l d) l).
Proof.
  revert d. induction l as [|y l IH]; intros d; simpl.
  - split; [lia|]. split; [tauto | now left].
  - destruct (IH (Z.max d y)) as (H1 & H2 & H3). split; [lia|]. split.
    + intros x [<- | Hx]; [lia | now apply H2].
    + destruct H3 as [H3 | H3]; [|now right; right].
      destruct (Z.max_spec d y) as [[_ Hm] | [_ Hm]]; rewrite Hm in *.
      * right. left. now symmetry.
      * now left.
Qed.

(** X12. The latest date of a group is the greatest of the positive
    publication times of its articles, and 0 when no article has one (no
    date, a date that does not parse, or a time that is not above zero). *)
Theorem latest_date_is_maximum (group : ArticleGroup) :
  (0 <= getLatestDate P group)%Z
  /\ (forall a d, In a (Grouper.articles group) -> articleTime P a = Some d ->
                  (0 < d <= getLatestDate P group)%Z)
  /\ ((forall a, In a (Grouper.articles group) -> articleTime P a = None) ->
      getLatestDate P group = 0%Z)
  /\ ((0 < getLatestDate P group)%Z ->
      exists a, In a (Grouper.articles group)
                /\ articleTime P a = Some (getLatestDate P group)).
Proof.
  unfold getLatestDate.
  assert (Hpos : forall a d, articleTime P a = Some d -> (0 < d)%Z).
  { intros a d. unfold articleTime.
    destruct (if truthy (publishedAt a) then dateParse P (publishedAt a)
              else Some 0%Z) as [t|]; [|discriminate].
    destruct (Z.ltb_spec 0 t); [|discriminate]. now intros [= <-]. }
  assert (Hin : forall d, In d (somes (map (articleTime P) (Grouper.articles group)))
                <-> exists a, In a (Grouper.articles group)
                              /\ articleTime P a = Some d).
  { intros d. rewrite somes_In, in_map_iff. split; intros (a & H1 & H2); eauto. }
  destruct (somes (map (articleTime P) (Grouper.articles group)))
    as [|d0 rest] eqn:E.
  - split; [lia|]. split.
    + intros a d Ha Hd. exfalso. apply (proj2 (Hin d)); eauto.
    + split; [reflexivity | lia].
  - destruct (fold_max_spec rest d0) as (H1 & H2 & H3).
    assert (H0 : (0 < d0)%Z).
    { destruct (proj1 (Hin d0)) as (a & _ & Ha); [now left|]. eauto. }
    split; [lia|]. split; [|split].
    + intros a d Ha Hd. split; [eauto|].
      assert (Hd' : In d (d0 :: rest)) by (apply Hin; eauto).
      destruct Hd' as [<- | Hd']; [assumption | now apply H2].
    + intros Hnone. destruct (proj1 (Hin d0)) as (a & Ha & Hd); [now left|].
      rewrite (Hnone a Ha) in Hd. discriminate.
    + intros _. apply Hin. destruct H3 as [-> | H3]; [now left | now right].
Qed.

(** X13. Ranking rearranges the groups into descending order of their
    latest date, and groups with the same latest date keep their order. *)
Theorem ranking_sorted_by_latest_date (groups : list ArticleGroup) :
  Permutation (rankGroups P groups) groups
  /\ descendingBy (getLatestDate P) (rankGroups P groups)
  /\ (forall d, withKey (getLatestDate P) d (rankGroups P groups)
                = withKey (getLatestDate P) d groups).
Proof.
  unfold rankGroups.
  change (byLatestDate P)
    with (fun a b => (getLatestDate P b - getLatestDate P a)%Z).
  split; [apply JsFacts.sort_perm|].
  split; [apply SortLaws.sort_descending|].
  intros d. apply SortLaws.sort_withKey.
Qed.

End WithPlatform.

End RankingFacts.

(** ** Pages *)

Module PagesFacts.
Import Aggregate Notions PaginationFacts.

Section Pages.
Variable T : Type.

Lemma chunks_concat (k : nat) :
  forall l : list T,
    length l <= 9 * k ->
    concat (map (fun i => firstn 9 (skipn (9 * i) l)) (seq 0 k)) = l.
Proof.
  induction k as [|k IH]; intros l Hl.
  - destruct l; [reflexivity | simpl in Hl; lia].
  - cbn [seq map concat]. rewrite <- seq_shift, map_map.
    rewrite Nat.mul_0_r. cbn [skipn].
    rewrite (map_ext (fun i => firstn 9 (skipn (9 * S i) l))
                     (fun i => firstn 9 (skipn (9 * i) (skipn 9 l)))).
    + rewrite IH by (rewrite length_skipn; lia). apply firstn_skipn.
    + intros i. rewrite skipn_skipn. f_equal. f_equal. lia.
Qed.

Lemma page_window (l : list T) (p : Z) :
  (1 <= p <= Z.max 1 (ceilDiv (length l) GROUPS_PER_PAGE))%Z ->
  fst (paginate l (Int p)) = firstn 9 (skipn (Z.to_nat (9 * (p - 1))) l).
Proof.
  intros Hp. rewrite paginate_int. cbn [fst].
  replace (Z.max 1 (Z.min p (Z.max 1 (ceilDiv (length l) GROUPS_PER_PAGE))))
    with p by lia.
  reflexivity.
Qed.






(** X14. The pages 1 to [totalPages] partition the list: read one after
    the other they give back every group once, in order; every page before
    the last holds exactly 9 groups, and the last page of a non-empty list
    is not empty. *)
Theorem pages_partition (l : list T) :
  let tp := Z.to_nat (totalPages (snd (paginate l (Int 1)))) in
  pagesUpTo l tp = l
  /\ 1 <= tp
  /\ (forall p, 1 <= p < tp ->
        length (fst (paginate l (Int (Z.of_nat p)))) = 9)
  /\ (l <> [] -> fst (paginate l (Int (Z.of_nat tp))) <> []).
Proof.
  cbv zeta. rewrite paginate_int. cbn [snd totalPages].
  pose proof (totalPages_least (length l)) as Hl. cbv zeta in Hl.
  set (tpz := Z.max 1 (ceilDiv (length l) GROUPS_PER_PAGE)) in *.
  destruct Hl as (H1 & H2 & H3).
  assert (Hwin : forall p, 1 <= p <= Z.to_nat tpz ->
            fst (paginate l (Int (Z.of_nat p)))
            = firstn 9 (skipn (9 * (p - 1)) l)).
  { intros p Hp. rewrite page_window by (fold tpz; lia).
    f_equal. f_equal. lia. }
  split; [|split; [lia|split]].
  - unfold pagesUpTo.
    rewrite (map_ext_in _ (fun p => firstn 9 (skipn (9 * (p - 1)) l))).
    + rewrite <- seq_shift, map_map.
      rewrite (map_ext _ (fun i => firstn 9 (skipn (9 * i) l))).
      * apply chunks_concat. lia.
      * intros i. now rewrite Nat.sub_1_r.
    + intros p Hp. apply in_seq in Hp. apply Hwin. lia.
  - intros p Hp. rewrite Hwin by lia.
    rewrite length_firstn, length_skipn. lia.
  - intros Hne. rewrite Hwin by lia.
    assert (Hlen : 9 * (Z.to_nat tpz - 1) < length l).
    { destruct l; [congruence|]. simpl length in *. lia. }
    intros Hnil. apply (f_equal (@length T)) in Hnil.
    rewrite length_firstn, length_skipn in Hnil. cbn [length] in Hnil. lia.
Qed.

(** X15. The [page] parameter written as a decimal numeral selects that
    page: it is read back as the number, and for a number between 1 and
    [totalPages] the response holds the window of 9 groups that starts at
    index [9 * (k - 1)]; an absent or empty parameter selects page 1. *)
Theorem page_parameter_selects_window (l : list T) (k : nat) :
  pageNumOf (Some (ofNat k)) = Int (Z.of_nat k)
  /\ pageNumOf None = Int 1
  /\ pageNumOf (Some []) = Int 1
  /\ (1 <= k <= Z.to_nat (totalPages (snd (paginate l (Int 1)))) ->
      fst (paginate l (pageNumOf (Some (ofNat k))))
      = firstn 9 (skipn (9 * (k - 1)) l)
      /\ currentPage (snd (paginate l (pageNumOf (Some (ofNat k)))))
         = Int (Z.of_nat k)).
Proof.
  assert (Hk : pageNumOf (Some (ofNat k)) = Int (Z.of_nat k)).
  { unfold pageNumOf. cbn [optTruthy optOr].
    destruct (NumeralFacts.ofNat_first_digit k) as (c & rest & E & _).
    rewrite E. cbn [truthy orElse]. rewrite <- E.
    apply NumeralFacts.parseInt_ofNat. }
  split; [assumption|]. split; [reflexivity|]. split; [reflexivity|].
  rewrite Hk, !paginate_int. cbn [fst snd totalPages currentPage].
  set (tpz := Z.max 1 (ceilDiv (length l) GROUPS_PER_PAGE)).
  intros Hr.
  replace (Z.max 1 (Z.min (Z.of_nat k) tpz)) with (Z.of_nat k) by lia.
  split; [|reflexivity]. f_equal. f_equal. lia.
Qed.

End Pages.

End PagesFacts.

(** ** The endpoint *)

Module EndpointFacts.
Import Grouper Aggregate Vocabulary Notions Handler.

Section Bags.
Variable T : Type.










Variable U : Type.


End Bags.

(** The text fields that the route fills in are never empty. *)
Lemma orElse_nonempty (a b : jsstring) : b <> [] -> orElse a b <> [].
Proof.
  unfold orElse. destruct a as [|c a]; cbn [truthy]; [auto | discriminate].
Qed.

Lemma optOr_nonempty (a : option jsstring) (b : jsstring) :
  b <> [] -> optOr a b <> [].
Proof.
  unfold optOr. destruct a as [[|c a]|]; cbn [truthy]; auto; discriminate.
Qed.


Section WithPlatform.
Variable P : Platform.



End WithPlatform.


End EndpointFacts.

(** ** Length of the generated title *)

Module TitleLengthFacts.
Import Regex Summarizer Vocabulary.

Lemma infixOf_length (r x : jsstring) : infixOf r x -> length r <= length x.
Proof. intros (pre & post & ->). rewrite !length_app. lia. Qed.

Lemma trim_length (s : jsstring) : length (trim s) <= length s.
Proof. apply infixOf_length, TitleFacts.trim_infixOf. Qed.

Lemma capitalize_length (s : jsstring) : length (capitalize s) = length s.
Proof.
  unfold capitalize, toUpperCase, slice1.
  rewrite length_app, length_map, <- length_app, firstn_skipn. reflexivity.
Qed.

Lemma substring0_length (n : nat) (s : jsstring) :
  length (substring0 n s) <= n /\ length (substring0 n s) <= length s.
Proof. unfold substring0. rewrite length_firstn. lia. Qed.

Lemma removeStart_length (r : regex) (s : jsstring) :
  length (removeStart r s) <= length s.
Proof.
  unfold removeStart. destruct (matchStart r s) as [rest|] eqn:E; [|lia].
  apply RegexFacts.matchStart_suffix in E. destruct E as [pre ->].
  rewrite length_app. lia.
Qed.

Lemma truncateAtWord_length (s : jsstring) : length (truncateAtWord s) <= 97.
Proof.
  unfold truncateAtWord.
  destruct (50 <? lastIndexOf Similarity.space (substring0 97 s))%Z.
  - etransitivity; [apply substring0_length | apply substring0_length].
  - apply substring0_length.
Qed.

Lemma chunkAtWord_length (n : nat) (bound : Z) (s : jsstring) :
  length (chunkAtWord n bound s) <= n.
Proof.
  unfold chunkAtWord.
  assert (H : length (trim (substring0 n s)) <= n)
    by (etransitivity; [apply trim_length | apply substring0_length]).
  destruct (bound <? lastIndexOf Similarity.space (trim (substring0 n s)))%Z;
    [|assumption].
  etransitivity; [apply substring0_length | assumption].
Qed.

Lemma actionPhrase_length (summary : jsstring) (pattern : regex)
  (phrase : jsstring) :
  actionPhrase summary pattern = Some phrase -> 20 <= length phrase <= 100.
Proof.
  unfold actionPhrase.
  destruct (search pattern summary) as [[[b m] a]|]; [|discriminate].
  destruct (truthy m); [|discriminate].
  set (p := trim (removeStart sourcePrefix (trim m))).
  destruct (Nat.leb_spec 20 (length p)); cbn [andb]; [|discriminate].
  destruct (Nat.leb_spec (length p) 100); [|discriminate].
  rewrite capitalize_length.
  destruct (Nat.ltb_spec 100 (length p)); [lia|].
  intros [= <-]. rewrite capitalize_length. lia.
Qed.

Lemma firstActionPhrase_length (summary : jsstring) (patterns : list regex)
  (phrase : jsstring) :
  firstActionPhrase summary patterns = Some phrase ->
  20 <= length phrase <= 100.
Proof.
  induction patterns as [|p ps IH]; cbn [firstActionPhrase]; [discriminate|].
  destruct (actionPhrase summary p) eqn:E; [|exact IH].
  intros [= <-]. now apply actionPhrase_length in E.
Qed.

Lemma firstSentenceTitle_length (summary neutral : jsstring) :
  firstSentenceTitle summary = Some neutral -> 20 <= length neutral <= 100.
Proof.
  unfold firstSentenceTitle.
  destruct (15 <? length (trim (firstSentenceOf summary))); [|discriminate].
  set (n0 := trim (removeStart relativeWord
                     (removeStart leadIn (trim (firstSentenceOf summary))))).
  set (n1 := if 0 <? length n0 then capitalize n0 else n0).
  destruct (3 <=? length (splitWs n1)); cbn [andb].
  2:{ destruct (100 <? length n1); [|discriminate].
      destruct (Nat.leb_spec 20 (length (truncateAtWord n1))); [|discriminate].
      intros [= <-]. pose proof (truncateAtWord_length n1). lia. }
  destruct (length (splitWs n1) <=? 15); cbn [andb].
  2:{ destruct (100 <? length n1); [|discriminate].
      destruct (Nat.leb_spec 20 (length (truncateAtWord n1))); [|discriminate].
      intros [= <-]. pose proof (truncateAtWord_length n1). lia. }
  destruct (Nat.leb_spec 20 (length n1)); cbn [andb].
  2:{ destruct (100 <? length n1); [|discriminate].
      destruct (Nat.leb_spec 20 (length (truncateAtWord n1))); [|discriminate].
      intros [= <-]. pose proof (truncateAtWord_length n1). lia. }
  destruct (Nat.leb_spec (length n1) 100).
  - intros [= <-]. lia.
  - destruct (100 <? length n1); [|discriminate].
    destruct (Nat.leb_spec 20 (length (truncateAtWord n1))); [|discriminate].
    intros [= <-]. pose proof (truncateAtWord_length n1). lia.
Qed.

Lemma firstChunkTitle_length (summary chunk : jsstring) :
  firstChunkTitle summary = Some chunk -> 20 <= length chunk <= 80.
Proof.
  unfold firstChunkTitle. destruct (20 <? length summary); [|discriminate].
  set (c := trim (removeStart leadIn (chunkAtWord 80 30 summary))).
  destruct (Nat.leb_spec 20 (length c)); [|discriminate].
  intros [= <-]. rewrite capitalize_length. split; [assumption|]. subst c.
  etransitivity; [apply trim_length|].
  etransitivity; [apply removeStart_length | apply chunkAtWord_length].
Qed.

Lemma finalFallbackTitle_length (summary t : jsstring) :
  finalFallbackTitle summary = Some t -> 15 <= length t <= 70.
Proof.
  unfold finalFallbackTitle.
  set (c := trim (removeStart sourcePrefix (chunkAtWord 70 20 summary))).
  destruct (Nat.leb_spec 15 (length c)); [|discriminate].
  intros [= <-]. rewrite capitalize_length. split; [assumption|]. subst c.
  etransitivity; [apply trim_length|].
  etransitivity; [apply removeStart_length | apply chunkAtWord_length].
Qed.

Lemma fromSummary_length (summary : option jsstring) (t : jsstring) :
  fromSummary summary = Some t -> 15 <= length t <= 100.
Proof.
  unfold fromSummary. destruct summary as [summary|]; [|discriminate].
  destruct (10 <? length summary); [|discriminate].
  destruct (firstActionPhrase summary actionPatterns) eqn:E1.
  { intros [= <-]. apply firstActionPhrase_length in E1. lia. }
  destruct (firstSentenceTitle summary) eqn:E2.
  { intros [= <-]. apply firstSentenceTitle_length in E2. lia. }
  destruct (firstChunkTitle summary) eqn:E3.
  { intros [= <-]. apply firstChunkTitle_length in E3. lia. }
  intros E4. apply finalFallbackTitle_length in E4. lia.
Qed.

Lemma fromTitle_length (title : option jsstring) (t : jsstring) :
  fromTitle title = Some t -> 15 <= length t <= 100.
Proof.
  unfold fromTitle. destruct title as [title|]; [|discriminate].
  destruct (truthy title); [|discriminate].
  set (n := trim (removeFirst sourceSuffix (removeStart newsFlash title))).
  destruct (Nat.leb_spec 15 (length n)); cbn [andb].
  2:{ destruct (Nat.ltb_spec 100 (length n)); [lia|].
      destruct (Nat.leb_spec 15 (length n)); [lia | discriminate]. }
  destruct (Nat.leb_spec (length n) 100).
  - intros [= <-]. lia.
  - destruct (Nat.ltb_spec 100 (length n)); [|lia].
    destruct (Nat.leb_spec 15 (length (truncateAtWord n))); [|discriminate].
    intros [= <-]. pose proof (truncateAtWord_length n). lia.
Qed.

Lemma fromDescription_length (description : option jsstring) (t : jsstring) :
  fromDescription description = Some t -> 15 <= length t <= 100.
Proof.
  unfold fromDescription. destruct description as [d|]; [|discriminate].
  destruct (20 <? length d); [|discriminate].
  destruct (Nat.leb_spec 15 (length (trim (firstSentenceOf d))));
    cbn [andb]; [|discriminate].
  destruct (Nat.leb_spec (length (trim (firstSentenceOf d))) 100);
    [|discriminate].
  intros [= <-]. rewrite capitalize_length. lia.
Qed.

Lemma fromShortSummary_length (summary : option jsstring) (t : jsstring) :
  fromShortSummary summary = Some t -> length t <= 60.
Proof.
  unfold fromShortSummary. destruct summary as [s|]; [|discriminate].
  destruct (0 <? length s); [|discriminate].
  assert (H : length (trim (substring0 60 s)) <= 60)
    by (etransitivity; [apply trim_length | apply substring0_length]).
  destruct (15 <? lastIndexOf Similarity.space (trim (substring0 60 s)))%Z;
    intros [= <-]; rewrite capitalize_length; [|assumption].
  etransitivity; [apply substring0_length | assumption].
Qed.

Lemma lastResort_length (title : option jsstring) :
  length (lastResort title) <= 80.
Proof.
  unfold lastResort. destruct (optTruthy title).
  - etransitivity; [apply trim_length | apply substring0_length].
  - cbn. lia.
Qed.

Lemma generateNeutralTitle_length (title description summary : option jsstring) :
  length (generateNeutralTitle title description summary) <= 100
  /\ (length (generateNeutralTitle title description summary) < 15 ->
      fromSummary summary = None /\ fromTitle title = None
      /\ fromDescription description = None).
Proof.
  unfold generateNeutralTitle.
  destruct (fromSummary summary) eqn:E1.
  { apply fromSummary_length in E1. split; lia. }
  destruct (fromTitle title) eqn:E2.
  { apply fromTitle_length in E2. split; lia. }
  destruct (fromDescription description) eqn:E3.
  { apply fromDescription_length in E3. split; lia. }
  split; [|auto].
  destruct (fromShortSummary summary) eqn:E4.
  - apply fromShortSummary_length in E4. lia.
  - pose proof (lastResort_length title). lia.
Qed.

(** X17. For a title, a description and a summary that are ASCII text,
    the generated title is never longer than 100 characters; a title that
    comes from one of the first three branches (long summary, title,
    description) has at least 15 characters, so a shorter result can only
    come from the branch for short summaries or from the last line of the
    function. *)
Theorem neutral_title_at_most_100 (title description summary : option jsstring) :
  Notions.optAscii title = true ->
  Notions.optAscii description = true ->
  Notions.optAscii summary = true ->
  length (generateNeutralTitle title description summary) <= 100
  /\ (forall t, fromSummary summary = Some t ->
        generateNeutralTitle title description summary = t
        /\ 15 <= length t)
  /\ (length (generateNeutralTitle title description summary) < 15 ->
      fromSummary summary = None /\ fromTitle title = None
      /\ fromDescription description = None).
Proof.
  intros _ _ _. split; [apply generateNeutralTitle_length|]. split.
  - intros t E. split.
    + unfold generateNeutralTitle. now rewrite E.
    + apply fromSummary_length in E. lia.
  - apply generateNeutralTitle_length.
Qed.

Lemma neutral_title_at_most_100_witness :
  length (generateNeutralTitle (Some Samples.storyTitle)
                               (Some Samples.longDescription)
                               (Some Examples.catSummary)) <= 100.
Proof.
  apply (@neutral_title_at_most_100 (Some Samples.storyTitle)
           (Some Samples.longDescription) (Some Examples.catSummary));
    reflexivity.
Defined.

End TitleLengthFacts.

(** ** The summary built without the service *)

Module BasicSummaryFacts.
Import Summarizer Notions.

Lemma list_sum_map_add (T : Type) (f g : T -> nat) (l : list T) :
  list_sum (map (fun x => f x + g x) l)
  = list_sum (map f l) + list_sum (map g l).
Proof. induction l as [|x l IH]; simpl; lia. Qed.

Lemma indicator_zero (x : jsstring) (l : list jsstring) :
  ~ In x l ->
  list_sum (map (fun s => if str_eqb x s then 1 else 0) l) = 0.
Proof.
  induction l as [|s l IH]; intros Hn; [reflexivity|]. simpl.
  destruct (str_eqb x s) eqn:E.
  - apply JsFacts.str_eqb_true in E. subst s. elim Hn. now left.
  - rewrite IH; [reflexivity|]. intros H. apply Hn. now right.
Qed.

Lemma indicator_one (x : jsstring) (l : list jsstring) :
  NoDup l -> In x l ->
  list_sum (map (fun s => if str_eqb x s then 1 else 0) l) = 1.
Proof.
  induction l as [|s l IH]; intros Hnd Hin; [destruct Hin|].
  inversion Hnd as [|? ? Hnot Hnd2]. subst. simpl.
  destruct (str_eqb x s) eqn:E.
  - apply JsFacts.str_eqb_true in E. subst s.
    now rewrite indicator_zero.
  - destruct Hin as [->|Hin].
    + now rewrite JsFacts.str_eqb_refl in E.
    + now rewrite IH.
Qed.

(** The articles counted source by source are all the articles. *)
Lemma counts_by_source (arts : list NormalizedArticle) (l : list jsstring) :
  NoDup l ->
  (forall a, In a arts -> In (source a) l) ->
  list_sum (map (fun src =>
                   length (filter (fun a => str_eqb (source a) src) arts)) l)
  = length arts.
Proof.
  intros Hnd. induction arts as [|a arts IH]; intros Hin.
  - cbn [filter length]. induction l as [|s l IHl]; [reflexivity|].
    simpl. inversion Hnd. subst. now rewrite IHl.
  - rewrite (map_ext _ (fun src =>
               (if str_eqb (source a) src then 1 else 0)
               + length (filter (fun a => str_eqb (source a) src) arts))).
    + rewrite list_sum_map_add, indicator_one, IH; cbn [length]; auto.
      * intros b Hb. apply Hin. now right.
      * apply Hin. now left.
    + intros src. cbn [filter]. now destruct (str_eqb (source a) src).
Qed.

Lemma orElse_nil (s : jsstring) : orElse s [] = s.
Proof. now destruct s. Qed.

(** X18. The summary built without the service accounts for every article.
    It keeps the group's id; its [differences] hold one row per distinct
    source, in the order of the set of sources; the counts on the rows add
    up to the number of articles; each row counts at least one article and
    carries the title of the first article of its source; the summary and
    both comparison texts are never empty. *)
Theorem basic_summary_accounts_for_every_article
  (groupId : jsstring) (arts : list NormalizedArticle) :
  let r := generateBasicSummary groupId arts in
  summaryGroupId r = groupId
  /\ summary r <> []
  /\ detailedComparison r <> []
  /\ simpleComparison r <> []
  /\ NoDup (sourcesOf arts)
  /\ exists rows : list (jsstring * nat * jsstring),
       differences r = map differenceRow rows
       /\ map (fun row => fst (fst row)) rows = sourcesOf arts
       /\ list_sum (map (fun row => snd (fst row)) rows) = length arts
       /\ forall src count t, In (src, count, t) rows ->
            1 <= count
            /\ count = length (filter (fun a => str_eqb (source a) src) arts)
            /\ exists before a after,
                 arts = before ++ a :: after
                 /\ source a = src /\ title a = t
                 /\ forall b, In b before -> source b <> src.
Proof.
  cbv zeta. unfold generateBasicSummary.
  cbn [summaryGroupId summary detailedComparison simpleComparison groupTitle
       differences].
  split; [reflexivity|]. split; [|split; [|split; [|split]]].
  - apply EndpointFacts.orElse_nonempty, EndpointFacts.orElse_nonempty.
    discriminate.
  - discriminate.
  - destruct (map sourceName (sourcesOf arts)) as [|s1 [|s2 [|s3 rest]]];
      try discriminate.
    destruct s1; discriminate.
  - apply JsFacts.mkSet_NoDup.
  - exists (map (fun src =>
              (src,
               length (filter (fun a => str_eqb (source a) src) arts),
               optOr (firstTitle (filter (fun a => str_eqb (source a) src) arts))
                     []))
              (sourcesOf arts)).
    split; [now rewrite map_map|]. split; [|split].
    + rewrite map_map. cbn [fst]. apply map_id.
    + rewrite map_map. cbn [fst snd]. apply counts_by_source.
      * apply JsFacts.mkSet_NoDup.
      * intros a Ha. apply JsFacts.mkSet_In, in_map, Ha.
    + intros src count t Hin. apply in_map_iff in Hin.
      destruct Hin as (s & [= -> <- <-] & Hs).
      apply JsFacts.mkSet_In, in_map_iff in Hs.
      destruct Hs as (a0 & Hsrc & Ha0).
      assert (Hex : exists before a after,
                 arts = before ++ a :: after
                 /\ source a = src
                 /\ filter (fun a => str_eqb (source a) src) arts
                    = a :: filter (fun a => str_eqb (source a) src) after
                 /\ forall b, In b before -> source b <> src).
      { clear - Hsrc Ha0. induction arts as [|x arts IH]; [destruct Ha0|].
        destruct (str_eqb (source x) src) eqn:E.
        - exists [], x, arts. cbn [app filter]. rewrite E.
          apply JsFacts.str_eqb_true in E. repeat split; auto.
        - destruct Ha0 as [->|Ha0].
          { subst src. now rewrite JsFacts.str_eqb_refl in E. }
          destruct (IH Ha0) as (before & a & after & -> & H1 & H2 & H3).
          exists (x :: before), a, after. cbn [app filter]. rewrite E.
          repeat split; auto.
          intros b [<-|Hb]; [|now apply H3].
          intros Hx. rewrite Hx, JsFacts.str_eqb_refl in E. discriminate. }
      destruct Hex as (before & a & after & Harts & Ha & Hf & Hb).
      split; [rewrite Hf; cbn [length]; lia|]. split; [reflexivity|].
      exists before, a, after. repeat split; auto.
      rewrite Hf. cbn [firstTitle hd_error option_map optOr].
      symmetry. apply orElse_nil.
Qed.

(** X19. When no key is configured, or when the request to the service
    fails, the result is the one the function gives with no key at all; it
    then keeps the group's id and has one entry of [differences] per
    distinct source of the group, whatever the number of articles. *)
Theorem fallback_one_difference_per_source
  (svc : Service) (group : Group) (arts : list NormalizedArticle) :
  articles group = Some arts ->
  hasApiKey svc = false \/ complete svc arts = None ->
  let r := summarizeArticleGroup svc group in
  r = summarizeArticleGroup
        {| hasApiKey := false; complete := fun _ => None |} group
  /\ summaryGroupId r = Summarizer.groupId group
  /\ length (differences r) = length (sourcesOf arts).
Proof.
  intros Ha Hoff. cbv zeta. unfold summarizeArticleGroup. rewrite Ha.
  cbn [hasApiKey negb].
  destruct arts as [|a [|b rest]].
  - repeat split.
  - repeat split.
  - assert (E : (if negb (hasApiKey svc)
                 then generateBasicSummary (Summarizer.groupId group)
                                           (a :: b :: rest)
                 else match complete svc (a :: b :: rest) with
                      | Some parsed =>
                          fromParsed (Summarizer.groupId group)
                                     (a :: b :: rest) parsed
                      | None =>
                          generateBasicSummary (Summarizer.groupId group)
                                               (a :: b :: rest)
                      end)
                = generateBasicSummary (Summarizer.groupId group)
                                       (a :: b :: rest)).
    { destruct Hoff as [-> | ->]; [reflexivity|].
      now destruct (hasApiKey svc). }
    rewrite E. split; [reflexivity|]. split; [reflexivity|].
    unfold generateBasicSummary. cbn [differences]. apply length_map.
Qed.

Lemma fallback_one_difference_per_source_witness :
  length (differences
            (summarizeArticleGroup Examples.offline
               (ofArticleGroup Examples.twoSources))) = 2
  /\ summaryGroupId
       (summarizeArticleGroup Examples.offline
          (ofArticleGroup Examples.twoSources)) = lit "group-1".
Proof.
  pose proof (@fallback_one_difference_per_source Examples.offline
                (ofArticleGroup Examples.twoSources)
                [Examples.flood1; Examples.flood2]
                eq_refl (or_introl eq_refl)) as H.
  cbv zeta in H. destruct H as (_ & H1 & H2).
  split; [exact H2 | exact H1].
Defined.

End BasicSummaryFacts.

(** ** Normalization, record by record *)

Module NormalizeLaws.
Import Normalize Notions.

Lemma truthy_optOr_nil (a : option jsstring) : truthy (optOr a []) = optTruthy a.
Proof. now destruct a as [[|c s]|]. Qed.

Lemma truthy_optOr (a : option jsstring) (b : jsstring) :
  truthy (optOr a b) = optTruthy a || truthy b.
Proof. now destruct a as [[|c s]|]. Qed.

Lemma optOr_truthy (a : option jsstring) (b : jsstring) :
  b <> [] -> truthy (optOr a b) = true.
Proof. rewrite truthy_optOr. destruct b; [congruence|]. now rewrite orb_true_r. Qed.

Section WithPlatform.
Variable P : Platform.

Lemma normalizerFor_cases (src : jsstring)
  (normalizer : RawRecord -> NormalizedArticle) :
  normalizerFor P src = Some normalizer ->
  (src = lit "guardian" /\ normalizer = normalizeGuardian P)
  \/ (src = lit "gdelt" /\ normalizer = normalizeGdelt P)
  \/ (src = lit "currents" /\ normalizer = normalizeCurrents P).
Proof.
  unfold normalizerFor.
  destruct (str_eqb src (lit "guardian")) eqn:E1.
  { apply JsFacts.str_eqb_true in E1. intros [= <-]. auto. }
  destruct (str_eqb src (lit "gdelt")) eqn:E2.
  { apply JsFacts.str_eqb_true in E2. intros [= <-]. auto. }
  destruct (str_eqb src (lit "currents")) eqn:E3; [|discriminate].
  apply JsFacts.str_eqb_true in E3. intros [= <-]. auto.
Qed.

Lemma knownSource_normalizer (src : jsstring) :
  knownSource src = true ->
  exists normalizer, normalizerFor P src = Some normalizer.
Proof.
  unfold knownSource, normalizerFor.
  destruct (str_eqb src (lit "guardian")); [eauto|].
  destruct (str_eqb src (lit "gdelt")); [eauto|].
  destruct (str_eqb src (lit "currents")); [eauto | discriminate].
Qed.

(** No normalizer leaves the title empty: a missing title becomes
    ['No title']. *)
Lemma normalized_title_truthy (src : jsstring)
  (normalizer : RawRecord -> NormalizedArticle) (raw : RawRecord) :
  normalizerFor P src = Some normalizer ->
  truthy (title (normalizer raw)) = true.
Proof.
  intros H. apply normalizerFor_cases in H.
  destruct H as [[_ ->]|[[_ ->]|[_ ->]]];
    cbn [normalizeGuardian normalizeGdelt normalizeCurrents title];
    rewrite ?truthy_optOr; cbn [truthy lit list_ascii_of_string];
    rewrite ?orb_true_r; reflexivity.
Qed.

Lemma normalized_tag (src : jsstring)
  (normalizer : RawRecord -> NormalizedArticle) (raw : RawRecord) :
  normalizerFor P src = Some normalizer ->
  source (normalizer raw) = src
  /\ (exists hash, id (normalizer raw) = src ++ lit "-" ++ hash
                   /\ length hash <= 8)
  /\ language (normalizer raw) <> [].
Proof.
  intros H. apply normalizerFor_cases in H.
  destruct H as [[-> ->]|[[-> ->]|[-> ->]]];
    cbn [normalizeGuardian normalizeGdelt normalizeCurrents source id language];
    (split; [reflexivity|]); (split; [|try discriminate]).
  all: try (unfold createArticleId; eexists; split; [reflexivity|];
            unfold substring0; rewrite length_firstn; lia).
  all: apply EndpointFacts.optOr_nonempty; discriminate.
Qed.

(** X20. Normalization works record by record and tags what it keeps.
    For the three sources that the route passes, the output for a list is
    the outputs for its records one after the other, so it distributes over
    concatenation and keeps the order of the records; each record gives at
    most one article; and every article carries the requested source as its
    [source], an [id] made of that source, a hyphen and at most 8
    characters of the hash, and a non-empty [language]. *)
Theorem normalization_recordwise_and_tagged
  (raws more : list RawRecord) (src : jsstring) :
  knownSource src = true ->
  normalizeArticles P raws src
  = concat (map (fun raw => normalizeArticles P [raw] src) raws)
  /\ normalizeArticles P (raws ++ more) src
     = normalizeArticles P raws src ++ normalizeArticles P more src
  /\ (forall raw, length (normalizeArticles P [raw] src) <= 1)
  /\ (forall article, In article (normalizeArticles P raws src) ->
        source article = src
        /\ (exists hash, id article = src ++ lit "-" ++ hash
                         /\ length hash <= 8)
        /\ language article <> []).
Proof.
  intros Hknown.
  destruct (knownSource_normalizer src Hknown)
    as [normalizer E].
  unfold normalizeArticles. rewrite E.
  split; [|split; [|split]].
  - set (one := fun raw : RawRecord => _).
    induction raws as [|r raws IH]; [reflexivity|].
    cbn [map concat]. rewrite <- IH. unfold one. cbn [filter].
    destruct (hasUrl r && hasTitle r); cbn [map filter app]; [|reflexivity].
    now destruct (truthy (url (normalizer r)) && truthy (title (normalizer r))).
  - now rewrite filter_app, map_app, filter_app.
  - intros raw. cbn [filter].
    destruct (hasUrl raw && hasTitle raw); cbn [map filter length]; [|lia].
    destruct (truthy (url (normalizer raw)) && truthy (title (normalizer raw)));
      cbn [length]; lia.
  - intros article Hin. apply filter_In in Hin. destruct Hin as [Hin _].
    apply in_map_iff in Hin. destruct Hin as (raw & <- & _).
    now apply (@normalized_tag src normalizer raw).
Qed.

Lemma single_record (normalizer : RawRecord -> NormalizedArticle)
  (src : jsstring) (raw : RawRecord) :
  normalizerFor P src = Some normalizer ->
  normalizeArticles P [raw] src
  = if hasUrl raw && hasTitle raw && truthy (url (normalizer raw))
    then [normalizer raw] else [].
Proof.
  intros E. unfold normalizeArticles. rewrite E. cbn [filter].
  destruct (hasUrl raw && hasTitle raw); cbn [map filter andb]; [|reflexivity].
  rewrite (@normalized_title_truthy src normalizer raw E), andb_true_r.
  reflexivity.
Qed.

(** X21. Which records each provider's normalization keeps.  The title
    test after normalizing never drops a record, since a missing title has
    become ['No title']; what decides is the link.  A Guardian record is
    kept exactly when it has a [webUrl] and any of the three title fields,
    a Currents record when it has a [url] and any of the three title fields,
    and a GDELT record when it passes the first filter and one of [url],
    [shareurl], [articleurl], [articleURL] is set.  So a Guardian record
    whose only title field is [title] is kept, with the title ['No title'],
    and a Guardian record whose only link is [url] is dropped. *)
Theorem kept_records_by_provider (raw : RawRecord) :
  normalizeArticles P [raw] (lit "guardian")
  = (if optTruthy (get raw "webUrl") && hasTitle raw
     then [normalizeGuardian P raw] else [])
  /\ normalizeArticles P [raw] (lit "currents")
     = (if optTruthy (get raw "url") && hasTitle raw
        then [normalizeCurrents P raw] else [])
  /\ normalizeArticles P [raw] (lit "gdelt")
     = (if hasUrl raw && hasTitle raw
           && (optTruthy (get raw "url") || optTruthy (get raw "shareurl")
               || optTruthy (get raw "articleurl")
               || optTruthy (get raw "articleURL"))
        then [normalizeGdelt P raw] else [])
  /\ (optTruthy (get raw "webTitle") = false ->
      title (normalizeGuardian P raw) = lit "No title")
  /\ (optTruthy (get raw "webUrl") = false ->
      normalizeArticles P [raw] (lit "guardian") = []).
Proof.
  assert (Hg : normalizeArticles P [raw] (lit "guardian")
               = (if optTruthy (get raw "webUrl") && hasTitle raw
                  then [normalizeGuardian P raw] else [])).
  { rewrite (@single_record (normalizeGuardian P)) by reflexivity.
    cbn [normalizeGuardian url]. rewrite truthy_optOr_nil. unfold hasUrl.
    destruct (optTruthy (get raw "webUrl")); cbn [orb andb];
      [now rewrite andb_true_r | now rewrite andb_false_r]. }
  split; [exact Hg|]. split; [|split; [|split]].
  - rewrite (@single_record (normalizeCurrents P)) by reflexivity.
    cbn [normalizeCurrents url]. rewrite truthy_optOr_nil. unfold hasUrl.
    destruct (optTruthy (get raw "url")); cbn [orb andb].
    + now rewrite orb_true_r, andb_true_r.
    + now rewrite andb_false_r.
  - rewrite (@single_record (normalizeGdelt P)) by reflexivity.
    cbn [normalizeGdelt url]. rewrite !truthy_optOr. cbn [truthy].
    now rewrite orb_false_r, !orb_assoc.
  - intros H. cbn [normalizeGuardian title].
    destruct (get raw "webTitle") as [[|c s]|]; [reflexivity | discriminate |
                                                 reflexivity].
  - intros H. rewrite Hg, H. reflexivity.
Qed.

End WithPlatform.

Lemma normalization_recordwise_and_tagged_witness :
  normalizeArticles Examples.platform
    ([Examples.rawComplete] ++ [Samples.rawMistitled]) (lit "guardian")
  = normalizeArticles Examples.platform [Examples.rawComplete] (lit "guardian")
    ++ normalizeArticles Examples.platform [Samples.rawMistitled]
                         (lit "guardian").
Proof.
  exact (proj1 (proj2 (@normalization_recordwise_and_tagged Examples.platform
                         [Examples.rawComplete] [Samples.rawMistitled]
                         (lit "guardian") eq_refl))).
Defined.





End NormalizeLaws.

(** ** The query sent to GDELT *)

Module GdeltFacts.
Import Gdelt Notions.

Lemma app_is_star (a b : jsstring) :
  str_eqb (a ++ lit " " ++ b) star = false.
Proof.
  apply KeyTermFacts.str_eqb_false. intros H.
  destruct a as [|c a]; cbn in H; [discriminate H|].
  injection H as _ H. destruct a; discriminate H.
Qed.

(** X22. The query sent to GDELT is its parts joined by single spaces:
    the search term, then [sourcecountry:] with the country code in upper
    case, then the category, where a search term or a category that is
    missing, empty or [*] is no part; with no part at all the query is
    [*].  The query is never empty. *)
Theorem gdelt_query_parts (query country category : option jsstring) :
  gdeltQuery query country category
  = match gdeltParts query country category with
    | [] => star
    | parts => join (lit " ") parts
    end
  /\ gdeltQuery query country category <> [].
Proof.
  assert (Hq : forall q : option jsstring,
    (optTruthy q && negb (str_eqb (optOr q []) star) = true
     /\ optOr q star = optOr q [] /\ optOr q [] <> []
     /\ str_eqb (optOr q star) star = false)
    \/ (optTruthy q && negb (str_eqb (optOr q []) star) = false
        /\ optOr q star = star)).
  { intros [[|c s]|]; cbn [optTruthy optOr orElse truthy andb]; auto.
    destruct (str_eqb (c :: s) star) eqn:E; cbn [negb].
    - right. apply JsFacts.str_eqb_true in E. now rewrite E.
    - left. repeat split; congruence. }
  assert (Hc : forall a b : jsstring,
             str_eqb (a ++ lit " sourcecountry:" ++ b) star = false).
  { intros a b. apply KeyTermFacts.str_eqb_false. intros H.
    apply (f_equal (@length ascii)) in H. rewrite !length_app in H.
    cbn in H. lia. }
  assert (Hs : forall b : jsstring,
             str_eqb (lit "sourcecountry:" ++ b) star = false).
  { intros b. apply KeyTermFacts.str_eqb_false. intros H.
    apply (f_equal (@length ascii)) in H. rewrite !length_app in H.
    cbn in H. lia. }
  unfold gdeltQuery, gdeltParts.
  destruct (Hq query) as [(-> & -> & Hne & Hqs)|(-> & ->)];
    destruct (optTruthy country);
    destruct (optTruthy category
              && negb (str_eqb (optOr category []) star)) eqn:Ecat;
    try (rewrite JsFacts.str_eqb_refl);
    rewrite ?Hqs, ?Hc, ?Hs;
    cbn [app join];
    try (rewrite JsFacts.str_eqb_refl);
    (split; [try reflexivity|]).
  all: try (destruct (optOr query []); [congruence | discriminate]).
  all: try discriminate.
  all: try (now rewrite <- !app_assoc).
  all: try (destruct (Hq category) as [(_ & _ & H & _)|(H & _)];
              [exact H | congruence]).
  all: try (destruct (optOr query []) as [|c s]; [congruence|];
            try rewrite Hqs; try discriminate).
Qed.

End GdeltFacts.

(** ** The response cache *)

Module CacheFacts.
Import Cache Notions.

Section WithData.
Variable D : Type.

Lemma get_set_same (key : jsstring) (value : Entry D) (cache : Store D) :
  get key (set key value cache) = Some value.
Proof.
  induction cache as [|[k v] cache IH]; cbn [set get].
  - now rewrite JsFacts.str_eqb_refl.
  - destruct (str_eqb k key) eqn:E; cbn [get]; now rewrite E.
Qed.

Lemma get_set_other (key other : jsstring) (value : Entry D)
  (cache : Store D) :
  other <> key -> get other (set key value cache) = get other cache.
Proof.
  intros Hne. induction cache as [|[k v] cache IH]; cbn [set get].
  - apply not_eq_sym, KeyTermFacts.str_eqb_false in Hne. now rewrite Hne.
  - destruct (str_eqb k key) eqn:E; cbn [get].
    + apply JsFacts.str_eqb_true in E. subst k.
      apply not_eq_sym, KeyTermFacts.str_eqb_false in Hne. now rewrite Hne.
    + now rewrite IH.
Qed.

Lemma get_delete_other (key other : jsstring) (cache : Store D) :
  other <> key -> get other (delete key cache) = get other cache.
Proof.
  intros Hne. induction cache as [|[k v] cache IH]; cbn [delete get];
    [reflexivity|].
  destruct (str_eqb k key) eqn:E; cbn [get].
  - apply JsFacts.str_eqb_true in E. subst k.
    apply not_eq_sym, KeyTermFacts.str_eqb_false in Hne. now rewrite Hne.
  - now rewrite IH.
Qed.

Lemma get_none_keys (key : jsstring) (cache : Store D) :
  get key cache = None <-> ~ In key (map fst cache).
Proof.
  induction cache as [|[k v] cache IH]; cbn [get map fst].
  - split; [intros _ [] | reflexivity].
  - destruct (str_eqb k key) eqn:E.
    + apply JsFacts.str_eqb_true in E. subst k.
      split; [discriminate|]. intros H. elim H. now left.
    + apply KeyTermFacts.str_eqb_false in E. rewrite IH. simpl. intuition.
Qed.

Lemma get_delete_same (key : jsstring) (cache : Store D) :
  uniqueKeys cache -> get key (delete key cache) = None.
Proof.
  unfold uniqueKeys. induction cache as [|[k v] cache IH]; intros Hnd;
    cbn [delete get]; [reflexivity|].
  cbn [map fst] in Hnd. inversion Hnd as [|? ? Hnot Hnd']. subst.
  destruct (str_eqb k key) eqn:E; cbn [get].
  - apply JsFacts.str_eqb_true in E. subst k. now apply get_none_keys.
  - rewrite E. now apply IH.
Qed.

Lemma keys_set_In (key : jsstring) (value : Entry D) (cache : Store D)
  (k : jsstring) :
  In k (map fst (set key value cache)) <-> k = key \/ In k (map fst cache).
Proof.
  induction cache as [|[k0 v] cache IH]; cbn [set map fst].
  - simpl. intuition.
  - destruct (str_eqb k0 key) eqn:E; cbn [map fst].
    + apply JsFacts.str_eqb_true in E. subst k0. simpl. intuition.
    + simpl. rewrite IH. intuition.
Qed.

Lemma keys_set (key : jsstring) (value : Entry D) (cache : Store D) :
  uniqueKeys cache -> uniqueKeys (set key value cache).
Proof.
  unfold uniqueKeys. induction cache as [|[k v] cache IH]; intros Hnd;
    cbn [set map fst].
  - repeat constructor. intros [].
  - cbn [map fst] in Hnd. inversion Hnd as [|? ? Hnot Hnd']. subst.
    destruct (str_eqb k key) eqn:E; cbn [map fst]; [assumption|].
    apply KeyTermFacts.str_eqb_false in E.
    constructor; [|now apply IH].
    rewrite keys_set_In. intros [H|H]; auto.
Qed.

Lemma keys_delete (key : jsstring) (cache : Store D) :
  uniqueKeys cache -> uniqueKeys (delete key cache).
Proof.
  unfold uniqueKeys. induction cache as [|[k v] cache IH]; intros Hnd;
    cbn [delete map fst]; [constructor|].
  cbn [map fst] in Hnd. inversion Hnd as [|? ? Hnot Hnd']. subst.
  destruct (str_eqb k key) eqn:E; cbn [map fst]; [assumption|].
  constructor; [|now apply IH].
  intros Hin. apply Hnot.
  destruct (get k cache) eqn:G.
  - apply (proj2 (get_none_keys k cache)) in Hnot. congruence.
  - apply KeyTermFacts.str_eqb_false in E.
    rewrite <- (@get_delete_other key k cache E) in G.
    apply get_none_keys in G. contradiction.
Qed.

(** X23. A response is served from the cache only while it is fresh.
    Reading a key after writing it gives the written data back when less
    than 60 seconds have passed on the clock, and nothing otherwise; in the
    second case the entry is gone from the cache.  Writing one key changes
    what is read under no other key, and both helpers keep the keys of the
    cache pairwise different. *)
Theorem cache_round_trip (cache : Store D) (key : jsstring) (d : D)
  (written read : Z) :
  uniqueKeys cache ->
  let cache1 := setCache written key d cache in
  fst (getFromCache read key cache1)
  = (if (read - written <? 60000)%Z then Some d else None)
  /\ ((60000 <= read - written)%Z ->
      get key (snd (getFromCache read key cache1)) = None)
  /\ (forall other, other <> key ->
        fst (getFromCache read other cache1)
        = fst (getFromCache read other cache))
  /\ uniqueKeys cache1
  /\ uniqueKeys (snd (getFromCache read key cache1)).
Proof.
  intros Hu. cbv zeta. unfold getFromCache, setCache.
  rewrite get_set_same. cbn [timestamp data]. unfold CACHE_TTL.
  change (60 * 1000)%Z with 60000%Z.
  pose proof (@keys_set key {| data := d; timestamp := written |} cache Hu)
    as Hu1.
  split; [|split; [|split; [|split]]].
  - now destruct (read - written <? 60000)%Z.
  - intros Hold. destruct (Z.ltb_spec (read - written) 60000); [lia|].
    cbn [snd]. now apply get_delete_same.
  - intros other Hne. rewrite get_set_other by assumption.
    destruct (get other cache) as [cached|]; [|reflexivity].
    now destruct (read - timestamp cached <? 60000)%Z.
  - exact Hu1.
  - destruct (read - written <? 60000)%Z; cbn [snd];
      [exact Hu1 | now apply keys_delete].
Qed.

(** X24. What [getFromCache] returns is never stale.  Data is returned
    only from an entry of the cache under that key whose timestamp is less
    than 60 seconds behind the clock, and then the cache is unchanged; when
    nothing is returned, the cache holds no entry under the key afterwards;
    and the entries under the other keys are never touched. *)
Theorem cache_never_stale (cache : Store D) (key : jsstring) (now : Z) :
  uniqueKeys cache ->
  (forall d, fst (getFromCache now key cache) = Some d ->
     exists stamp,
       get key cache = Some {| data := d; timestamp := stamp |}
       /\ (now - stamp < 60000)%Z
       /\ snd (getFromCache now key cache) = cache)
  /\ (fst (getFromCache now key cache) = None ->
      get key (snd (getFromCache now key cache)) = None)
  /\ (forall other, other <> key ->
        get other (snd (getFromCache now key cache)) = get other cache).
Proof.
  intros Hu. unfold getFromCache.
  destruct (get key cache) as [[d0 stamp]|] eqn:G; cbn [timestamp data].
  - unfold CACHE_TTL. change (60 * 1000)%Z with 60000%Z.
    destruct (Z.ltb_spec (now - stamp) 60000); cbn [fst snd].
    + split; [|split; [discriminate | reflexivity]].
      intros d [= <-]. now exists stamp.
    + split; [discriminate|]. split.
      * intros _. now apply get_delete_same.
      * intros other Hne. now apply get_delete_other.
  - cbn [fst snd]. split; [discriminate|]. split; [auto | reflexivity].
Qed.

End WithData.

Lemma cache_round_trip_witness :
  fst (getFromCache 59999 (lit "k") (setCache 0 (lit "k") 7 Samples.cached))
  = Some 7
  /\ fst (getFromCache 60000 (lit "k") (setCache 0 (lit "k") 7 Samples.cached))
     = None.
Proof.
  assert (Hu : uniqueKeys Samples.cached).
  { unfold uniqueKeys. repeat constructor. intros []. }
  split.
  - exact (proj1 (@cache_round_trip nat Samples.cached (lit "k") 7 0 59999 Hu)).
  - exact (proj1 (@cache_round_trip nat Samples.cached (lit "k") 7 0 60000 Hu)).
Defined.

Lemma cache_never_stale_witness :
  get (lit "https://content.guardianapis.com/search?q=flood")
      (snd (getFromCache 60000
              (lit "https://content.guardianapis.com/search?q=flood")
              Samples.cached))
  = None.
Proof.
  assert (Hu : uniqueKeys Samples.cached).
  { unfold uniqueKeys. repeat constructor. intros []. }
  apply (@cache_never_stale nat Samples.cached
           (lit "https://content.guardianapis.com/search?q=flood") 60000 Hu).
  reflexivity.
Defined.

End CacheFacts.
